(** * Bolt compiler: tokenizer, parser and code generator

    A shallow embedding of [lexer.cpp], [parser.cpp], [codegen.cpp] and
    [main.cpp], followed by the properties of the pipeline that the
    specification states and by further properties of the code.

    Conventions of the embedding.
    - A [std::string] is a sequence of bytes.  The source text the lexer
      indexes is a [list ascii]; token texts, diagnostics and the generated
      assembly are [string]s.
    - The C++ [int] cursors and line counters are natural numbers: they start
      at 0 (resp. 1) and are only decremented right after an increment.  The
      natural numbers are the [int]s of the code as long as these do not
      overflow, that is for the sources of [fits_int]
      ([lexer_counters_fit_int]): the properties of whole sources that
      speak of the place or the line of a token are stated for those
      sources.
    - [std::isdigit], [std::isalpha] and [std::isalnum] are those of the "C"
      locale.
    - A [while] loop is a [Fixpoint] on a fuel argument that yields [None]
      (lexer) or [OutOfFuel] (parser) when the fuel is used up; the callers
      pass a fuel that is proved to be enough.
    - [std::cerr] is a list of lines, the newest last. *)

From Stdlib Require Import String Ascii List Arith Lia Bool DecimalString.
From Stdlib Require Import NArith.
From Stdlib Require Import Sorted.
Import ListNotations.
Open Scope string_scope.
Open Scope list_scope.
Open Scope nat_scope.

(** ** Tokens ([lexer.hpp]) *)

Inductive TokenType : Set :=
  | INT | CHAR | RETURN | FOR
  | IDENTIFIER
  | NUMBER_LITERAL | STRING_LITERAL
  | SEMICOLON | OPEN_PAREN | CLOSE_PAREN | OPEN_BRACE | CLOSE_BRACE
  | OPEN_ANGLE | CLOSE_ANGLE | EQUALS | PLUS | MINUS | STAR | SLASH
  | INCLUDE
  | END_OF_FILE.

Definition TokenType_eq_dec (a b : TokenType) : {a = b} + {a <> b}.
Proof. decide equality. Defined.

Definition TokenType_eqb (a b : TokenType) : bool :=
  if TokenType_eq_dec a b then true else false.

Record Token : Set := mkToken
  { type : TokenType;
    value : string;
    line : nat }.

(** [std::to_string] on a non-negative [int]. *)
Definition to_string_int (n : nat) : string :=
  NilZero.string_of_uint (Nat.to_uint n).

Definition type_str (t : TokenType) : string :=
  match t with
  | INT => "INT" | CHAR => "CHAR" | RETURN => "RETURN" | FOR => "FOR"
  | IDENTIFIER => "IDENTIFIER"
  | NUMBER_LITERAL => "NUMBER_LITERAL" | STRING_LITERAL => "STRING_LITERAL"
  | SEMICOLON => "SEMICOLON"
  | OPEN_PAREN => "OPEN_PAREN" | CLOSE_PAREN => "CLOSE_PAREN"
  | OPEN_BRACE => "OPEN_BRACE" | CLOSE_BRACE => "CLOSE_BRACE"
  | OPEN_ANGLE => "OPEN_ANGLE" | CLOSE_ANGLE => "CLOSE_ANGLE"
  | EQUALS => "EQUALS" | PLUS => "PLUS" | MINUS => "MINUS" | STAR => "STAR"
  | SLASH => "SLASH" | INCLUDE => "INCLUDE" | END_OF_FILE => "END_OF_FILE"
  end.

(** [Token::to_string]. *)
Definition Token_to_string (t : Token) : string :=
  ("Token [Type: " ++ type_str (type t) ++ ", Value: '" ++ value t
     ++ "', Line: " ++ to_string_int (line t) ++ "]")%string.

(** Characters that cannot be written inside a string literal. *)
Definition NUL : ascii := "000"%char.
Definition TAB : ascii := "009"%char.
Definition LF : ascii := "010"%char.
Definition CR : ascii := "013"%char.
Definition DQUOTE : ascii := "034"%char.

(** ** The lexer ([lexer.cpp]) *)

Module Lexer.

(** The keyword table. *)
Definition keywords : list (string * TokenType) :=
  [("int", INT); ("char", CHAR); ("return", RETURN); ("for", FOR)].

Fixpoint keywords_find (tbl : list (string * TokenType)) (k : string)
  : option TokenType :=
  match tbl with
  | [] => None
  | (k', ty) :: tbl' =>
    if String.eqb k' k then Some ty else keywords_find tbl' k
  end.

Definition isdigit (c : ascii) : bool :=
  let n := nat_of_ascii c in (48 <=? n) && (n <=? 57).

Definition isalpha (c : ascii) : bool :=
  let n := nat_of_ascii c in
  ((65 <=? n) && (n <=? 90)) || ((97 <=? n) && (n <=? 122)).

Definition isalnum (c : ascii) : bool := isalpha c || isdigit c.

(** The fields of [class Lexer]. *)
Record t : Set := mk
  { m_source : list ascii;
    m_current_pos : nat;
    m_line : nat }.

(** [Lexer::Lexer]: the cursor starts at 0 and the line counter at 1. *)
Definition new (source : string) : t :=
  {| m_source := list_ascii_of_string source;
     m_current_pos := 0;
     m_line := 1 |}.

Definition set_pos (lx : t) (p : nat) : t :=
  {| m_source := m_source lx; m_current_pos := p; m_line := m_line lx |}.

Definition incr_line (lx : t) : t :=
  {| m_source := m_source lx; m_current_pos := m_current_pos lx;
     m_line := S (m_line lx) |}.

(** [m_source[i]]; reading at [length] gives the terminating NUL. *)
Definition char_at (lx : t) (i : nat) : ascii := nth i (m_source lx) NUL.

Definition is_at_end (lx : t) : bool :=
  length (m_source lx) <=? m_current_pos lx.

(** [return m_source[m_current_pos++];] *)
Definition advance (lx : t) : ascii * t :=
  (char_at lx (m_current_pos lx), set_pos lx (S (m_current_pos lx))).

Definition peek (lx : t) : ascii :=
  if is_at_end lx then NUL else char_at lx (m_current_pos lx).

(** [m_source.substr(start, len)]. *)
Definition substr (lx : t) (start len : nat) : string :=
  string_of_list_ascii (firstn len (skipn start (m_source lx))).

(** [make_token(type, value)]. *)
Definition make_token (lx : t) (ty : TokenType) (v : string) : Token :=
  {| type := ty; value := v; line := m_line lx |}.

(** [make_token(type)], for single-character tokens. *)
Definition make_token1 (lx : t) (ty : TokenType) : Token :=
  {| type := ty;
     value := String (char_at lx (m_current_pos lx - 1)) EmptyString;
     line := m_line lx |}.

(** Fuel that is enough for any loop over the source of [lx]. *)
Definition fuel_of (lx : t) : nat := S (length (m_source lx)).

(** [while (cond) body], with the fuel checked only when the condition
    holds. *)
Fixpoint while_ (cond : t -> bool) (body : t -> t) (fuel : nat) (lx : t)
  : option t :=
  if cond lx then
    match fuel with
    | 0 => None
    | S fuel' => while_ cond body fuel' (body lx)
    end
  else Some lx.

(** The inner loop of the comment case:
    [while (peek() != '\n' && !is_at_end()) advance();] *)
Definition skip_line_comment : nat -> t -> option t :=
  while_ (fun lx => negb (Ascii.eqb (peek lx) LF) && negb (is_at_end lx))
         (fun lx => snd (advance lx)).

(** [skip_whitespace_and_comments]. *)
Fixpoint skip_whitespace_and_comments (fuel : nat) (lx : t) : option t :=
  if is_at_end lx then Some lx else
  match fuel with
  | 0 => None
  | S fuel' =>
    let c := peek lx in
    if Ascii.eqb c " " || Ascii.eqb c CR || Ascii.eqb c TAB then
      skip_whitespace_and_comments fuel' (snd (advance lx))
    else if Ascii.eqb c LF then
      skip_whitespace_and_comments fuel' (snd (advance (incr_line lx)))
    else if Ascii.eqb c "/" then
      if (m_current_pos lx + 1 <? length (m_source lx))
         && Ascii.eqb (char_at lx (m_current_pos lx + 1)) "/"
      then
        match skip_line_comment (fuel_of lx) lx with
        | None => None
        | Some lx' => skip_whitespace_and_comments fuel' lx'
        end
      else Some lx
    else Some lx
  end.

(** The loop of [handle_identifier]:
    [while (std::isalnum(peek()) || peek() == '_') advance();] *)
Definition identifier_loop : nat -> t -> option t :=
  while_ (fun lx => isalnum (peek lx) || Ascii.eqb (peek lx) "_")
         (fun lx => snd (advance lx)).

Definition handle_identifier (lx : t) : option (Token * t) :=
  let start := m_current_pos lx in
  match identifier_loop (fuel_of lx) lx with
  | None => None
  | Some lx =>
    let value := substr lx start (m_current_pos lx - start) in
    match keywords_find keywords value with
    | Some ty => Some (make_token lx ty value, lx)
    | None => Some (make_token lx IDENTIFIER value, lx)
    end
  end.

(** The loop of [handle_number]: [while (std::isdigit(peek())) advance();] *)
Definition number_loop : nat -> t -> option t :=
  while_ (fun lx => isdigit (peek lx)) (fun lx => snd (advance lx)).

Definition handle_number (lx : t) : option (Token * t) :=
  let start := m_current_pos lx in
  match number_loop (fuel_of lx) lx with
  | None => None
  | Some lx =>
    let value := substr lx start (m_current_pos lx - start) in
    Some (make_token lx NUMBER_LITERAL value, lx)
  end.

(** The loop of [handle_string]:
    while [peek()] is not the double quote and [!is_at_end()],
    [{ if (peek() == '\n') m_line++; advance(); }] *)
Definition string_loop : nat -> t -> option t :=
  while_ (fun lx => negb (Ascii.eqb (peek lx) DQUOTE) && negb (is_at_end lx))
         (fun lx =>
            let lx := if Ascii.eqb (peek lx) LF then incr_line lx else lx in
            snd (advance lx)).

(** [handle_string]; the "Unterminated string" line goes to [std::cerr],
    which the lexer model does not keep. *)
Definition handle_string (lx : t) : option (Token * t) :=
  let start := m_current_pos lx in
  match string_loop (fuel_of lx) lx with
  | None => None
  | Some lx =>
    if is_at_end lx then
      Some (make_token lx END_OF_FILE "ERROR", lx)
    else
      let value := substr lx start (m_current_pos lx - start) in
      let lx := snd (advance lx) in
      Some (make_token lx STRING_LITERAL value, lx)
  end.

(** The cases of the [switch] in [tokenize] that push [make_token(type)]. *)
Definition single_char (c : ascii) : option TokenType :=
  if Ascii.eqb c ";" then Some SEMICOLON
  else if Ascii.eqb c "(" then Some OPEN_PAREN
  else if Ascii.eqb c ")" then Some CLOSE_PAREN
  else if Ascii.eqb c "{" then Some OPEN_BRACE
  else if Ascii.eqb c "}" then Some CLOSE_BRACE
  else if Ascii.eqb c "<" then Some OPEN_ANGLE
  else if Ascii.eqb c ">" then Some CLOSE_ANGLE
  else if Ascii.eqb c "=" then Some EQUALS
  else if Ascii.eqb c "+" then Some PLUS
  else if Ascii.eqb c "-" then Some MINUS
  else if Ascii.eqb c "*" then Some STAR
  else None.

(** The [switch (c)] of [tokenize], entered after [char c = advance();].
    The result is the lexer afterwards and the tokens pushed (none or one). *)
Definition dispatch (c : ascii) (lx : t) : option (t * list Token) :=
  match single_char c with
  | Some ty => Some (lx, [make_token1 lx ty])
  | None =>
    if Ascii.eqb c "#" then
      if Ascii.eqb (peek lx) "i" then
        let lx := set_pos lx (m_current_pos lx + 6) in
        Some (lx, [make_token lx INCLUDE "#include"])
      else Some (lx, [])
    else if Ascii.eqb c DQUOTE then
      match handle_string lx with
      | None => None
      | Some (tok, lx) => Some (lx, [tok])
      end
    else if isdigit c then
      match handle_number (set_pos lx (m_current_pos lx - 1)) with
      | None => None
      | Some (tok, lx) => Some (lx, [tok])
      end
    else if isalpha c || Ascii.eqb c "_" then
      match handle_identifier (set_pos lx (m_current_pos lx - 1)) with
      | None => None
      | Some (tok, lx) => Some (lx, [tok])
      end
    else Some (lx, [])
  end.

(** One iteration of the [while] of [tokenize], entered when [!is_at_end()].
    The boolean tells whether the iteration left the loop by [break]. *)
Definition iteration (lx : t) : option (bool * t * list Token) :=
  match skip_whitespace_and_comments (fuel_of lx) lx with
  | None => None
  | Some lx =>
    if is_at_end lx then Some (true, lx, [])
    else
      let (c, lx) := advance lx in
      match dispatch c lx with
      | None => None
      | Some (lx, toks) => Some (false, lx, toks)
      end
  end.

(** The loop of [tokenize].  Every pushed token is stored through [note],
    which also sees the lexer at the time of the push: [tokenize] stores the
    token alone, [tokenize_at] pairs it with the cursor. *)
Fixpoint tokenize_loop {A : Type} (note : t -> Token -> A)
    (fuel : nat) (lx : t) (tokens : list A) : option (t * list A) :=
  if is_at_end lx then Some (lx, tokens) else
  match fuel with
  | 0 => None
  | S fuel' =>
    match iteration lx with
    | None => None
    | Some (brk, lx', toks) =>
      let tokens := tokens ++ map (note lx') toks in
      if brk then Some (lx', tokens)
      else tokenize_loop note fuel' lx' tokens
    end
  end.

Definition tokenize_with {A : Type} (note : t -> Token -> A) (lx : t)
  : option (list A) :=
  match tokenize_loop note (fuel_of lx) lx [] with
  | None => None
  | Some (lx, tokens) =>
    Some (tokens ++ [note lx (make_token lx END_OF_FILE EmptyString)])
  end.

(** [Lexer(source).tokenize()]. *)
Definition tokenize (source : string) : option (list Token) :=
  tokenize_with (fun _ tok => tok) (new source).

(** [tokenize], each token paired with the cursor [m_current_pos] at the
    time it is pushed, that is the index just past the token's last
    character. *)
Definition tokenize_at (source : string) : option (list (Token * nat)) :=
  tokenize_with (fun lx tok => (tok, m_current_pos lx)) (new source).

End Lexer.

(** ** The syntax tree ([parser.hpp])

    A [std::unique_ptr] that the code tests or hands on without looking
    inside is an [option]: the entries of a statement list and the expression
    of a [return].  The [body] of a function definition is dereferenced
    without a test by the code generator and is only ever built from the
    [std::make_unique] of [parse_block_statement], so it is a block. *)

Inductive ExprNode : Set :=
  | NumberLiteralNode (value : string).

Module Block.
Record t (Stmt : Type) : Type := mk { statements : list (option Stmt) }.
Arguments mk {Stmt} _.
Arguments statements {Stmt} _.
End Block.

#[local] Unset Elimination Schemes.
Inductive StmtNode : Type :=
  | BlockStmt (block : Block.t StmtNode)
  | ReturnStmtNode (expression : option ExprNode)
  | FunctionDefNode (return_type name : string) (body : Block.t StmtNode).

#[local] Set Elimination Schemes.

Definition BlockStmtNode : Type := Block.t StmtNode.

Record ProgramNode : Type := mkProgram
  { statements : list (option StmtNode) }.

(** ** The parser ([parser.cpp]) *)

Module Parser.

(** The fields of [class Parser], and the lines written to [std::cerr]. *)
Record t : Type := mk
  { m_tokens : list Token;
    m_current_pos : nat;
    cerr : list string }.

(** How a member function ends: it returns, it throws a
    [std::runtime_error], it reads [m_tokens] outside its bounds (undefined
    behaviour), or the model ran out of fuel. *)
Inductive Result (A : Type) : Type :=
  | Ok (a : A) (p : t)
  | Throw (what : string) (p : t)
  | OutOfBounds
  | OutOfFuel.
Arguments Ok {A} _ _.
Arguments Throw {A} _ _.
Arguments OutOfBounds {A}.
Arguments OutOfFuel {A}.

Definition M (A : Type) : Type := t -> Result A.

Definition ret {A} (a : A) : M A := fun p => Ok a p.

Definition bind {A B} (m : M A) (k : A -> M B) : M B :=
  fun p =>
    match m p with
    | Ok a p' => k a p'
    | Throw what p' => Throw what p'
    | OutOfBounds => OutOfBounds
    | OutOfFuel => OutOfFuel
    end.

Notation "x <- m ;; k" := (bind m (fun x => k))
  (at level 61, m at next level, right associativity).
Notation "m ;;; k" := (bind m (fun _ => k))
  (at level 61, right associativity).

Definition throw {A} (what : string) : M A := fun p => Throw what p.

(** [std::cerr << line << std::endl]. *)
Definition log (ln : string) : M unit :=
  fun p => Ok tt {| m_tokens := m_tokens p; m_current_pos := m_current_pos p;
                    cerr := cerr p ++ [ln] |}.

Definition get_pos : M nat := fun p => Ok (m_current_pos p) p.

Definition set_pos (i : nat) : M unit :=
  fun p => Ok tt {| m_tokens := m_tokens p; m_current_pos := i;
                    cerr := cerr p |}.

(** [m_tokens[i]]. *)
Definition token_at (i : nat) : M Token :=
  fun p =>
    match nth_error (m_tokens p) i with
    | Some tok => Ok tok p
    | None => OutOfBounds
    end.

Definition peek : M Token :=
  i <- get_pos ;; token_at i.

Definition is_at_end : M bool :=
  tok <- peek ;; ret (TokenType_eqb (type tok) END_OF_FILE).

(** [if (!is_at_end()) m_current_pos++; return m_tokens[m_current_pos - 1];]
    With the cursor at 0 the index is -1. *)
Definition advance : M Token :=
  e <- is_at_end ;;
  (if e then ret tt else (i <- get_pos ;; set_pos (S i))) ;;;
  i <- get_pos ;;
  match i with
  | 0 => fun _ => OutOfBounds
  | S j => token_at j
  end.

Definition check (ty : TokenType) : M bool :=
  e <- is_at_end ;;
  if e then ret false
  else tok <- peek ;; ret (TokenType_eqb (type tok) ty).

Definition expect (ty : TokenType) (error_message : string) : M Token :=
  b <- check ty ;;
  if b then advance else throw error_message.

Definition parse_expression : M (option ExprNode) :=
  b <- check NUMBER_LITERAL ;;
  if b then
    num <- advance ;;
    ret (Some (NumberLiteralNode (value num)))
  else throw "Expected an expression (e.g., a number).".

Definition parse_return_statement : M (option StmtNode) :=
  advance ;;;
  expr <- parse_expression ;;
  expect SEMICOLON "Expected ';' after return value." ;;;
  ret (Some (ReturnStmtNode expr)).

Definition parse_statement : M (option StmtNode) :=
  b <- check RETURN ;;
  if b then parse_return_statement
  else
    tok <- advance ;;
    log ("Parser Warning: Skipping unknown token in block: "
           ++ Token_to_string tok)%string ;;;
    ret None.

(** Fuel that is enough for a loop that starts at the cursor of [p]: the
    number of tokens from the cursor on. *)
Definition fuel_of (p : t) : nat := length (m_tokens p) - m_current_pos p.

(** The loop of [parse_block_statement]:
    [while (!check(CLOSE_BRACE) && !is_at_end()) { ... }] *)
Fixpoint block_loop (fuel : nat) (stmts : list (option StmtNode))
  : M (list (option StmtNode)) :=
  b <- check CLOSE_BRACE ;;
  go <- (if b then ret false else (e <- is_at_end ;; ret (negb e))) ;;
  if go then
    match fuel with
    | 0 => fun _ => OutOfFuel
    | S fuel' =>
      stmt <- parse_statement ;;
      block_loop fuel'
        (match stmt with
         | Some s => stmts ++ [Some s]
         | None => stmts
         end)
    end
  else ret stmts.

Definition parse_block_statement : M BlockStmtNode :=
  expect OPEN_BRACE "Expected '{' to begin a block." ;;;
  stmts <- (fun p => block_loop (fuel_of p) [] p) ;;
  expect CLOSE_BRACE "Expected '}' to end a block." ;;;
  ret (Block.mk stmts).

Definition parse_function_definition : M (option StmtNode) :=
  ty <- advance ;;
  name <- expect IDENTIFIER "Expected function name." ;;
  expect OPEN_PAREN "Expected '(' after function name." ;;;
  expect CLOSE_PAREN "Expected ')' after parameters." ;;;
  body <- parse_block_statement ;;
  ret (Some (FunctionDefNode (value ty) (value name) body)).

Definition parse_declaration : M (option StmtNode) :=
  b <- check INT ;;
  is_def <- (if b then
               i <- get_pos ;;
               next <- token_at (i + 1) ;;
               ret (TokenType_eqb (type next) IDENTIFIER)
             else ret false) ;;
  if is_def then parse_function_definition
  else
    tok <- advance ;;
    log ("Parser Warning: Skipping unknown top-level token: "
           ++ Token_to_string tok)%string ;;;
    ret None.

(** The loop of [parse]; the [catch] clause logs the message and leaves the
    loop. *)
Fixpoint parse_loop (fuel : nat) (program : ProgramNode) : M ProgramNode :=
  e <- is_at_end ;;
  if e then ret program
  else
    match fuel with
    | 0 => fun _ => OutOfFuel
    | S fuel' =>
      fun p =>
        match parse_declaration p with
        | Ok decl p' =>
          parse_loop fuel' (mkProgram (statements program ++ [decl])) p'
        | Throw what p' =>
          (log ("Parse Error: " ++ what)%string ;;; ret program) p'
        | OutOfBounds => OutOfBounds
        | OutOfFuel => OutOfFuel
        end
    end.

(** [Parser::Parser]. *)
Definition new (tokens : list Token) : t :=
  {| m_tokens := tokens; m_current_pos := 0; cerr := [] |}.

(** [Parser(tokens).parse()]. *)
Definition parse (tokens : list Token) : Result ProgramNode :=
  parse_loop (fuel_of (new tokens)) (mkProgram []) (new tokens).

End Parser.

(** ** The code generator ([codegen.cpp]) *)

Module CodeGenerator.

(** The fields of [class CodeGenerator], and the lines written to
    [std::cerr]. *)
Record t : Type := mk
  { m_ast : ProgramNode;
    m_output : string;
    cerr : list string }.

(** [CodeGenerator::CodeGenerator]: an empty [std::stringstream]. *)
Definition new (ast : ProgramNode) : t :=
  {| m_ast := ast; m_output := EmptyString; cerr := [] |}.

Definition endl : string := String LF EmptyString.

(** [m_output << text]. *)
Definition emit (text : string) (g : t) : t :=
  {| m_ast := m_ast g;
     m_output := (m_output g ++ text)%string;
     cerr := cerr g |}.

Definition warn (ln : string) (g : t) : t :=
  {| m_ast := m_ast g; m_output := m_output g; cerr := cerr g ++ [ln] |}.

(** [visit(NumberLiteralNode* )]. *)
Definition visit_NumberLiteralNode (value : string) (g : t) : t :=
  emit endl (emit value (emit "  mov rax, " g)).

(** [visit(ExprNode* )]; the [dynamic_cast] of a null pointer is null. *)
Definition visit_ExprNode (node : option ExprNode) (g : t) : t :=
  match node with
  | Some (NumberLiteralNode value) => visit_NumberLiteralNode value g
  | None => warn "CodeGen Warning: Unknown expression type!" g
  end.

(** The [for] loop over a statement list, given the statement visitor. *)
Definition visit_each (visit : StmtNode -> t -> t)
    (stmts : list (option StmtNode)) (g : t) : t :=
  fold_left
    (fun g stmt => match stmt with
                   | None => g
                   | Some node => visit node g
                   end)
    stmts g.

(** [visit(StmtNode* )] on a pointer that is not null, with the three
    visitors it dispatches to. *)
Fixpoint visit (node : StmtNode) (g : t) : t :=
  match node with
  | FunctionDefNode _ name body =>
    let g := emit (name ++ ":" ++ endl)%string g in
    let g := emit ("  push rbp" ++ endl)%string g in
    let g := emit ("  mov rbp, rsp" ++ endl)%string g in
    visit_each visit (Block.statements body) g
  | ReturnStmtNode expression =>
    let g := visit_ExprNode expression g in
    let g := emit ("  mov rsp, rbp" ++ endl)%string g in
    let g := emit ("  pop rbp" ++ endl)%string g in
    emit ("  ret" ++ endl)%string g
  | BlockStmt block =>
    visit_each visit (Block.statements block) g
  end.

(** [visit(StmtNode* )]: [if (!node) return;] *)
Definition visit_StmtNode (node : option StmtNode) (g : t) : t :=
  match node with
  | None => g
  | Some node => visit node g
  end.

(** [generate]: the text returned and the generator afterwards. *)
Definition generate (g : t) : string * t :=
  let g := emit ("global main" ++ endl)%string g in
  let g := emit ("section .text" ++ endl)%string g in
  let g := fold_left (fun g stmt => visit_StmtNode stmt g)
             (statements (m_ast g)) g in
  (m_output g, g).

End CodeGenerator.

(** ** The driver ([main.cpp]) *)

Module Main.

(** What [main] meets outside the program: the contents of the files that
    can be opened for reading, and whether [output.asm] can be opened for
    writing. *)
Record World : Type := mkWorld
  { file : string -> option string;
    writable : bool }.

(** What [main] leaves: its return value, the text written to [std::cout],
    the lines written to [std::cerr] by [main], [read_file], the parser and
    the code generator, and the text written to [output.asm] when the file
    was opened.  The two error lines of the lexer (unknown character,
    unterminated string) are left out here as they are in [Lexer]: they
    change neither the tokens nor anything [main] does. *)
Record Outcome : Type := mkOutcome
  { exit_code : nat;
    cout : string;
    cerr : list string;
    output_asm : option string }.

Definition endl : string := String LF EmptyString.

(** The bytes of the two signs that the messages of [main] start with. *)
Definition CROSS_MARK : string :=
  String "226" (String "157" (String "140" EmptyString)).
Definition CHECK_MARK : string :=
  String "226" (String "156" (String "133" EmptyString)).

(** [std::string::empty]. *)
Definition empty (s : string) : bool :=
  match s with
  | EmptyString => true
  | String _ _ => false
  end.

(** [read_file]: the string returned and the lines written to
    [std::cerr]. *)
Definition read_file (w : World) (filepath : string) : string * list string :=
  match file w filepath with
  | None =>
    (EmptyString,
     [(CROSS_MARK ++ " Error: Could not open file: " ++ filepath)%string])
  | Some contents => (contents, [])
  end.

(** [print_ast] on an expression: the lines written to [std::cout].  The
    [dynamic_cast] of a null pointer is null. *)
Definition print_ast_ExprNode (node : option ExprNode) (indent : string)
  : list string :=
  match node with
  | Some (NumberLiteralNode value) =>
    [(indent ++ "NumberLiteral(" ++ value ++ ")")%string]
  | None => [(indent ++ "Unknown ExprNode")%string]
  end.

(** The [for] loop of [print_ast] on a block, given the statement printer;
    a null entry is printed as such. *)
Definition print_each (print : StmtNode -> string -> list string)
    (stmts : list (option StmtNode)) (indent : string) : list string :=
  flat_map (fun stmt => match stmt with
                        | None => [(indent ++ "NullStatement")%string]
                        | Some node => print node indent
                        end) stmts.

(** [print_ast] on a block, given the statement printer. *)
Definition print_ast_BlockStmtNode (print : StmtNode -> string -> list string)
    (block : BlockStmtNode) (indent : string) : list string :=
  (indent ++ "BlockStmt:")%string
  :: print_each print (Block.statements block) (indent ++ "  ")%string.

(** [print_ast] on a statement that is not null. *)
Fixpoint print_ast (node : StmtNode) (indent : string) : list string :=
  match node with
  | FunctionDefNode return_type name body =>
    (indent ++ "FunctionDef(" ++ return_type ++ " " ++ name ++ ")")%string
    :: print_ast_BlockStmtNode print_ast body (indent ++ "  ")%string
  | ReturnStmtNode expression =>
    (indent ++ "ReturnStmt:")%string
    :: print_ast_ExprNode expression (indent ++ "  ")%string
  | BlockStmt block => print_ast_BlockStmtNode print_ast block indent
  end.

(** [print_ast] on a statement. *)
Definition print_ast_StmtNode (node : option StmtNode) (indent : string)
  : list string :=
  match node with
  | None => [(indent ++ "NullStatement")%string]
  | Some node => print_ast node indent
  end.

(** [main], [argv] being the list of its arguments, the name of the
    program first.  The result is [None] when the lexer runs out of fuel or
    the parser does not return. *)
Definition main (w : World) (argv : list string) : option Outcome :=
  match argv with
  | _ :: source_file :: _ =>
    let output_file := "output.asm" in
    let out := ("Compiling " ++ source_file ++ "..." ++ endl)%string in
    let (source_code, err) := read_file w source_file in
    if empty source_code then Some (mkOutcome 1 out err None)
    else
      let out := (out ++ "--- [Lexer] ---" ++ endl)%string in
      match Lexer.tokenize source_code with
      | None => None
      | Some tokens =>
        let out := (out ++ "--- [Parser] ---" ++ endl)%string in
        match Parser.parse tokens with
        | Parser.Ok ast p =>
          let err := err ++ Parser.cerr p in
          let out :=
            (out ++ endl ++ "--- [CodeGenerator] ---" ++ endl)%string in
          let (asm_code, g) :=
            CodeGenerator.generate (CodeGenerator.new ast) in
          let err := err ++ CodeGenerator.cerr g in
          let out :=
            (out ++ "Generated " ++ to_string_int (String.length asm_code)
               ++ " bytes of assembly." ++ endl)%string in
          if writable w then
            Some (mkOutcome 0
                    (out ++ endl ++ CHECK_MARK
                       ++ " Build finished. Assembly written to "
                       ++ output_file ++ endl
                       ++ "   Run 'nasm -f elf64 " ++ output_file
                       ++ "' to assemble." ++ endl)%string
                    err (Some asm_code))
          else
            Some (mkOutcome 1 out
                    (err ++ [(CROSS_MARK
                                ++ " Error: Could not open output file: "
                                ++ output_file)%string])
                    None)
        | _ => None
        end
      end
  | _ =>
    Some (mkOutcome 1 EmptyString ["Usage: bolt-compiler <source-file>"] None)
  end.

End Main.

(** ** Notions the properties are stated with *)

(** The number of newline characters in a piece of source text. *)
Definition count_newlines (l : list ascii) : nat :=
  length (filter (fun c => Ascii.eqb c LF) l).

(** The number of newline characters among the first [pos] characters of
    [source]. *)
Definition newlines_before (source : string) (pos : nat) : nat :=
  count_newlines (firstn pos (list_ascii_of_string source)).

(** The line counter agrees with the newlines that lie before the cursor. *)
Definition line_ok (lx : Lexer.t) : Prop :=
  Lexer.m_line lx
  = S (count_newlines (firstn (Lexer.m_current_pos lx) (Lexer.m_source lx))).

(** The characters an identifier is made of, and those it may start with. *)
Definition ident_char (c : ascii) : bool :=
  Lexer.isalnum c || Ascii.eqb c "_".

Definition ident_start (c : ascii) : bool :=
  Lexer.isalpha c || Ascii.eqb c "_".

(** The first character of [rest], if any, cannot continue an identifier. *)
Definition ident_stop (rest : list ascii) : Prop :=
  match rest with
  | [] => True
  | c :: _ => ident_char c = false
  end.

(** The lexer over the source [pre ++ run ++ rest], on line [ln], with the
    cursor [k] characters into [run]. *)
Definition in_run (pre run rest : list ascii) (ln k : nat) : Lexer.t :=
  Lexer.mk (pre ++ run ++ rest) (length pre + k) ln.

(** The kind the specification gives to an identifier run: the keyword kind
    when the text is exactly one of the four keywords, else identifier. *)
Definition spec_token_kind (text : string) : TokenType :=
  if string_dec text "int" then INT
  else if string_dec text "char" then CHAR
  else if string_dec text "return" then RETURN
  else if string_dec text "for" then FOR
  else IDENTIFIER.

Definition count_eof (toks : list Token) : nat :=
  length (filter (fun tok => TokenType_eqb (type tok) END_OF_FILE) toks).

Definition is_eof (tok : Token) : bool := TokenType_eqb (type tok) END_OF_FILE.

(** [lx'] comes after [lx] in a scan of the same source. *)
Definition follows (lx lx' : Lexer.t) : Prop :=
  Lexer.m_source lx' = Lexer.m_source lx
  /\ Lexer.m_current_pos lx <= Lexer.m_current_pos lx'.

(** What a handler guarantees about the token it returns and the lexer it
    leaves. *)
Definition handled (lx0 : Lexer.t) (tok : Token) (lx' : Lexer.t) : Prop :=
  follows lx0 lx'
  /\ line tok = Lexer.m_line lx'
  /\ (line_ok lx0 -> line_ok lx')
  /\ type tok <> INCLUDE
  /\ (is_eof tok = true ->
      Lexer.is_at_end lx' = true
      /\ tok = Lexer.make_token lx' END_OF_FILE "ERROR").

(** What an iteration that starts with lexer [lx0] guarantees about the
    tokens it pushes and the lexer [lx'] it leaves: at most one token, made
    on the line of [lx']; an end-of-stream token only as the sentinel of an
    unterminated string, with the cursor at the end; a right line counter
    unless the include branch was taken. *)
Definition pushed (lx0 lx' : Lexer.t) (toks : list Token) : Prop :=
  Forall (fun tok => line tok = Lexer.m_line lx') toks
  /\ (line_ok lx0 ->
      Forall (fun tok => type tok <> INCLUDE) toks -> line_ok lx')
  /\ (toks = []
      \/ (exists tok, toks = [tok] /\ is_eof tok = false)
      \/ (toks = [Lexer.make_token lx' END_OF_FILE "ERROR"]
          /\ Lexer.is_at_end lx' = true /\ In DQUOTE (Lexer.m_source lx'))).

(** The big-step view of the loop of [tokenize]: [run lx tr lx'] when the
    loop entered with lexer [lx] leaves with lexer [lx'] after pushing the
    tokens of [tr], each paired with the lexer at the time of its push. *)
Inductive run : Lexer.t -> list (Lexer.t * Token) -> Lexer.t -> Prop :=
  | run_end lx :
      Lexer.is_at_end lx = true ->
      run lx [] lx
  | run_step lx brk lx1 toks tr lx' :
      Lexer.is_at_end lx = false ->
      Lexer.iteration lx = Some (brk, lx1, toks) ->
      run lx1 tr lx' ->
      run lx (map (pair lx1) toks ++ tr) lx'.

(** A token vector that ends with an end-of-stream token. *)
Definition ends_with_eof (tokens : list Token) : Prop :=
  exists pre e, tokens = pre ++ [e] /\ type e = END_OF_FILE.

(** The cursor of the parser is inside such a vector. *)
Definition good (p : Parser.t) : Prop :=
  ends_with_eof (Parser.m_tokens p)
  /\ Parser.m_current_pos p < length (Parser.m_tokens p).

(** The token under the cursor exists and is not the end-of-stream token. *)
Definition live (p : Parser.t) : Prop :=
  exists tok,
    nth_error (Parser.m_tokens p) (Parser.m_current_pos p) = Some tok
    /\ type tok <> END_OF_FILE.

(** The parser with the cursor moved by one. *)
Definition next (p : Parser.t) : Parser.t :=
  {| Parser.m_tokens := Parser.m_tokens p;
     Parser.m_current_pos := S (Parser.m_current_pos p);
     Parser.cerr := Parser.cerr p |}.

(** [p'] is [p] after at least [n] tokens were consumed, the cursor still
    inside the vector. *)
Definition adv (n : nat) (p p' : Parser.t) : Prop :=
  Parser.m_tokens p' = Parser.m_tokens p
  /\ Parser.m_current_pos p + n <= Parser.m_current_pos p'
  /\ good p'.

(** A call that returns after consuming at least [n] tokens, or throws: it
    neither reads outside the vector nor runs out of fuel. *)
Definition safe {A : Type} (n : nat) (m : Parser.M A) (p : Parser.t) : Prop :=
  match m p with
  | Parser.Ok _ p' => adv n p p'
  | Parser.Throw _ _ => True
  | Parser.OutOfBounds | Parser.OutOfFuel => False
  end.

(** Every value a call can return satisfies [Q]. *)
Definition ensures {A : Type} (m : Parser.M A) (Q : A -> Prop) : Prop :=
  forall p a p', m p = Parser.Ok a p' -> Q a.

(** The statements [parse_statement] builds. *)
Definition is_return (stmt : option StmtNode) : Prop :=
  exists v, stmt = Some (ReturnStmtNode (Some (NumberLiteralNode v))).

(** The declarations [parse_declaration] builds. *)
Definition is_declaration (decl : option StmtNode) : Prop :=
  decl = None
  \/ exists ty name body,
       decl = Some (FunctionDefNode ty name body)
       /\ Forall is_return (Block.statements body).

(** Every [return] in the statement has an expression. *)
Fixpoint returns_have_expression (node : StmtNode) : bool :=
  match node with
  | ReturnStmtNode expression =>
    match expression with Some _ => true | None => false end
  | FunctionDefNode _ _ body =>
    forallb (fun stmt => match stmt with
                         | Some s => returns_have_expression s
                         | None => true
                         end) (Block.statements body)
  | BlockStmt block =>
    forallb (fun stmt => match stmt with
                         | Some s => returns_have_expression s
                         | None => true
                         end) (Block.statements block)
  end.

(** No block in the statement has a null entry. *)
Fixpoint blocks_have_no_null (node : StmtNode) : bool :=
  match node with
  | ReturnStmtNode _ => true
  | FunctionDefNode _ _ body =>
    forallb (fun stmt => match stmt with
                         | Some s => blocks_have_no_null s
                         | None => false
                         end) (Block.statements body)
  | BlockStmt block =>
    forallb (fun stmt => match stmt with
                         | Some s => blocks_have_no_null s
                         | None => false
                         end) (Block.statements block)
  end.

(** A property of the statement under a pointer that may be null. *)
Definition if_present (P : StmtNode -> bool) (stmt : option StmtNode) : Prop :=
  match stmt with
  | Some s => P s = true
  | None => True
  end.

(** The parser [p] seen from a vector with one more token [t] in front and
    the lines [w] already written to the diagnostics. *)
Definition shift (t : Token) (w : list string) (p : Parser.t) : Parser.t :=
  {| Parser.m_tokens := t :: Parser.m_tokens p;
     Parser.m_current_pos := S (Parser.m_current_pos p);
     Parser.cerr := w ++ Parser.cerr p |}.

Definition shift_result {A : Type} (t : Token) (w : list string)
    (r : Parser.Result A) : Parser.Result A :=
  match r with
  | Parser.Ok a p => Parser.Ok a (shift t w p)
  | Parser.Throw what p => Parser.Throw what (shift t w p)
  | Parser.OutOfBounds => Parser.OutOfBounds
  | Parser.OutOfFuel => Parser.OutOfFuel
  end.

(** The call [m] does not depend on what lies before the cursor. *)
Definition shifts {A : Type} (t : Token) (w : list string)
    (m : Parser.M A) (p : Parser.t) : Prop :=
  m (shift t w p) = shift_result t w (m p).

Definition map_result {A B : Type} (f : A -> B) (r : Parser.Result A)
  : Parser.Result B :=
  match r with
  | Parser.Ok a p => Parser.Ok (f a) p
  | Parser.Throw what p => Parser.Throw what p
  | Parser.OutOfBounds => Parser.OutOfBounds
  | Parser.OutOfFuel => Parser.OutOfFuel
  end.

(** The line [parse_declaration] writes when it skips the token [t]. *)
Definition top_level_warning (t : Token) : string :=
  ("Parser Warning: Skipping unknown top-level token: "
     ++ Token_to_string t)%string.

(** The function [f] on generators appends the text [s] to the output
    buffer and keeps the tree. *)
Definition appends (f : CodeGenerator.t -> CodeGenerator.t) (s : string)
  : Prop :=
  forall g,
    CodeGenerator.m_output (f g) = (CodeGenerator.m_output g ++ s)%string
    /\ CodeGenerator.m_ast (f g) = CodeGenerator.m_ast g.

(** The text made of the given lines, each ended by a newline. *)
Fixpoint lines (l : list string) : string :=
  match l with
  | [] => EmptyString
  | ln :: l' => (ln ++ CodeGenerator.endl ++ lines l')%string
  end.

(** ** Notions for the further properties *)

(** The strings of a list, one after the other. *)
Definition flatten (l : list string) : string :=
  fold_right String.append EmptyString l.

(** The emission rules of the code generator, as a function of the tree:
    the text of one statement. *)
Fixpoint asm_of (node : StmtNode) : string :=
  match node with
  | FunctionDefNode _ name body =>
    (lines [(name ++ ":")%string; "  push rbp"; "  mov rbp, rsp"]
     ++ flatten (map (fun stmt => match stmt with
                                  | Some s => asm_of s
                                  | None => EmptyString
                                  end) (Block.statements body)))%string
  | ReturnStmtNode expression =>
    (match expression with
     | Some (NumberLiteralNode value) => lines [("  mov rax, " ++ value)%string]
     | None => EmptyString
     end
     ++ lines ["  mov rsp, rbp"; "  pop rbp"; "  ret"])%string
  | BlockStmt block =>
    flatten (map (fun stmt => match stmt with
                              | Some s => asm_of s
                              | None => EmptyString
                              end) (Block.statements block))
  end.

(** The text of an entry of a statement list: nothing for a null entry. *)
Definition asm_of_entry (stmt : option StmtNode) : string :=
  match stmt with
  | Some s => asm_of s
  | None => EmptyString
  end.

(** A text that is empty or ends with a newline. *)
Definition newline_closed (s : string) : Prop :=
  s = EmptyString \/ exists s', s = (s' ++ CodeGenerator.endl)%string.

(** The line counter is not ahead of the newlines that lie before the
    cursor. *)
Definition line_le (lx : Lexer.t) : Prop :=
  Lexer.m_line lx
  <= S (count_newlines (firstn (Lexer.m_current_pos lx) (Lexer.m_source lx))).

(** The characters of the source from index [start] up to the cursor. *)
Definition segment (lx : Lexer.t) (start : nat) : list ascii :=
  firstn (Lexer.m_current_pos lx - start) (skipn start (Lexer.m_source lx)).

(** [lx] comes after [lx0] by a scan over characters that satisfy [P]. *)
Definition scanned (P : ascii -> bool) (lx0 lx : Lexer.t) : Prop :=
  follows lx0 lx
  /\ Lexer.m_line lx0 <= Lexer.m_line lx
  /\ (line_le lx0 -> line_le lx)
  /\ forallb P (segment lx (Lexer.m_current_pos lx0)) = true.

(** What any piece of the lexer keeps between the lexer it is entered with
    and the one it leaves. *)
Definition stepped (lx0 lx : Lexer.t) : Prop :=
  Lexer.m_source lx = Lexer.m_source lx0
  /\ Lexer.m_line lx0 <= Lexer.m_line lx
  /\ (line_le lx0 -> line_le lx).

(** The text of a token fits its kind: a keyword kind has the text of that
    keyword; an identifier is a letter or underscore followed by letters,
    digits and underscores, and is no keyword; a number is a non-empty run
    of digits; a string holds no double quote; the include kind has the
    text of the directive; the end-of-stream kind has the empty text or
    the text of the sentinel; a punctuation kind has its one character.
    No text fits the slash kind. *)
Definition token_ok (tok : Token) : bool :=
  let chars := list_ascii_of_string (value tok) in
  match type tok with
  | INT | CHAR | RETURN | FOR =>
    TokenType_eqb (spec_token_kind (value tok)) (type tok)
  | IDENTIFIER =>
    match chars with
    | [] => false
    | c :: _ =>
      ident_start c && forallb ident_char chars
      && TokenType_eqb (spec_token_kind (value tok)) IDENTIFIER
    end
  | NUMBER_LITERAL =>
    match chars with
    | [] => false
    | _ :: _ => forallb Lexer.isdigit chars
    end
  | STRING_LITERAL => forallb (fun c => negb (Ascii.eqb c DQUOTE)) chars
  | INCLUDE => String.eqb (value tok) "#include"
  | END_OF_FILE =>
    String.eqb (value tok) EmptyString || String.eqb (value tok) "ERROR"
  | SLASH => false
  | ty =>
    match chars with
    | [c] =>
      match Lexer.single_char c with
      | Some ty' => TokenType_eqb ty' ty
      | None => false
      end
    | _ => false
    end
  end.

(** The part of the source from the cursor on. *)
Definition unread (lx : Lexer.t) : list ascii :=
  skipn (Lexer.m_current_pos lx) (Lexer.m_source lx).

(** The lexer with the cursor moved by [n] characters and the line counter
    by [newlines]. *)
Definition moved (lx : Lexer.t) (n newlines : nat) : Lexer.t :=
  Lexer.mk (Lexer.m_source lx) (Lexer.m_current_pos lx + n)
    (Lexer.m_line lx + newlines).

(** The characters [skip_whitespace_and_comments] steps over one by one. *)
Definition is_blank (c : ascii) : bool :=
  Ascii.eqb c " " || Ascii.eqb c CR || Ascii.eqb c TAB || Ascii.eqb c LF.

(** The first character of [l], NUL when there is none: what [peek] reads
    when [l] is the unread part of the source. *)
Definition first_char (l : list ascii) : ascii := hd NUL l.

(** A character for which the [switch] of [tokenize] has no case and that
    is neither a digit nor a letter nor an underscore. *)
Definition is_unknown (c : ascii) : bool :=
  match Lexer.single_char c with
  | Some _ => false
  | None =>
    negb (Ascii.eqb c "#") && negb (Ascii.eqb c DQUOTE)
    && negb (Lexer.isdigit c) && negb (ident_start c)
  end.

(** Where [skip_whitespace_and_comments] stops: at the end of the source,
    or before a character that is no blank and does not start a comment. *)
Definition stops (l : list ascii) : Prop :=
  match l with
  | [] => True
  | c :: r => is_blank c = false /\ (c = "/"%char -> first_char r <> "/"%char)
  end.

(** ** Notions for the grammar the parser accepts *)

(** The tokens from the cursor of the parser on. *)
Definition ahead (p : Parser.t) : list Token :=
  skipn (Parser.m_current_pos p) (Parser.m_tokens p).

(** The parser after [n] more tokens were consumed and the lines [w] were
    written to the diagnostics. *)
Definition fwd (p : Parser.t) (n : nat) (w : list string) : Parser.t :=
  {| Parser.m_tokens := Parser.m_tokens p;
     Parser.m_current_pos := Parser.m_current_pos p + n;
     Parser.cerr := Parser.cerr p ++ w |}.

(** The line [parse_statement] writes when it skips the token [t]. *)
Definition block_warning (t : Token) : string :=
  ("Parser Warning: Skipping unknown token in block: "
     ++ Token_to_string t)%string.

(** What can stand between the braces of a block that [parse_block_statement]
    reads to its end: a [return] with a number and a semicolon, or a token
    that [parse_statement] skips. *)
Inductive Item : Type :=
  | ReturnItem (kw num semi : Token)
  | SkippedItem (tok : Token).

Definition item_ok (it : Item) : Prop :=
  match it with
  | ReturnItem kw num semi =>
    type kw = RETURN /\ type num = NUMBER_LITERAL /\ type semi = SEMICOLON
  | SkippedItem tok =>
    type tok <> RETURN /\ type tok <> CLOSE_BRACE /\ type tok <> END_OF_FILE
  end.

Definition item_tokens (it : Item) : list Token :=
  match it with
  | ReturnItem kw num semi => [kw; num; semi]
  | SkippedItem tok => [tok]
  end.

(** The entries the item adds to the statement list of the block. *)
Definition item_stmts (it : Item) : list (option StmtNode) :=
  match it with
  | ReturnItem _ num _ =>
    [Some (ReturnStmtNode (Some (NumberLiteralNode (value num))))]
  | SkippedItem _ => []
  end.

(** The lines the item adds to the diagnostics. *)
Definition item_warnings (it : Item) : list string :=
  match it with
  | ReturnItem _ _ _ => []
  | SkippedItem tok => [block_warning tok]
  end.

(** The tokens of a function definition: return type, name, parentheses,
    and a block of the given items. *)
Definition function_tokens (ty name lp rp lb : Token) (items : list Item)
    (rb : Token) : list Token :=
  ty :: name :: lp :: rp :: lb :: concat (map item_tokens items) ++ [rb].

(** A warning line of the parser. *)
Definition is_warning (ln : string) : Prop :=
  exists t, ln = top_level_warning t \/ ln = block_warning t.

(** The messages of the syntax errors [parse] reports. *)
Definition error_messages : list string :=
  ["Expected '(' after function name.";
   "Expected ')' after parameters.";
   "Expected '{' to begin a block.";
   "Expected '}' to end a block.";
   "Expected an expression (e.g., a number).";
   "Expected ';' after return value."].

(** The diagnostics [w] written by a call: warnings only. *)
Definition wrote (p p' : Parser.t) : Prop :=
  exists w, Parser.cerr p' = Parser.cerr p ++ w /\ Forall is_warning w.

(** The call [m] entered with [p] writes warnings only, and throws no
    other message than those of [error_messages]. *)
Definition says {A : Type} (m : Parser.M A) (p : Parser.t) : Prop :=
  match m p with
  | Parser.Ok _ p' => wrote p p'
  | Parser.Throw what p' => wrote p p' /\ In what error_messages
  | Parser.OutOfBounds | Parser.OutOfFuel => True
  end.

(** A call that writes nothing and does not throw. *)
Definition quiet {A : Type} (m : Parser.M A) (p : Parser.t) : Prop :=
  match m p with
  | Parser.Ok _ p' => Parser.cerr p' = Parser.cerr p
  | Parser.Throw _ _ => False
  | Parser.OutOfBounds | Parser.OutOfFuel => True
  end.

(** ** Notions for the source texts the lexer reads back *)

(** The punctuation characters and the kinds of their tokens, as the
    specification lists them. *)
Definition spec_punctuation : list (ascii * TokenType) :=
  [(";"%char, SEMICOLON); ("("%char, OPEN_PAREN); (")"%char, CLOSE_PAREN);
   ("{"%char, OPEN_BRACE); ("}"%char, CLOSE_BRACE);
   ("<"%char, OPEN_ANGLE); (">"%char, CLOSE_ANGLE); ("="%char, EQUALS);
   ("+"%char, PLUS); ("-"%char, MINUS); ("*"%char, STAR)].

(** The pieces a source text is read as by the loop of [tokenize]: a blank
    character, a line comment, a character that is dropped, a word (an
    identifier or a keyword), a number, a punctuation character, a closed
    string literal, and the include directive, which is a hash sign, the
    letter i and the five characters the cursor jumps over. *)
Inductive Piece : Type :=
  | Blank (c : ascii)
  | Comment (body : list ascii)
  | Dropped (c : ascii)
  | Word (c : ascii) (run : list ascii)
  | Number (c : ascii) (run : list ascii)
  | Punctuation (c : ascii) (ty : TokenType)
  | Literal (content : list ascii)
  | Directive (five : list ascii).

Definition piece_text (x : Piece) : list ascii :=
  match x with
  | Blank c => [c]
  | Comment body => "/"%char :: "/"%char :: body
  | Dropped c => [c]
  | Word c run => c :: run
  | Number c run => c :: run
  | Punctuation c _ => [c]
  | Literal content => DQUOTE :: content ++ [DQUOTE]
  | Directive five => "#"%char :: "i"%char :: five
  end.

(** The newlines the line counter is increased by over the piece. *)
Definition piece_newlines (x : Piece) : nat :=
  match x with
  | Blank c => count_newlines [c]
  | Literal content => count_newlines content
  | _ => 0
  end.

(** The tokens the piece gives, [ln] being the line counter after it. *)
Definition piece_tokens (x : Piece) (ln : nat) : list Token :=
  match x with
  | Blank _ | Comment _ | Dropped _ => []
  | Word c run =>
    [mkToken (spec_token_kind (string_of_list_ascii (c :: run)))
       (string_of_list_ascii (c :: run)) ln]
  | Number c run =>
    [mkToken NUMBER_LITERAL (string_of_list_ascii (c :: run)) ln]
  | Punctuation c ty => [mkToken ty (String c EmptyString) ln]
  | Literal content =>
    [mkToken STRING_LITERAL (string_of_list_ascii content) ln]
  | Directive _ => [mkToken INCLUDE "#include" ln]
  end.

(** The piece is well formed and ends where the text [rest] that follows
    it begins: a word is not followed by a letter, a digit or an
    underscore, a number not by a digit, a comment runs to the end of its
    line. *)
Definition piece_ok (x : Piece) (rest : list ascii) : Prop :=
  match x with
  | Blank c => is_blank c = true
  | Comment body =>
    Forall (fun c => c <> LF) body /\ (rest = [] \/ first_char rest = LF)
  | Dropped c =>
    is_blank c = false
    /\ ((is_unknown c = true /\ (c = "/"%char -> first_char rest <> "/"%char))
        \/ (c = "#"%char /\ first_char rest <> "i"%char))
  | Word c run =>
    ident_start c = true
    /\ Forall (fun x => ident_char x = true) run
    /\ ident_char (first_char rest) = false
  | Number c run =>
    Forall (fun x => Lexer.isdigit x = true) (c :: run)
    /\ Lexer.isdigit (first_char rest) = false
  | Punctuation c ty => In (c, ty) spec_punctuation
  | Literal content => Forall (fun c => c <> DQUOTE) content
  | Directive five => length five = 5
  end.

(** The text of a sequence of pieces. *)
Fixpoint render (pieces : list Piece) : list ascii :=
  match pieces with
  | [] => []
  | x :: pieces' => piece_text x ++ render pieces'
  end.

Fixpoint pieces_ok (pieces : list Piece) : Prop :=
  match pieces with
  | [] => True
  | x :: pieces' => piece_ok x (render pieces') /\ pieces_ok pieces'
  end.

(** The tokens of a sequence of pieces read with the line counter at
    [ln]. *)
Fixpoint tokens_from (ln : nat) (pieces : list Piece) : list Token :=
  match pieces with
  | [] => []
  | x :: pieces' =>
    piece_tokens x (ln + piece_newlines x)
    ++ tokens_from (ln + piece_newlines x) pieces'
  end.

Definition newlines_of (pieces : list Piece) : nat :=
  list_sum (map piece_newlines pieces).

(** The pieces that give no token. *)
Definition is_gap (x : Piece) : bool :=
  match x with
  | Blank _ | Comment _ | Dropped _ => true
  | _ => false
  end.

(** ** Notions for whole sources *)

(** The cursor and the line counter of the lexer are C++ [int]s.  The
    largest [int], and the sources short enough for them: the cursor goes at
    most five past the end of the source (by the jump after a hash sign and
    [i]), and the line counter at most to one more than the number of
    characters. *)
Definition INT_MAX : N := 2147483647%N.

Definition fits_int (source : list ascii) : Prop :=
  (N.of_nat (length source) + 5 <= INT_MAX)%N.

(** Where a reading of the source from left to right stands, in the words
    of the specification: in code; in a line comment, which runs to the end
    of the line; in a string literal, which runs to the next double quote;
    among the six characters discarded after a hash sign followed by [i]
    ([InJump k] when [k] more are discarded after the next one). *)
Inductive Mode : Set :=
  | InCode
  | InComment
  | InString
  | InJump (k : nat).

Fixpoint mode_after (m : Mode) (l : list ascii) : Mode :=
  match l with
  | [] => m
  | c :: r =>
    match m with
    | InCode =>
      if Ascii.eqb c DQUOTE then mode_after InString r
      else if Ascii.eqb c "/" && Ascii.eqb (first_char r) "/"
      then mode_after InComment r
      else if Ascii.eqb c "#" && Ascii.eqb (first_char r) "i"
      then mode_after (InJump 5) r
      else mode_after InCode r
    | InComment => mode_after (if Ascii.eqb c LF then InCode else InComment) r
    | InString =>
      mode_after (if Ascii.eqb c DQUOTE then InCode else InString) r
    | InJump 0 => mode_after InCode r
    | InJump (S k) => mode_after (InJump k) r
    end
  end.

(** The source ends inside a string literal: its last double quote that
    opens a literal is not followed by a closing one. *)
Definition ends_in_string (source : list ascii) : bool :=
  match mode_after InCode source with
  | InString => true
  | _ => false
  end.

(** The newline characters that the jumps after a hash sign and [i] have
    passed: for each include token of [toks], those among the six characters
    before the cursor at which the token was made. *)
Definition jumped_newlines (source : string) (toks : list (Token * nat))
  : nat :=
  list_sum
    (map (fun x =>
            if TokenType_eqb (type (fst x)) INCLUDE
            then count_newlines
                   (firstn 6 (skipn (snd x - 6) (list_ascii_of_string source)))
            else 0)
         toks).

(** What a source can end with after its last piece: nothing, a string
    literal that is not closed, or a hash sign and [i] with fewer than five
    characters left for the jump. *)
Inductive Tail : Type :=
  | EndOfSource
  | OpenLiteral (content : list ascii)
  | CutDirective (short : list ascii).

Definition tail_text (t : Tail) : list ascii :=
  match t with
  | EndOfSource => []
  | OpenLiteral content => DQUOTE :: content
  | CutDirective short => "#"%char :: "i"%char :: short
  end.

Definition tail_ok (t : Tail) : Prop :=
  match t with
  | EndOfSource => True
  | OpenLiteral content => Forall (fun c => c <> DQUOTE) content
  | CutDirective short => length short < 5
  end.

(** What the cursor and the line counter are moved by over the tail. *)
Definition tail_moves (t : Tail) : nat :=
  match t with
  | EndOfSource => 0
  | OpenLiteral content => length content + 1
  | CutDirective _ => 7
  end.

Definition tail_newlines (t : Tail) : nat :=
  match t with
  | OpenLiteral content => count_newlines content
  | _ => 0
  end.

(** The tokens the tail gives, [ln] being the line counter after it. *)
Definition tail_tokens (t : Tail) (ln : nat) : list Token :=
  match t with
  | EndOfSource => []
  | OpenLiteral _ => [mkToken END_OF_FILE "ERROR" ln]
  | CutDirective _ => [mkToken INCLUDE "#include" ln]
  end.

(** [pieces_ok] for pieces that are followed by the text [tail]. *)
Fixpoint pieces_before (tail : list ascii) (pieces : list Piece) : Prop :=
  match pieces with
  | [] => True
  | x :: pieces' =>
    piece_ok x (render pieces' ++ tail) /\ pieces_before tail pieces'
  end.

(** The newline characters of the piece that the line counter misses:
    those among the five characters of a directive. *)
Definition jump_newlines (x : Piece) : nat :=
  match x with
  | Directive five => count_newlines five
  | _ => 0
  end.

(** The tokens of pieces and tail read from the lexer [lx], each with the
    lexer at the time of its push. *)
Fixpoint trace_from (lx : Lexer.t) (pieces : list Piece) (t : Tail)
  : list (Lexer.t * Token) :=
  match pieces with
  | [] =>
    let lx1 := moved lx (tail_moves t) (tail_newlines t) in
    map (pair lx1) (tail_tokens t (Lexer.m_line lx1))
  | x :: pieces' =>
    let lx1 := moved lx (length (piece_text x)) (piece_newlines x) in
    map (pair lx1) (piece_tokens x (Lexer.m_line lx1))
    ++ trace_from lx1 pieces' t
  end.

(** The lexer after pieces and tail. *)
Fixpoint lexer_after (lx : Lexer.t) (pieces : list Piece) (t : Tail)
  : Lexer.t :=
  match pieces with
  | [] => moved lx (tail_moves t) (tail_newlines t)
  | x :: pieces' =>
    lexer_after (moved lx (length (piece_text x)) (piece_newlines x))
      pieces' t
  end.

(** ** Notions for the whole compiler *)

(** The kind and the text of a token, without its line. *)
Definition kind_and_text (tok : Token) : TokenType * string :=
  (type tok, value tok).

(** The pieces that give tokens in the source of a function that returns a
    number: [int], the name, the parentheses, and between braces [return],
    the digits and a semicolon. *)
Definition return_function (c : ascii) (run : list ascii)
    (d : ascii) (ds : list ascii) : list Piece :=
  [Word "i" ["n"; "t"]%char; Word c run;
   Punctuation "(" OPEN_PAREN; Punctuation ")" CLOSE_PAREN;
   Punctuation "{" OPEN_BRACE;
   Word "r" ["e"; "t"; "u"; "r"; "n"]%char; Number d ds;
   Punctuation ";" SEMICOLON; Punctuation "}" CLOSE_BRACE].

(** The line [ln] starts with the text [indent]. *)
Definition starts_with (indent ln : string) : Prop :=
  exists s, ln = (indent ++ s)%string.

(** The lines of the tokens of [toks], each with the cursor at which it
    was made, are right up to the newlines that the jumps have passed, [J]
    of them before [toks]. *)
Fixpoint lines_exact (source : string) (J : nat) (toks : list (Token * nat))
  : Prop :=
  match toks with
  | [] => True
  | x :: toks' =>
    let J' := J + jumped_newlines source [x] in
    line (fst x) + J' = newlines_before source (snd x) + 1
    /\ lines_exact source J' toks'
  end.

(** * Properties of the lexer *)

Module LexerFacts.
Import Lexer.

(** ** Cursor and line counter *)

Lemma is_at_end_false lx :
  is_at_end lx = false <-> m_current_pos lx < length (m_source lx).
Proof. unfold is_at_end. apply Nat.leb_gt. Qed.

Lemma is_at_end_true lx :
  is_at_end lx = true <-> length (m_source lx) <= m_current_pos lx.
Proof. unfold is_at_end. apply Nat.leb_le. Qed.

Lemma peek_live lx :
  is_at_end lx = false -> peek lx = char_at lx (m_current_pos lx).
Proof. unfold peek. now intros ->. Qed.

Lemma peek_end lx : is_at_end lx = true -> peek lx = NUL.
Proof. unfold peek. now intros ->. Qed.

Lemma count_newlines_app l1 l2 :
  count_newlines (l1 ++ l2) = count_newlines l1 + count_newlines l2.
Proof. unfold count_newlines. now rewrite filter_app, length_app. Qed.

Lemma firstn_snoc (l : list ascii) n :
  n < length l -> firstn (S n) l = firstn n l ++ [nth n l NUL].
Proof.
  revert n. induction l as [|c l IH]; intros n Hn; simpl in Hn; [lia|].
  destruct n as [|n]; [reflexivity|].
  change (firstn (S (S n)) (c :: l)) with (c :: firstn (S n) l).
  rewrite IH by lia. reflexivity.
Qed.

Lemma line_ok_advance lx :
  is_at_end lx = false -> peek lx <> LF -> line_ok lx ->
  line_ok (snd (advance lx)).
Proof.
  intros He Hc Hl. rewrite (peek_live _ He) in Hc.
  apply is_at_end_false in He. unfold line_ok in *.
  cbn [advance snd set_pos m_current_pos m_source m_line].
  rewrite firstn_snoc, count_newlines_app by assumption.
  unfold char_at in Hc. unfold count_newlines at 2. simpl.
  apply Ascii.eqb_neq in Hc. rewrite Hc. simpl. lia.
Qed.

Lemma line_ok_advance_LF lx :
  is_at_end lx = false -> peek lx = LF -> line_ok lx ->
  line_ok (snd (advance (incr_line lx))).
Proof.
  intros He Hc Hl. rewrite (peek_live _ He) in Hc.
  apply is_at_end_false in He. unfold line_ok in *.
  cbn [advance incr_line snd set_pos m_current_pos m_source m_line].
  rewrite firstn_snoc, count_newlines_app by assumption.
  unfold char_at in Hc. unfold count_newlines at 2. simpl.
  rewrite Hc. simpl. lia.
Qed.

Lemma follows_refl lx : follows lx lx.
Proof. split; [reflexivity | lia]. Qed.

Lemma follows_trans lx1 lx2 lx3 :
  follows lx1 lx2 -> follows lx2 lx3 -> follows lx1 lx3.
Proof. unfold follows. intros [-> ?] [-> ?]. split; [reflexivity | lia]. Qed.

(** ** The rule for [while] loops

    An invariant that every iteration keeps holds when the loop is left,
    and the fuel is enough as soon as it covers the unread characters,
    provided an iteration is only entered before the end of the source and
    moves the cursor by one. *)
Lemma while_rule (I : t -> Prop) (cond : t -> bool) (body : t -> t) :
  (forall lx, I lx -> cond lx = true ->
     is_at_end lx = false /\ I (body lx)
     /\ m_source (body lx) = m_source lx
     /\ m_current_pos (body lx) = S (m_current_pos lx)) ->
  forall fuel lx,
    I lx -> length (m_source lx) <= m_current_pos lx + fuel ->
    exists lx',
      while_ cond body fuel lx = Some lx' /\ I lx' /\ cond lx' = false.
Proof.
  intros Hbody. induction fuel as [|fuel IH]; intros lx HI Hfuel; simpl;
    destruct (cond lx) eqn:Hc; eauto.
  - destruct (Hbody lx HI Hc) as (He & _). apply is_at_end_false in He. lia.
  - destruct (Hbody lx HI Hc) as (He & HI' & Hs & Hp).
    apply IH; [assumption|]. rewrite Hs, Hp. lia.
Qed.

Lemma while_unfold cond body fuel lx :
  cond lx = true ->
  while_ cond body (S fuel) lx = while_ cond body fuel (body lx).
Proof. simpl. now intros ->. Qed.

(** The loops whose body is a bare [advance()] and that stop before a
    newline: they keep the line counter, and keep it right. *)
Lemma scan_spec (cond : t -> bool) :
  (forall lx, cond lx = true -> is_at_end lx = false /\ peek lx <> LF) ->
  forall fuel lx0,
    length (m_source lx0) <= m_current_pos lx0 + fuel ->
    exists lx',
      while_ cond (fun lx => snd (advance lx)) fuel lx0 = Some lx'
      /\ follows lx0 lx' /\ m_line lx' = m_line lx0
      /\ (line_ok lx0 -> line_ok lx') /\ cond lx' = false.
Proof.
  intros Hc fuel lx0 Hfuel.
  destruct (while_rule
              (fun lx => follows lx0 lx /\ m_line lx = m_line lx0
                         /\ (line_ok lx0 -> line_ok lx))
              cond (fun lx => snd (advance lx))) with (fuel := fuel) (lx := lx0)
    as (lx' & Hrun & (Hf & Hl & Hok) & Hstop).
  - intros lx (Hf & Hl & Hok) Hcond. destruct (Hc lx Hcond) as (He & Hnl).
    repeat split; simpl; try tauto.
    + apply Hf.
    + destruct Hf. lia.
    + intros H. apply line_ok_advance; auto.
  - split; [apply follows_refl | tauto].
  - assumption.
  - exists lx'. tauto.
Qed.

(** The same loops move the cursor when they are entered with a true
    condition. *)
Lemma scan_progress (cond : t -> bool) :
  (forall lx, cond lx = true -> is_at_end lx = false /\ peek lx <> LF) ->
  forall lx0,
    cond lx0 = true ->
    exists lx',
      while_ cond (fun lx => snd (advance lx)) (fuel_of lx0) lx0 = Some lx'
      /\ m_source lx' = m_source lx0
      /\ m_current_pos lx0 < m_current_pos lx'
      /\ m_line lx' = m_line lx0
      /\ (line_ok lx0 -> line_ok lx') /\ cond lx' = false.
Proof.
  intros Hc lx0 Hcond. unfold fuel_of. rewrite while_unfold by assumption.
  destruct (Hc lx0 Hcond) as (He & Hnl).
  destruct (scan_spec cond Hc (length (m_source lx0)) (snd (advance lx0)))
    as (lx' & Hrun & (Hs & Hp) & Hl & Hok & Hstop).
  - simpl. lia.
  - exists lx'. simpl in *. repeat split; auto; try lia.
    intros H. apply Hok. apply line_ok_advance; auto.
Qed.

Lemma isdigit_not_LF c : isdigit c = true -> c <> LF.
Proof. intros H ->. discriminate H. Qed.

Lemma isdigit_not_NUL c : isdigit c = true -> c <> NUL.
Proof. intros H ->. discriminate H. Qed.

Lemma ident_char_not_LF c : ident_char c = true -> c <> LF.
Proof. intros H ->. discriminate H. Qed.

Lemma ident_char_not_NUL c : ident_char c = true -> c <> NUL.
Proof. intros H ->. discriminate H. Qed.

Lemma peek_not_NUL lx : peek lx <> NUL -> is_at_end lx = false.
Proof.
  intros H. destruct (is_at_end lx) eqn:He; [|reflexivity].
  now rewrite peek_end in H.
Qed.

Lemma number_cond lx :
  isdigit (peek lx) = true -> is_at_end lx = false /\ peek lx <> LF.
Proof.
  intros H. split; [apply peek_not_NUL, isdigit_not_NUL | apply isdigit_not_LF];
    assumption.
Qed.

Lemma identifier_cond lx :
  isalnum (peek lx) || Ascii.eqb (peek lx) "_" = true ->
  is_at_end lx = false /\ peek lx <> LF.
Proof.
  intros H.
  split; [apply peek_not_NUL, ident_char_not_NUL | apply ident_char_not_LF];
    assumption.
Qed.

Lemma comment_cond lx :
  negb (Ascii.eqb (peek lx) LF) && negb (is_at_end lx) = true ->
  is_at_end lx = false /\ peek lx <> LF.
Proof.
  intros H. apply andb_prop in H. destruct H as [H1 H2].
  apply negb_true_iff in H1, H2. split; [assumption|].
  now apply Ascii.eqb_neq.
Qed.

(** ** Whitespace and comments *)

Lemma skip_line_comment_spec lx0 :
  is_at_end lx0 = false -> peek lx0 <> LF ->
  exists lx',
    skip_line_comment (fuel_of lx0) lx0 = Some lx'
    /\ m_source lx' = m_source lx0
    /\ m_current_pos lx0 < m_current_pos lx'
    /\ (line_ok lx0 -> line_ok lx').
Proof.
  intros He Hc.
  destruct (scan_progress _ comment_cond lx0) as (lx' & H & ? & ? & ? & ? & _).
  - rewrite He. apply Ascii.eqb_neq in Hc. now rewrite Hc.
  - exists lx'. auto.
Qed.

Lemma skip_whitespace_and_comments_spec fuel :
  forall lx,
    length (m_source lx) < m_current_pos lx + fuel ->
    exists lx',
      skip_whitespace_and_comments fuel lx = Some lx'
      /\ follows lx lx'
      /\ (line_ok lx -> line_ok lx')
      /\ (is_at_end lx' = false -> peek lx' <> LF).
Proof.
  induction fuel as [|fuel IH]; intros lx Hfuel; simpl.
  - destruct (is_at_end lx) eqn:He.
    + exists lx. repeat split; auto using follows_refl. congruence.
    + apply is_at_end_false in He. lia.
  - destruct (is_at_end lx) eqn:He.
    { exists lx. repeat split; auto using follows_refl. congruence. }
    assert (Hadv : forall lx1,
               m_source lx1 = m_source lx ->
               m_current_pos lx < m_current_pos lx1 ->
               (line_ok lx -> line_ok lx1) ->
               exists lx',
                 skip_whitespace_and_comments fuel lx1 = Some lx'
                 /\ follows lx lx'
                 /\ (line_ok lx -> line_ok lx')
                 /\ (is_at_end lx' = false -> peek lx' <> LF)).
    { intros lx1 Hs Hp Hok. destruct (IH lx1) as (lx' & H & Hf & Hok' & Hnl).
      - rewrite Hs. lia.
      - exists lx'. repeat split; auto.
        + destruct Hf as [-> _]. assumption.
        + destruct Hf. lia. }
    destruct (Ascii.eqb (peek lx) " " || Ascii.eqb (peek lx) CR
              || Ascii.eqb (peek lx) TAB) eqn:Hws.
    { apply Hadv; simpl; auto. intros H. apply line_ok_advance; auto.
      intros Heq. rewrite Heq in Hws. discriminate Hws. }
    destruct (Ascii.eqb_spec (peek lx) LF) as [Hlf|Hlf].
    { apply Hadv; simpl; auto. intros H. apply line_ok_advance_LF; auto. }
    destruct (Ascii.eqb (peek lx) "/") eqn:Hslash;
      [|exists lx; repeat split; auto using follows_refl].
    destruct ((m_current_pos lx + 1 <? length (m_source lx))
              && Ascii.eqb (char_at lx (m_current_pos lx + 1)) "/");
      [|exists lx; repeat split; auto using follows_refl].
    destruct (skip_line_comment_spec lx He Hlf) as (lx1 & -> & Hs & Hp & Hok).
    apply Hadv; auto.
Qed.

(** ** The token handlers *)

Lemma string_loop_spec lx0 :
  exists lx',
    string_loop (fuel_of lx0) lx0 = Some lx'
    /\ follows lx0 lx'
    /\ (line_ok lx0 -> line_ok lx')
    /\ (is_at_end lx' = false -> peek lx' = DQUOTE).
Proof.
  destruct (while_rule
              (fun lx => follows lx0 lx /\ (line_ok lx0 -> line_ok lx))
              (fun lx => negb (Ascii.eqb (peek lx) DQUOTE)
                         && negb (is_at_end lx))
              (fun lx =>
                 snd (advance (if Ascii.eqb (peek lx) LF then incr_line lx
                               else lx))))
    with (fuel := fuel_of lx0) (lx := lx0)
    as (lx' & Hrun & (Hf & Hok) & Hstop).
  - intros lx (Hf & Hok) Hcond. apply andb_prop in Hcond.
    destruct Hcond as [_ He]. apply negb_true_iff in He.
    split; [assumption|]. destruct Hf as [Hs Hp].
    destruct (Ascii.eqb_spec (peek lx) LF) as [Hlf|Hlf]; unfold follows; simpl.
    + split; [split; [split; [exact Hs | lia] |] | split; reflexivity].
      intros H. apply line_ok_advance_LF; auto.
    + split; [split; [split; [exact Hs | lia] |] | split; reflexivity].
      intros H. apply line_ok_advance; auto.
  - split; [apply follows_refl | tauto].
  - unfold fuel_of. lia.
  - exists lx'. split; [assumption|]. split; [assumption|].
    split; [assumption|].
    intros He. rewrite He in Hstop. simpl in Hstop.
    rewrite andb_true_r in Hstop. apply negb_false_iff in Hstop.
    now apply Ascii.eqb_eq.
Qed.

Lemma handle_string_spec lx0 :
  exists tok lx', handle_string lx0 = Some (tok, lx') /\ handled lx0 tok lx'.
Proof.
  unfold handle_string.
  destruct (string_loop_spec lx0) as (lx1 & -> & Hf & Hok & Hq).
  destruct (is_at_end lx1) eqn:He.
  - eexists _, lx1. split; [reflexivity|].
    repeat split; try apply Hf; auto. discriminate.
  - eexists _, _. split; [reflexivity|].
    repeat split; simpl; try apply Hf; try discriminate.
    + destruct Hf. lia.
    + intros H. apply line_ok_advance; auto. rewrite Hq by reflexivity.
      discriminate.
Qed.

Lemma handle_number_spec lx0 :
  isdigit (peek lx0) = true ->
  exists tok lx',
    handle_number lx0 = Some (tok, lx') /\ handled lx0 tok lx'
    /\ m_current_pos lx0 < m_current_pos lx' /\ is_eof tok = false.
Proof.
  intros Hd. unfold handle_number, number_loop.
  destruct (scan_progress _ number_cond lx0 Hd)
    as (lx1 & -> & Hs & Hp & Hl & Hok & _).
  eexists _, lx1. split; [reflexivity|].
  repeat split; simpl; auto; try discriminate. lia.
Qed.

Lemma keywords_find_type v ty :
  keywords_find keywords v = Some ty ->
  ty = INT \/ ty = CHAR \/ ty = RETURN \/ ty = FOR.
Proof.
  intros H.
  assert (Hin : In ty (map snd keywords)).
  { revert H. generalize keywords. induction l as [|[k ty'] l IH]; simpl.
    - discriminate.
    - destruct (String.eqb k v); [intros [= ->]; now left | auto]. }
  simpl in Hin. intuition auto.
Qed.

Lemma handle_identifier_spec lx0 :
  isalnum (peek lx0) || Ascii.eqb (peek lx0) "_" = true ->
  exists tok lx',
    handle_identifier lx0 = Some (tok, lx') /\ handled lx0 tok lx'
    /\ m_current_pos lx0 < m_current_pos lx' /\ is_eof tok = false.
Proof.
  intros Hd. unfold handle_identifier, identifier_loop.
  destruct (scan_progress _ identifier_cond lx0 Hd)
    as (lx1 & -> & Hs & Hp & Hl & Hok & _).
  assert (Hf : follows lx0 lx1) by (split; [assumption | lia]).
  destruct (keywords_find keywords _) as [ty|] eqn:Hk.
  - apply keywords_find_type in Hk.
    eexists _, lx1. split; [reflexivity|].
    unfold handled, is_eof. simpl.
    destruct Hk as [ -> | [ -> | [ -> | -> ] ] ];
      (repeat split; try apply Hf; auto; discriminate).
  - eexists _, lx1. split; [reflexivity|].
    unfold handled, is_eof. simpl.
    repeat split; try apply Hf; auto; discriminate.
Qed.

(** ** One iteration of the loop of [tokenize] *)

Lemma pushed_nil lx0 lx' : (line_ok lx0 -> line_ok lx') -> pushed lx0 lx' [].
Proof. intros H. repeat split; auto. Qed.

Lemma pushed_handled lx0 lx1 tok lx' :
  (line_ok lx0 -> line_ok lx1) ->
  (is_eof tok = true -> In DQUOTE (m_source lx')) ->
  handled lx1 tok lx' -> pushed lx0 lx' [tok].
Proof.
  intros H01 Hq (Hf & Hl & Hok & Hinc & Heof). repeat split; auto.
  destruct (is_eof tok) eqn:He.
  - right; right. destruct Heof as [? ->]; auto.
  - right; left. eauto.
Qed.

Lemma single_char_type c ty :
  single_char c = Some ty -> ty <> INCLUDE /\ ty <> END_OF_FILE.
Proof.
  unfold single_char.
  repeat match goal with
         | |- context [Ascii.eqb c ?x] => destruct (Ascii.eqb c x)
         end; intros [= <-]; split; discriminate.
Qed.

Lemma set_pos_back lx :
  set_pos (snd (advance lx)) (m_current_pos (snd (advance lx)) - 1) = lx.
Proof. destruct lx. unfold set_pos. simpl. now rewrite Nat.sub_0_r. Qed.

Lemma dispatch_spec lxp :
  is_at_end lxp = false -> peek lxp <> LF ->
  exists lx' toks,
    dispatch (peek lxp) (snd (advance lxp)) = Some (lx', toks)
    /\ m_source lx' = m_source lxp
    /\ m_current_pos lxp < m_current_pos lx'
    /\ pushed lxp lx' toks.
Proof.
  intros He Hnl.
  assert (Hadv : line_ok lxp -> line_ok (snd (advance lxp)))
    by (intros H; apply line_ok_advance; assumption).
  unfold dispatch. destruct (single_char (peek lxp)) as [ty|] eqn:Hsc.
  { apply single_char_type in Hsc. destruct Hsc as [Hi Hf].
    eexists _, _. split; [reflexivity|]. simpl.
    split; [reflexivity|]. split; [lia|].
    repeat split; auto.
    right; left. eexists. split; [reflexivity|].
    unfold is_eof, TokenType_eqb. simpl.
    now destruct (TokenType_eq_dec ty END_OF_FILE). }
  destruct (Ascii.eqb (peek lxp) "#").
  { destruct (Ascii.eqb (peek (snd (advance lxp))) "i").
    - eexists _, _. split; [reflexivity|]. simpl.
      split; [reflexivity|]. split; [lia|].
      repeat split; auto.
      + intros _ H. apply Forall_inv in H. now contradiction H.
      + right; left. eexists. split; reflexivity.
    - eexists _, _. split; [reflexivity|]. simpl.
      split; [reflexivity|]. split; [lia|]. now apply pushed_nil. }
  destruct (Ascii.eqb_spec (peek lxp) DQUOTE) as [Hq|_].
  { destruct (handle_string_spec (snd (advance lxp))) as (tok & lx' & -> & Hh).
    pose proof Hh as ((Hs & Hp) & _). simpl in Hs, Hp.
    eexists _, _. split; [reflexivity|].
    split; [assumption|]. split; [lia|].
    apply pushed_handled with (lx1 := snd (advance lxp)); auto.
    intros _. rewrite Hs, <- Hq, peek_live by assumption.
    apply nth_In. now apply is_at_end_false. }
  destruct (isdigit (peek lxp)) eqn:Hd.
  { rewrite set_pos_back.
    destruct (handle_number_spec lxp Hd) as (tok & lx' & -> & Hh & Hp & Hne).
    pose proof Hh as ((Hs & _) & _).
    eexists _, _. split; [reflexivity|].
    split; [assumption|]. split; [assumption|].
    apply pushed_handled with (lx1 := lxp); auto. congruence. }
  destruct (isalpha (peek lxp) || Ascii.eqb (peek lxp) "_") eqn:Ha.
  { rewrite set_pos_back.
    assert (Hc : isalnum (peek lxp) || Ascii.eqb (peek lxp) "_" = true).
    { unfold isalnum. apply orb_prop in Ha. destruct Ha as [-> | ->];
        [reflexivity | apply orb_true_r]. }
    destruct (handle_identifier_spec lxp Hc)
      as (tok & lx' & -> & Hh & Hp & Hne).
    pose proof Hh as ((Hs & _) & _).
    eexists _, _. split; [reflexivity|].
    split; [assumption|]. split; [assumption|].
    apply pushed_handled with (lx1 := lxp); auto. congruence. }
  eexists _, _. split; [reflexivity|]. simpl.
  split; [reflexivity|]. split; [lia|]. now apply pushed_nil.
Qed.

Lemma iteration_spec lx :
  is_at_end lx = false ->
  exists brk lx' toks,
    iteration lx = Some (brk, lx', toks)
    /\ m_source lx' = m_source lx
    /\ (if brk then is_at_end lx' = true
        else m_current_pos lx < m_current_pos lx')
    /\ pushed lx lx' toks.
Proof.
  intros He. unfold iteration.
  destruct (skip_whitespace_and_comments_spec (fuel_of lx) lx)
    as (lx1 & -> & (Hs & Hp) & Hok & Hnl).
  { unfold fuel_of. lia. }
  destruct (is_at_end lx1) eqn:He1.
  - exists true, lx1, []. repeat split; auto.
  - destruct (dispatch_spec lx1 He1 (Hnl eq_refl))
      as (lx' & toks & Hd & Hs' & Hp' & Hl & Hinc & Hshape).
    rewrite (peek_live _ He1) in Hd. unfold advance in *. simpl in Hd.
    rewrite Hd.
    exists false, lx', toks. split; [reflexivity|].
    split; [congruence|]. split; [lia|].
    split; [assumption|]. split; [auto | assumption].
Qed.

(** ** The loop of [tokenize], as a run *)

Lemma tokenize_loop_run fuel :
  forall lx,
    length (m_source lx) <= m_current_pos lx + fuel ->
    exists tr lx',
      run lx tr lx'
      /\ forall (A : Type) (note : t -> Token -> A) (acc : list A),
           tokenize_loop note fuel lx acc
           = Some (lx', acc ++ map (fun x => note (fst x) (snd x)) tr).
Proof.
  induction fuel as [|fuel IH]; intros lx Hfuel.
  - assert (He : is_at_end lx = true) by (apply is_at_end_true; lia).
    exists [], lx. split; [now constructor|].
    intros A note acc. simpl. now rewrite He, app_nil_r.
  - destruct (is_at_end lx) eqn:He.
    { exists [], lx. split; [now constructor|].
      intros A note acc. simpl. now rewrite He, app_nil_r. }
    destruct (iteration_spec lx He) as (brk & lx1 & toks & Hit & Hs & Hp & _).
    assert (Hnext : exists tr lx',
               run lx1 tr lx'
               /\ forall (A : Type) (note : t -> Token -> A) (acc : list A),
                    (if brk then Some (lx1, acc)
                     else tokenize_loop note fuel lx1 acc)
                    = Some (lx',
                            acc ++ map (fun x => note (fst x) (snd x)) tr)).
    { destruct brk.
      - exists [], lx1. split; [now constructor|].
        intros A note acc. now rewrite app_nil_r.
      - apply IH. rewrite Hs. lia. }
    destruct Hnext as (tr & lx' & Hrun & Hloop).
    exists (map (pair lx1) toks ++ tr), lx'. split.
    + econstructor; eassumption.
    + intros A note acc. simpl. rewrite He, Hit, Hloop.
      now rewrite map_app, map_map, app_assoc.
Qed.

Lemma tokenize_with_run (lx : t) :
  exists tr lx',
    run lx tr lx'
    /\ forall (A : Type) (note : t -> Token -> A),
         tokenize_with note lx
         = Some (map (fun x => note (fst x) (snd x)) tr
                   ++ [note lx' (make_token lx' END_OF_FILE EmptyString)]).
Proof.
  destruct (tokenize_loop_run (fuel_of lx) lx) as (tr & lx' & Hrun & Hloop).
  { unfold fuel_of. lia. }
  exists tr, lx'. split; [assumption|].
  intros A note. unfold tokenize_with. now rewrite Hloop.
Qed.

Lemma run_source lx tr lx' : run lx tr lx' -> m_source lx' = m_source lx.
Proof.
  induction 1 as [|lx brk lx1 toks tr lx' He Hit _ IH]; [reflexivity|].
  destruct (iteration_spec lx He) as (? & ? & ? & Hit' & Hs & _).
  rewrite Hit in Hit'. injection Hit' as <- <- <-. congruence.
Qed.

Lemma run_at_end lx tr lx' :
  run lx tr lx' -> is_at_end lx = true -> tr = [] /\ lx' = lx.
Proof. destruct 1; [auto | congruence]. Qed.

(** The end-of-stream sentinel of an unterminated string can only be the
    last token a run pushes. *)
Lemma run_eof lx tr lx' :
  run lx tr lx' ->
  Forall (fun x => is_eof (snd x) = false) tr
  \/ (exists tr0,
        tr = tr0 ++ [(lx', make_token lx' END_OF_FILE "ERROR")]
        /\ Forall (fun x => is_eof (snd x) = false) tr0
        /\ In DQUOTE (m_source lx')).
Proof.
  induction 1 as [|lx brk lx1 toks tr lx' He Hit Hrun IH]; [now left|].
  destruct (iteration_spec lx He) as (? & ? & ? & Hit' & _ & _ & _ & _ & Hsh).
  rewrite Hit in Hit'. injection Hit' as <- <- <-.
  destruct Hsh as [-> | [(tok & -> & Hne) | (-> & He1 & Hq)]]; simpl.
  - assumption.
  - destruct IH as [IH | (tr0 & -> & IH & Hq)].
    + left. now constructor.
    + right. exists ((lx1, tok) :: tr0). repeat split; auto.
  - destruct (run_at_end _ _ _ Hrun He1) as [-> ->].
    right. exists []. repeat split; auto.
Qed.

(** The line of a token is the line counter at its push, and the counter is
    right as long as no include token has been pushed. *)
Lemma run_lines lx tr lx' :
  run lx tr lx' -> line_ok lx ->
  (forall pre x post,
      tr = pre ++ x :: post ->
      Forall (fun y => type (snd y) <> INCLUDE) (pre ++ [x]) ->
      line (snd x) = m_line (fst x) /\ line_ok (fst x)
      /\ m_source (fst x) = m_source lx)
  /\ (Forall (fun y => type (snd y) <> INCLUDE) tr -> line_ok lx').
Proof.
  induction 1 as [|lx brk lx1 toks tr lx' He Hit Hrun IH]; intros Hok.
  { split; [|auto]. intros [|? ?] ? ? [=]. }
  destruct (iteration_spec lx He)
    as (? & ? & ? & Hit' & Hs & _ & Hl & Hinc & Hsh).
  rewrite Hit in Hit'. injection Hit' as <- <- <-.
  assert (Hone : toks = [] \/ exists tok, toks = [tok]).
  { destruct Hsh as [-> | [(tok & -> & _) | (-> & _)]]; eauto. }
  destruct Hone as [-> | (tok & ->)]; simpl.
  - destruct (IH (Hinc Hok (Forall_nil _))) as [IH1 IH2]. split; [|assumption].
    intros pre x post E F. destruct (IH1 pre x post E F) as (? & ? & ?).
    repeat split; congruence.
  - apply Forall_inv in Hl. split.
    + intros [|y pre] x post E F; simpl in E; injection E as <- E.
      * apply Forall_inv in F. simpl in F.
        repeat split; auto.
      * pose proof (Forall_inv F) as Hy. apply Forall_inv_tail in F.
        simpl in Hy.
        assert (Hone : Forall (fun tok => type tok <> INCLUDE) [tok])
          by (constructor; auto).
        destruct (IH (Hinc Hok Hone)) as [IH1 _].
        destruct (IH1 pre x post E F) as (? & ? & ?).
        repeat split; congruence.
    + intros F. pose proof (Forall_inv F) as Hy. apply Forall_inv_tail in F.
      simpl in Hy.
      assert (Hone : Forall (fun tok => type tok <> INCLUDE) [tok])
        by (constructor; auto).
      destruct (IH (Hinc Hok Hone)) as [_ IH2].
      auto.
Qed.

Lemma is_eof_false tok : is_eof tok = false <-> type tok <> END_OF_FILE.
Proof.
  unfold is_eof, TokenType_eqb.
  destruct (TokenType_eq_dec (type tok) END_OF_FILE); split; congruence.
Qed.

Lemma line_ok_new source : line_ok (new source).
Proof. reflexivity. Qed.

(** The run of [tokenize] with the final end-of-stream token added. *)
Lemma tokenize_trace (source : string) :
  exists tr lx',
    run (new source) tr lx'
    /\ forall (A : Type) (note : t -> Token -> A),
         tokenize_with note (new source)
         = Some (map (fun x => note (fst x) (snd x))
                   (tr ++ [(lx', make_token lx' END_OF_FILE EmptyString)])).
Proof.
  destruct (tokenize_with_run (new source)) as (tr & lx' & Hrun & Hw).
  exists tr, lx'. split; [assumption|].
  intros A note. now rewrite Hw, map_app.
Qed.

Lemma tokenize_at_total (source : string) :
  exists toks,
    tokenize_at source = Some toks /\ tokenize source = Some (map fst toks).
Proof.
  destruct (tokenize_trace source) as (tr & lx' & _ & Hw).
  unfold tokenize_at, tokenize. rewrite !Hw.
  eexists. split; [reflexivity|]. now rewrite map_map.
Qed.

(** ** Identifier runs *)

Section IdentifierRun.

Variables (pre run rest : list ascii) (ln : nat).
Hypothesis run_chars : Forall (fun c => ident_char c = true) run.
Hypothesis run_stops : ident_stop rest.


Lemma peek_in_run k :
  k < length run -> peek (in_run pre run rest ln k) = nth k run NUL.
Proof.
  intros Hk. rewrite peek_live.
  - unfold char_at, in_run. simpl.
    rewrite app_nth2 by lia. rewrite app_nth1 by lia.
    f_equal. lia.
  - apply is_at_end_false. unfold in_run. simpl.
    rewrite !length_app. lia.
Qed.

Lemma peek_after_run :
  ident_char (peek (in_run pre run rest ln (length run))) = false.
Proof.
  destruct (is_at_end (in_run pre run rest ln (length run))) eqn:He.
  - now rewrite peek_end.
  - rewrite peek_live by assumption. apply is_at_end_false in He.
    unfold char_at, in_run in *. simpl in *.
    rewrite !length_app in He.
    rewrite app_nth2 by lia. rewrite app_nth2 by lia.
    replace (length pre + length run - length pre - length run) with 0 by lia.
    destruct rest; simpl in *; [lia | assumption].
Qed.

Lemma identifier_loop_run k :
  k <= length run ->
  identifier_loop (fuel_of (in_run pre run rest ln k))
    (in_run pre run rest ln k)
  = Some (in_run pre run rest ln (length run)).
Proof.
  intros Hk. unfold identifier_loop.
  destruct (while_rule
              (fun lx =>
                 exists j, j <= length run /\ lx = in_run pre run rest ln j)
              (fun lx => isalnum (peek lx) || Ascii.eqb (peek lx) "_")
              (fun lx => snd (advance lx)))
    with (fuel := fuel_of (in_run pre run rest ln k))
         (lx := in_run pre run rest ln k)
    as (lx' & Hrun & (j & Hj & ->) & Hstop).
  - intros lx (j & Hj & ->) Hcond.
    split; [now apply identifier_cond|].
    assert (Hlt : j < length run).
    { destruct (Nat.eq_dec j (length run)) as [->|]; [|lia].
      pose proof peek_after_run as H. unfold ident_char in H. congruence. }
    split; [|split; reflexivity].
    exists (S j). split; [lia|]. unfold in_run, advance, set_pos. simpl.
    f_equal. lia.
  - eauto.
  - unfold fuel_of. lia.
  - rewrite Hrun. f_equal.
    destruct (Nat.eq_dec j (length run)) as [->|]; [reflexivity|].
    assert (Hlt : j < length run) by lia.
    rewrite (peek_in_run j Hlt) in Hstop.
    pose proof (proj1 (Forall_forall _ _) run_chars (nth j run NUL)
                  (nth_In _ _ Hlt)) as H.
    unfold ident_char in H. congruence.
Qed.

Lemma substr_run :
  substr (in_run pre run rest ln (length run)) (length pre)
    (length pre + length run - length pre)
  = string_of_list_ascii run.
Proof.
  unfold substr, in_run. simpl. f_equal.
  rewrite skipn_app, skipn_all, Nat.sub_diag. simpl.
  replace (length pre + length run - length pre) with (length run + 0) by lia.
  rewrite firstn_app_2. simpl. apply app_nil_r.
Qed.

End IdentifierRun.

Lemma keywords_find_spec text :
  match keywords_find keywords text with
  | Some ty => ty
  | None => IDENTIFIER
  end = spec_token_kind text.
Proof.
  unfold spec_token_kind, keywords. cbn [keywords_find].
  repeat match goal with
         | |- context [String.eqb ?k text] =>
           destruct (String.eqb_spec k text);
           [subst text; reflexivity|]
         end.
  repeat match goal with
         | |- context [string_dec text ?k] =>
           destruct (string_dec text k); [congruence|]
         end.
  reflexivity.
Qed.

Lemma ident_start_char c : ident_start c = true -> ident_char c = true.
Proof.
  unfold ident_start, ident_char, isalnum.
  intros H. apply orb_prop in H. destruct H as [-> | ->];
    [reflexivity | apply orb_true_r].
Qed.

Lemma ident_start_not_digit c : ident_start c = true -> isdigit c = false.
Proof.
  unfold ident_start, isalpha, isdigit. intros H.
  apply orb_prop in H. destruct H as [H | H].
  - apply orb_prop in H.
    destruct H as [H | H]; apply andb_prop in H; destruct H as [H1 H2];
      apply Nat.leb_le in H1, H2; apply andb_false_iff; right;
        apply Nat.leb_gt; lia.
  - apply Ascii.eqb_eq in H. now subst c.
Qed.

Lemma ident_start_not c x :
  ident_start c = true -> ident_start x = false -> Ascii.eqb c x = false.
Proof. intros Hc Hx. apply Ascii.eqb_neq. congruence. Qed.

(** An iteration entered at the first character of an identifier run pushes
    one token for the whole run. *)
Lemma iteration_identifier pre c run rest ln :
  ident_start c = true ->
  Forall (fun x => ident_char x = true) run ->
  ident_stop rest ->
  let text := string_of_list_ascii (c :: run) in
  let src := pre ++ (c :: run) ++ rest in
  iteration (mk src (length pre) ln)
  = Some (false, mk src (length pre + length (c :: run)) ln,
          [mkToken (spec_token_kind text) text ln]).
Proof.
  intros Hc Hrun Hstop text src.
  assert (Hall : Forall (fun x => ident_char x = true) (c :: run))
    by (constructor; [now apply ident_start_char | assumption]).
  pose proof (peek_in_run pre (c :: run) rest ln 0) as Hpeek.
  unfold in_run in Hpeek. rewrite Nat.add_0_r in Hpeek. fold src in Hpeek.
  specialize (Hpeek ltac:(simpl; lia)). simpl in Hpeek.
  pose proof (identifier_loop_run pre (c :: run) rest ln Hall Hstop 0) as Hloop.
  unfold in_run in Hloop. rewrite Nat.add_0_r in Hloop. fold src in Hloop.
  specialize (Hloop ltac:(simpl; lia)).
  pose proof (substr_run pre (c :: run) rest ln) as Hsub.
  unfold in_run in Hsub. fold src in Hsub.
  assert (He : is_at_end (mk src (length pre) ln) = false).
  { apply peek_not_NUL. rewrite Hpeek. intros ->. discriminate Hc. }
  assert (Hne : forall x, ident_start x = false -> Ascii.eqb c x = false)
    by (intros x; now apply ident_start_not).
  unfold iteration.
  replace (skip_whitespace_and_comments _ _)
    with (Some (mk src (length pre) ln)).
  2:{ unfold fuel_of. cbn [skip_whitespace_and_comments].
      rewrite He, Hpeek.
      rewrite !Hne by reflexivity. reflexivity. }
  rewrite He. unfold advance. rewrite <- (peek_live _ He), Hpeek.
  unfold dispatch.
  replace (single_char c) with (@None TokenType).
  2:{ unfold single_char. rewrite !Hne by reflexivity. reflexivity. }
  rewrite !Hne by reflexivity.
  rewrite (ident_start_not_digit c Hc).
  unfold ident_start in Hc. rewrite Hc.
  replace (set_pos (set_pos _ _) _) with (mk src (length pre) ln).
  2:{ unfold set_pos. simpl. f_equal. lia. }
  unfold handle_identifier.
  rewrite Hloop. cbn [m_current_pos]. rewrite Hsub. fold text.
  pose proof (keywords_find_spec text) as Hk.
  destruct (keywords_find keywords text); rewrite <- Hk; reflexivity.
Qed.

End LexerFacts.

(** * The claims about the tokenizer *)

(** C3 as stated fails: on a source that is an opening double quote
    followed by [abc], the sequence holds two end-of-stream tokens. *)
Lemma tokenize_unterminated_string_two_eof :
  Lexer.tokenize (String DQUOTE "abc")
  = Some [mkToken END_OF_FILE "ERROR" 1; mkToken END_OF_FILE EmptyString 1]
  /\ count_eof
       [mkToken END_OF_FILE "ERROR" 1; mkToken END_OF_FILE EmptyString 1]
     = 2.
Proof. split; reflexivity. Qed.

(** C5 at the eight characters of the directive: the cursor is moved by six
    after the hash sign, so the last letter is left and is lexed as an
    identifier. *)
Theorem tokenize_include_leaves_identifier :
  Lexer.tokenize "#include"
  = Some [mkToken INCLUDE "#include" 1; mkToken IDENTIFIER "e" 1;
          mkToken END_OF_FILE EmptyString 1].
Proof. reflexivity. Qed.

(** C6 as stated fails: in a source that is a hash sign, [i], five newlines
    and a semicolon, the jump after the hash sign passes the five newlines.
    The semicolon lies at index 7, after five newlines, and its line is 1. *)
Lemma include_jump_passes_newlines :
  let source :=
    String "#" (String "i" (String LF (String LF (String LF (String LF
      (String LF ";")))))) in
  Lexer.tokenize_at source
  = Some [(mkToken INCLUDE "#include" 1, 7); (mkToken SEMICOLON ";" 1, 8);
          (mkToken END_OF_FILE EmptyString 1, 8)]
  /\ newlines_before source 7 = 5
  /\ newlines_before source 8 = 5
  /\ line (mkToken SEMICOLON ";" 1) <> 5 + 1.
Proof. repeat split; discriminate. Qed.



(** * Properties of the parser *)

Module ParserFacts.
Import Parser.

(** ** Stepping through [bind] *)

Lemma bind_ok {A B} (m : M A) (k : A -> M B) p a p' :
  m p = Ok a p' -> bind m k p = k a p'.
Proof. unfold bind. now intros ->. Qed.

Lemma bind_throw {A B} (m : M A) (k : A -> M B) p what p' :
  m p = Throw what p' -> bind m k p = Throw what p'.
Proof. unfold bind. now intros ->. Qed.

(** ** The shape of what the parser builds *)

Lemma ensures_ret {A} (a : A) (Q : A -> Prop) : Q a -> ensures (ret a) Q.
Proof. intros H p a' p' [= <- _]. exact H. Qed.

Lemma ensures_throw {A} what (Q : A -> Prop) : ensures (throw what) Q.
Proof. intros p a p' [=]. Qed.

Lemma ensures_bind {A B} (m : M A) (k : A -> M B) (Q1 : A -> Prop) Q :
  ensures m Q1 -> (forall a, Q1 a -> ensures (k a) Q) -> ensures (bind m k) Q.
Proof.
  intros Hm Hk p b p'. unfold bind. destruct (m p) as [a p1| | |] eqn:E;
    try discriminate.
  intros H. exact (Hk a (Hm _ _ _ E) _ _ _ H).
Qed.

Lemma ensures_true {A} (m : M A) : ensures m (fun _ => True).
Proof. intros p a p' _. exact I. Qed.

Lemma parse_expression_shape :
  ensures parse_expression (fun e => exists v, e = Some (NumberLiteralNode v)).
Proof.
  unfold parse_expression.
  apply ensures_bind with (Q1 := fun _ => True); [apply ensures_true|].
  intros [|] _; [|apply ensures_throw].
  apply ensures_bind with (Q1 := fun _ => True); [apply ensures_true|].
  intros num _. apply ensures_ret. eauto.
Qed.

Lemma parse_return_statement_shape : ensures parse_return_statement is_return.
Proof.
  unfold parse_return_statement.
  apply ensures_bind with (Q1 := fun _ => True); [apply ensures_true|].
  intros _ _. eapply ensures_bind; [apply parse_expression_shape|].
  intros e (v & ->).
  apply ensures_bind with (Q1 := fun _ => True); [apply ensures_true|].
  intros _ _. apply ensures_ret. exists v. reflexivity.
Qed.

Lemma parse_statement_shape :
  ensures parse_statement (fun stmt => stmt = None \/ is_return stmt).
Proof.
  unfold parse_statement.
  apply ensures_bind with (Q1 := fun _ => True); [apply ensures_true|].
  intros [|] _.
  - intros p a p' H. right. exact (parse_return_statement_shape _ _ _ H).
  - apply ensures_bind with (Q1 := fun _ => True); [apply ensures_true|].
    intros tok _.
    apply ensures_bind with (Q1 := fun _ => True); [apply ensures_true|].
    intros _ _. apply ensures_ret. now left.
Qed.

Lemma block_loop_shape fuel :
  forall stmts,
    Forall is_return stmts ->
    ensures (block_loop fuel stmts) (Forall is_return).
Proof.
  induction fuel as [|fuel IH]; intros stmts Hs; simpl;
    (apply ensures_bind with (Q1 := fun _ => True); [apply ensures_true|]);
    intros b _;
    (apply ensures_bind with (Q1 := fun _ => True); [apply ensures_true|]);
    intros [|] _; try (now apply ensures_ret).
  - intros p a p' [=].
  - eapply ensures_bind; [apply parse_statement_shape|].
    intros stmt [-> | Hr]; [now apply IH|].
    pose proof Hr as (v & ->). apply IH.
    apply Forall_app. split; [assumption | now constructor].
Qed.

Lemma parse_block_statement_shape :
  ensures parse_block_statement
          (fun body => Forall is_return (Block.statements body)).
Proof.
  unfold parse_block_statement.
  apply ensures_bind with (Q1 := fun _ => True); [apply ensures_true|].
  intros _ _.
  apply ensures_bind with (Q1 := Forall is_return).
  { intros p. apply block_loop_shape. constructor. }
  intros stmts Hs.
  apply ensures_bind with (Q1 := fun _ => True); [apply ensures_true|].
  intros _ _. now apply ensures_ret.
Qed.

Lemma parse_function_definition_shape :
  ensures parse_function_definition is_declaration.
Proof.
  unfold parse_function_definition.
  apply ensures_bind with (Q1 := fun _ => True); [apply ensures_true|].
  intros ty _.
  apply ensures_bind with (Q1 := fun _ => True); [apply ensures_true|].
  intros name _.
  apply ensures_bind with (Q1 := fun _ => True); [apply ensures_true|].
  intros _ _.
  apply ensures_bind with (Q1 := fun _ => True); [apply ensures_true|].
  intros _ _.
  eapply ensures_bind; [apply parse_block_statement_shape|].
  intros body Hb. apply ensures_ret. right. eauto.
Qed.

Lemma parse_declaration_shape : ensures parse_declaration is_declaration.
Proof.
  unfold parse_declaration.
  apply ensures_bind with (Q1 := fun _ => True); [apply ensures_true|].
  intros b _.
  apply ensures_bind with (Q1 := fun _ => True); [apply ensures_true|].
  intros [|] _; [apply parse_function_definition_shape|].
  apply ensures_bind with (Q1 := fun _ => True); [apply ensures_true|].
  intros tok _.
  apply ensures_bind with (Q1 := fun _ => True); [apply ensures_true|].
  intros _ _. apply ensures_ret. now left.
Qed.

Lemma parse_loop_shape fuel :
  forall program,
    Forall is_declaration (statements program) ->
    ensures (parse_loop fuel program)
            (fun program' => Forall is_declaration (statements program')).
Proof.
  induction fuel as [|fuel IH]; intros program Hs; simpl;
    (apply ensures_bind with (Q1 := fun _ => True); [apply ensures_true|]);
    intros [|] _; try (now apply ensures_ret).
  - intros p a p' [=].
  - intros p a p'.
    destruct (parse_declaration p) as [decl p1|what p1| |] eqn:E;
      try discriminate.
    + apply IH. simpl. apply Forall_app. split; [assumption|].
      constructor; [|constructor]. exact (parse_declaration_shape _ _ _ E).
    + intros [= <- _]. assumption.
Qed.

Lemma parse_shape tokens program p :
  parse tokens = Ok program p -> Forall is_declaration (statements program).
Proof. apply parse_loop_shape. constructor. Qed.

(** ** The reads stay inside the token vector *)

Lemma TokenType_eqb_eq a b : TokenType_eqb a b = true <-> a = b.
Proof.
  unfold TokenType_eqb. destruct (TokenType_eq_dec a b); split; congruence.
Qed.

Lemma TokenType_eqb_neq a b : TokenType_eqb a b = false <-> a <> b.
Proof.
  unfold TokenType_eqb. destruct (TokenType_eq_dec a b); split; congruence.
Qed.

Lemma good_next p : good p -> live p -> good (next p).
Proof.
  intros [(pre & e & Ht & He) Hp] (tok & Hn & Hne).
  split; [exists pre, e; auto|]. simpl.
  rewrite Ht in *. rewrite length_app in *. simpl in *.
  destruct (Nat.eq_dec (m_current_pos p) (length pre)) as [E|]; [|lia].
  rewrite E, nth_error_app2, Nat.sub_diag in Hn by lia.
  injection Hn as <-. contradiction.
Qed.

Lemma peek_good p :
  good p ->
  exists tok,
    peek p = Ok tok p /\ nth_error (m_tokens p) (m_current_pos p) = Some tok.
Proof.
  intros [_ Hp]. unfold peek, bind, get_pos, token_at.
  destruct (nth_error (m_tokens p) (m_current_pos p)) as [tok|] eqn:E.
  - exists tok. auto.
  - apply nth_error_None in E. lia.
Qed.

Lemma is_at_end_good p :
  good p -> exists b, is_at_end p = Ok b p /\ (b = false -> live p).
Proof.
  intros Hg. destruct (peek_good p Hg) as (tok & Hpeek & Hn).
  unfold is_at_end. rewrite (bind_ok _ _ _ _ _ Hpeek).
  eexists. split; [reflexivity|].
  intros H. apply TokenType_eqb_neq in H. exists tok. auto.
Qed.

Lemma check_good ty p :
  good p -> exists b, check ty p = Ok b p /\ (b = true -> live p).
Proof.
  intros Hg. destruct (is_at_end_good p Hg) as (e & He & Hlive).
  unfold check. rewrite (bind_ok _ _ _ _ _ He). destruct e.
  - exists false. split; [reflexivity | discriminate].
  - destruct (peek_good p Hg) as (tok & Hpeek & _).
    rewrite (bind_ok _ _ _ _ _ Hpeek). eexists. split; [reflexivity | auto].
Qed.

Lemma is_at_end_live p : good p -> live p -> is_at_end p = Ok false p.
Proof.
  intros Hg (tok & Hn & Hne).
  destruct (peek_good p Hg) as (tok' & Hpeek & Hn').
  assert (tok' = tok) by congruence. subst tok'.
  unfold is_at_end. rewrite (bind_ok _ _ _ _ _ Hpeek).
  apply TokenType_eqb_neq in Hne. unfold ret. now rewrite Hne.
Qed.

Lemma advance_live p :
  good p -> live p -> exists tok, advance p = Ok tok (next p).
Proof.
  intros Hg Hl. pose proof (is_at_end_live p Hg Hl) as He.
  destruct Hl as (tok & Hn & Hne).
  exists tok. unfold advance. rewrite (bind_ok _ _ _ _ _ He).
  unfold bind, get_pos, set_pos, token_at. simpl. now rewrite Hn.
Qed.

Lemma adv_refl p : good p -> adv 0 p p.
Proof. intros H. repeat split; try apply H. lia. Qed.

Lemma adv_next p : good p -> live p -> adv 1 p (next p).
Proof.
  intros Hg Hl. split; [reflexivity|]. split; [simpl; lia|].
  now apply good_next.
Qed.

Lemma adv_trans n m p1 p2 p3 : adv n p1 p2 -> adv m p2 p3 -> adv (n + m) p1 p3.
Proof.
  intros (Ht & Hp & _) (Ht' & Hp' & Hg). split; [congruence|].
  split; [lia | assumption].
Qed.

Lemma adv_weaken n m p p' : m <= n -> adv n p p' -> adv m p p'.
Proof. intros Hle (Ht & Hp & Hg). repeat split; try apply Hg; auto. lia. Qed.

(** Sequencing: after a safe call that consumes [n] tokens, a call that is
    safe wherever the first one can leave the parser. *)
Lemma safe_bind {A B} n m (f : M A) (k : A -> M B) p :
  safe n f p ->
  (forall a p', f p = Ok a p' -> adv n p p' -> safe m (k a) p') ->
  safe (n + m) (bind f k) p.
Proof.
  unfold safe, bind. destruct (f p) as [a p1|what p1| |]; auto.
  intros Hadv Hk. specialize (Hk a p1 eq_refl Hadv).
  destruct (k a p1); auto. eapply adv_trans; eassumption.
Qed.

Lemma safe_weaken {A} n m (f : M A) p : m <= n -> safe n f p -> safe m f p.
Proof.
  unfold safe. intros Hle. destruct (f p); auto. now apply adv_weaken.
Qed.

Lemma safe_ret {A} (a : A) p : good p -> safe 0 (ret a) p.
Proof. intros H. now apply adv_refl. Qed.

Lemma safe_throw {A} what p : safe 0 (@throw A what) p.
Proof. exact I. Qed.

Lemma safe_log ln p : good p -> safe 0 (log ln) p.
Proof. intros H. unfold safe, log. repeat split; try apply H. simpl. lia. Qed.

Lemma safe_check ty p : good p -> safe 0 (check ty) p.
Proof.
  intros Hg. destruct (check_good ty p Hg) as (b & Hc & _).
  unfold safe. rewrite Hc. now apply adv_refl.
Qed.

Lemma safe_advance p : good p -> live p -> safe 1 advance p.
Proof.
  intros Hg Hl. destruct (advance_live p Hg Hl) as (tok & Ha).
  unfold safe. rewrite Ha. now apply adv_next.
Qed.

Lemma safe_expect ty what p : good p -> safe 1 (expect ty what) p.
Proof.
  intros Hg. destruct (check_good ty p Hg) as (b & Hc & Hlive).
  unfold expect, safe. rewrite (bind_ok _ _ _ _ _ Hc). destruct b.
  - now apply safe_advance; auto.
  - exact I.
Qed.

Lemma adv_good n p p' : adv n p p' -> good p'.
Proof. now intros (_ & _ & H). Qed.

Lemma safe_parse_expression p : good p -> safe 0 parse_expression p.
Proof.
  intros Hg. destruct (check_good NUMBER_LITERAL p Hg) as (b & Hc & Hlive).
  unfold parse_expression, safe. rewrite (bind_ok _ _ _ _ _ Hc). destruct b.
  - destruct (advance_live p Hg (Hlive eq_refl)) as (tok & Ha).
    rewrite (bind_ok _ _ _ _ _ Ha). apply adv_weaken with (n := 1); [lia|].
    now apply adv_next; auto.
  - exact I.
Qed.

Lemma safe_parse_return_statement p :
  good p -> live p -> safe 1 parse_return_statement p.
Proof.
  intros Hg Hl. unfold parse_return_statement.
  apply (safe_bind 1 0); [now apply safe_advance|].
  intros _ p1 _ H1.
  apply (safe_bind 0 0); [apply safe_parse_expression; eapply adv_good; eauto|].
  intros e p2 _ H2.
  apply (safe_bind 0 0).
  { apply safe_weaken with (n := 1); [lia|].
    apply safe_expect. eapply adv_good; eauto. }
  intros _ p3 _ H3. apply safe_ret. eapply adv_good; eauto.
Qed.

Lemma safe_parse_statement p : good p -> live p -> safe 1 parse_statement p.
Proof.
  intros Hg Hl. destruct (check_good RETURN p Hg) as (b & Hc & _).
  unfold parse_statement, safe. rewrite (bind_ok _ _ _ _ _ Hc). destruct b.
  - now apply safe_parse_return_statement.
  - apply (safe_bind 1 0); [now apply safe_advance|].
    intros tok p1 _ H1.
    apply (safe_bind 0 0); [apply safe_log; eapply adv_good; eauto|].
    intros _ p2 _ H2. apply safe_ret. eapply adv_good; eauto.
Qed.

Lemma safe_block_loop fuel :
  forall stmts p,
    good p -> length (m_tokens p) <= m_current_pos p + fuel ->
    safe 0 (block_loop fuel stmts) p.
Proof.
  induction fuel as [|fuel IH]; intros stmts p Hg Hfuel;
    destruct (check_good CLOSE_BRACE p Hg) as (b & Hc & _);
    destruct (is_at_end_good p Hg) as (e & He & Hlive);
    unfold safe; simpl; rewrite (bind_ok _ _ _ _ _ Hc);
    (destruct b;
     [unfold ret at 1; rewrite (bind_ok _ _ p false p eq_refl);
      now apply adv_refl|]);
    rewrite (bind_ok _ _ p (negb e) p)
      by (now rewrite (bind_ok _ _ _ _ _ He));
    (destruct e; [now apply adv_refl|]); simpl.
  - destruct (good_next p Hg (Hlive eq_refl)) as [_ H]. simpl in H. lia.
  - match goal with
    | |- match ?m p with _ => _ end => change (safe 0 m p)
    end.
    apply safe_weaken with (n := 1 + 0); [lia|].
    apply (safe_bind 1 0 parse_statement).
    + apply safe_parse_statement; auto.
    + intros stmt p1 _ (Ht & Hp & Hg1). apply IH; [assumption|].
      rewrite Ht. lia.
Qed.

Lemma safe_parse_block_statement p : good p -> safe 1 parse_block_statement p.
Proof.
  intros Hg. unfold parse_block_statement.
  apply (safe_bind 1 0); [now apply safe_expect|].
  intros _ p1 _ H1. pose proof (adv_good _ _ _ H1) as Hg1.
  apply (safe_bind 0 0).
  { apply safe_block_loop; [assumption|]. unfold fuel_of.
    destruct Hg1 as [_ Hlt]. lia. }
  intros stmts p2 _ H2.
  apply (safe_bind 0 0).
  { apply safe_weaken with (n := 1); [lia|].
    apply safe_expect. eapply adv_good; eauto. }
  intros _ p3 _ H3. apply safe_ret. eapply adv_good; eauto.
Qed.

Lemma safe_parse_function_definition p :
  good p -> live p -> safe 1 parse_function_definition p.
Proof.
  intros Hg Hl. unfold parse_function_definition.
  apply (safe_bind 1 0); [now apply safe_advance|].
  intros ty p1 _ H1.
  apply (safe_bind 0 0).
  { apply safe_weaken with (n := 1); [lia|].
    apply safe_expect. eapply adv_good; eauto. }
  intros name p2 _ H2.
  apply (safe_bind 0 0).
  { apply safe_weaken with (n := 1); [lia|].
    apply safe_expect. eapply adv_good; eauto. }
  intros _ p3 _ H3.
  apply (safe_bind 0 0).
  { apply safe_weaken with (n := 1); [lia|].
    apply safe_expect. eapply adv_good; eauto. }
  intros _ p4 _ H4.
  apply (safe_bind 0 0).
  { apply safe_weaken with (n := 1); [lia|].
    apply safe_parse_block_statement. eapply adv_good; eauto. }
  intros body p5 _ H5. apply safe_ret. eapply adv_good; eauto.
Qed.

(** The lookahead of [parse_declaration] is inside the vector: it is only
    evaluated on a token that is not the last one. *)
Lemma lookahead_good p :
  good p -> live p ->
  exists tok, token_at (m_current_pos p + 1) p = Ok tok p.
Proof.
  intros Hg Hl. destruct (good_next p Hg Hl) as [_ Hlt]. simpl in Hlt.
  unfold token_at.
  destruct (nth_error (m_tokens p) (m_current_pos p + 1)) as [tok|] eqn:E.
  - eauto.
  - apply nth_error_None in E. lia.
Qed.

Lemma safe_parse_declaration p : good p -> live p -> safe 1 parse_declaration p.
Proof.
  intros Hg Hl. destruct (check_good INT p Hg) as (b & Hc & _).
  destruct (lookahead_good p Hg Hl) as (nxt & Hnext).
  unfold parse_declaration, safe. rewrite (bind_ok _ _ _ _ _ Hc).
  assert (Hdef : exists is_def,
             (if b
              then i <- get_pos ;; next <- token_at (i + 1) ;;
                   ret (TokenType_eqb (type next) IDENTIFIER)
              else ret false) p = Ok is_def p).
  { destruct b; [|now exists false].
    eexists. unfold bind, get_pos. cbv beta iota.
    rewrite Hnext. reflexivity. }
  destruct Hdef as (is_def & Hdef). rewrite (bind_ok _ _ _ _ _ Hdef).
  destruct is_def.
  - now apply safe_parse_function_definition.
  - apply (safe_bind 1 0); [now apply safe_advance|].
    intros tok p1 _ H1.
    apply (safe_bind 0 0); [apply safe_log; eapply adv_good; eauto|].
    intros _ p2 _ H2. apply safe_ret. eapply adv_good; eauto.
Qed.

Lemma parse_loop_total fuel :
  forall program p,
    good p -> length (m_tokens p) <= m_current_pos p + fuel ->
    exists program' p', parse_loop fuel program p = Ok program' p'.
Proof.
  induction fuel as [|fuel IH]; intros program p Hg Hfuel;
    destruct (is_at_end_good p Hg) as (e & He & Hlive);
    simpl; rewrite (bind_ok _ _ _ _ _ He);
    (destruct e; [now exists program, p|]).
  - destruct (good_next p Hg (Hlive eq_refl)) as [_ H]. simpl in H. lia.
  - pose proof (safe_parse_declaration p Hg (Hlive eq_refl)) as Hs.
    unfold safe in Hs.
    destruct (parse_declaration p) as [decl p1|what p1| |] eqn:E;
      try contradiction.
    + destruct Hs as (Ht & Hp & Hg1).
      apply IH; [assumption|]. rewrite Ht. lia.
    + eexists _, _. reflexivity.
Qed.

(** ** The parser does not depend on the tokens before the cursor *)

Section Shift.

Variables (t : Token) (w : list string).

Lemma shifts_bind {A B} (m : M A) (k : A -> M B) p :
  shifts t w m p ->
  (forall a p', m p = Ok a p' -> shifts t w (k a) p') ->
  shifts t w (bind m k) p.
Proof.
  unfold shifts, bind. intros ->. destruct (m p) as [a p'| | |]; simpl; auto.
Qed.

Lemma shifts_ret {A} (a : A) p : shifts t w (ret a) p.
Proof. reflexivity. Qed.

Lemma shifts_throw {A} what p : shifts t w (@throw A what) p.
Proof. reflexivity. Qed.

Lemma shifts_log ln p : shifts t w (log ln) p.
Proof.
  unfold shifts, log. simpl. unfold shift. simpl. now rewrite app_assoc.
Qed.

Lemma shifts_peek p : shifts t w peek p.
Proof.
  unfold shifts, peek, bind, get_pos, token_at. simpl.
  now destruct (nth_error (m_tokens p) (m_current_pos p)).
Qed.

Lemma shifts_is_at_end p : shifts t w is_at_end p.
Proof.
  unfold is_at_end. apply shifts_bind; [apply shifts_peek|].
  intros; apply shifts_ret.
Qed.

Lemma shifts_check ty p : shifts t w (check ty) p.
Proof.
  unfold check. apply shifts_bind; [apply shifts_is_at_end|].
  intros [|] p' _; [apply shifts_ret|].
  apply shifts_bind; [apply shifts_peek|]. intros; apply shifts_ret.
Qed.

Lemma is_at_end_same p b p' : is_at_end p = Ok b p' -> p' = p.
Proof.
  unfold is_at_end, peek, bind, get_pos, token_at, ret.
  destruct (nth_error (m_tokens p) (m_current_pos p)); [|discriminate].
  now intros [= _ <-].
Qed.

Lemma check_true ty p p' : check ty p = Ok true p' -> is_at_end p = Ok false p'.
Proof.
  unfold check, bind. destruct (is_at_end p) as [e p1| | |] eqn:E;
    try discriminate.
  pose proof (is_at_end_same _ _ _ E) as ->. destruct e; [discriminate|].
  unfold peek, bind, get_pos, token_at, ret.
  destruct (nth_error (m_tokens p) (m_current_pos p)); [|discriminate].
  now intros [= _ <-].
Qed.

(** [advance] reads the token before the cursor, so it is only independent
    of the front when it does move the cursor. *)
Lemma shifts_advance p : is_at_end p = Ok false p -> shifts t w advance p.
Proof.
  intros He. pose proof (shifts_is_at_end p) as Hs. unfold shifts in *.
  rewrite He in Hs. simpl in Hs.
  unfold advance. rewrite (bind_ok _ _ _ _ _ He), (bind_ok _ _ _ _ _ Hs).
  unfold bind, get_pos, set_pos, token_at. simpl.
  now destruct (nth_error (m_tokens p) (m_current_pos p)).
Qed.

Lemma shifts_expect ty what p : shifts t w (expect ty what) p.
Proof.
  unfold expect. apply shifts_bind; [apply shifts_check|].
  intros [|] p' Hc; [|apply shifts_throw].
  apply check_true in Hc. pose proof (is_at_end_same _ _ _ Hc) as ->.
  now apply shifts_advance.
Qed.

Lemma shifts_parse_expression p : shifts t w parse_expression p.
Proof.
  unfold parse_expression. apply shifts_bind; [apply shifts_check|].
  intros [|] p' Hc; [|apply shifts_throw].
  apply check_true in Hc. pose proof (is_at_end_same _ _ _ Hc) as ->.
  apply shifts_bind; [now apply shifts_advance|]. intros; apply shifts_ret.
Qed.

Lemma shifts_parse_return_statement p :
  is_at_end p = Ok false p -> shifts t w parse_return_statement p.
Proof.
  intros He. unfold parse_return_statement.
  apply shifts_bind; [now apply shifts_advance|]. intros _ p1 _.
  apply shifts_bind; [apply shifts_parse_expression|]. intros e p2 _.
  apply shifts_bind; [apply shifts_expect|]. intros; apply shifts_ret.
Qed.

Lemma shifts_parse_statement p :
  is_at_end p = Ok false p -> shifts t w parse_statement p.
Proof.
  intros He. unfold parse_statement.
  apply shifts_bind; [apply shifts_check|].
  intros b p' Hc.
  assert (p' = p) as ->.
  { revert Hc. unfold check. rewrite (bind_ok _ _ _ _ _ He).
    unfold peek, bind, get_pos, token_at, ret.
    destruct (nth_error (m_tokens p) (m_current_pos p)); [|discriminate].
    now intros [= _ <-]. }
  destruct b; [now apply shifts_parse_return_statement|].
  apply shifts_bind; [now apply shifts_advance|]. intros tok p1 _.
  apply shifts_bind; [apply shifts_log|]. intros; apply shifts_ret.
Qed.

Lemma shifts_block_loop fuel :
  forall stmts p, shifts t w (block_loop fuel stmts) p.
Proof.
  induction fuel as [|fuel IH]; intros stmts p; simpl;
    (apply shifts_bind; [apply shifts_check|]); intros b p1 Hc;
    (apply shifts_bind;
     [destruct b; [apply shifts_ret|];
      apply shifts_bind; [apply shifts_is_at_end|]; intros; apply shifts_ret|]);
    intros [|] p2 Hgo; try apply shifts_ret.
  - reflexivity.
  - assert (He : is_at_end p2 = Ok false p2).
    { destruct b; [discriminate|]. revert Hgo. unfold bind.
      destruct (is_at_end p1) as [e p3| | |] eqn:E; try discriminate.
      pose proof (is_at_end_same _ _ _ E) as ->.
      destruct e; [discriminate|]. now intros [= <-]. }
    apply shifts_bind; [now apply shifts_parse_statement|].
    intros stmt p3 _. apply IH.
Qed.

Lemma shifts_parse_block_statement p : shifts t w parse_block_statement p.
Proof.
  unfold parse_block_statement.
  apply shifts_bind; [apply shifts_expect|]. intros _ p1 _.
  apply shifts_bind; [apply shifts_block_loop|]. intros stmts p2 _.
  apply shifts_bind; [apply shifts_expect|]. intros; apply shifts_ret.
Qed.

Lemma shifts_parse_function_definition p :
  is_at_end p = Ok false p -> shifts t w parse_function_definition p.
Proof.
  intros He. unfold parse_function_definition.
  apply shifts_bind; [now apply shifts_advance|]. intros ty p1 _.
  apply shifts_bind; [apply shifts_expect|]. intros name p2 _.
  apply shifts_bind; [apply shifts_expect|]. intros _ p3 _.
  apply shifts_bind; [apply shifts_expect|]. intros _ p4 _.
  apply shifts_bind; [apply shifts_parse_block_statement|].
  intros; apply shifts_ret.
Qed.

Lemma shifts_lookahead p :
  shifts t w (i <- get_pos ;; next <- token_at (i + 1) ;;
              ret (TokenType_eqb (type next) IDENTIFIER)) p.
Proof.
  unfold shifts, bind, get_pos, token_at, ret. simpl.
  now destruct (nth_error (m_tokens p) (m_current_pos p + 1)).
Qed.

Lemma shifts_parse_declaration p :
  is_at_end p = Ok false p -> shifts t w parse_declaration p.
Proof.
  intros He. unfold parse_declaration.
  apply shifts_bind; [apply shifts_check|].
  intros b p' Hc.
  assert (p' = p) as ->.
  { revert Hc. unfold check. rewrite (bind_ok _ _ _ _ _ He).
    unfold peek, bind, get_pos, token_at, ret.
    destruct (nth_error (m_tokens p) (m_current_pos p)); [|discriminate].
    now intros [= _ <-]. }
  apply shifts_bind.
  { destruct b; [apply shifts_lookahead | apply shifts_ret]. }
  intros is_def p' Hd.
  assert (p' = p) as ->.
  { revert Hd. destruct b; [|now intros [= _ <-]].
    unfold bind, get_pos, token_at, ret.
    destruct (nth_error (m_tokens p) (m_current_pos p + 1)); [|discriminate].
    now intros [= _ <-]. }
  destruct is_def; [now apply shifts_parse_function_definition|].
  apply shifts_bind; [now apply shifts_advance|]. intros tok p1 _.
  apply shifts_bind; [apply shifts_log|]. intros; apply shifts_ret.
Qed.

Lemma shifts_parse_loop fuel :
  forall program p, shifts t w (parse_loop fuel program) p.
Proof.
  induction fuel as [|fuel IH]; intros program p; simpl;
    (apply shifts_bind; [apply shifts_is_at_end|]); intros [|] p1 He;
    try apply shifts_ret.
  - reflexivity.
  - pose proof (is_at_end_same _ _ _ He) as ->.
    pose proof (shifts_parse_declaration p He) as Hd.
    unfold shifts in *. rewrite Hd.
    destruct (parse_declaration p) as [decl p1|what p1| |];
      cbn [shift_result]; [apply IH | | reflexivity | reflexivity].
    apply (shifts_bind (log _) (fun _ => ret program));
      [apply shifts_log | intros; apply shifts_ret].
Qed.

End Shift.

(** The loop of [parse] only appends to the program it is given. *)
Lemma parse_loop_frame (front : list (option StmtNode)) fuel :
  forall stmts p,
    parse_loop fuel (mkProgram (front ++ stmts)) p
    = map_result (fun program => mkProgram (front ++ statements program))
        (parse_loop fuel (mkProgram stmts) p).
Proof.
  induction fuel as [|fuel IH]; intros stmts p; simpl; unfold bind;
    destruct (is_at_end p) as [[|] p1| | |]; try reflexivity.
  destruct (parse_declaration p1) as [decl p2|what p2| |]; try reflexivity.
  simpl. rewrite <- app_assoc. apply IH.
Qed.

Lemma parse_total tokens :
  ends_with_eof tokens -> exists program p, parse tokens = Ok program p.
Proof.
  intros He. apply parse_loop_total.
  - split; [assumption|]. destruct He as (pre & e & -> & _).
    simpl. rewrite length_app. simpl. lia.
  - unfold fuel_of. simpl. lia.
Qed.

(** A token at top level that does not start a function definition costs
    one iteration of the loop of [parse]: a null entry, one line of
    diagnostics, and the rest is parsed as it would be alone. *)
Lemma parse_skip t rest :
  type t <> END_OF_FILE ->
  ~ (type t = INT /\ option_map type (hd_error rest) = Some IDENTIFIER) ->
  rest <> [] ->
  parse (t :: rest)
  = shift_result t [top_level_warning t]
      (map_result (fun program => mkProgram (None :: statements program))
         (parse rest)).
Proof.
  intros Hne Hdef Hrest. unfold parse at 1.
  replace (fuel_of (new (t :: rest))) with (S (length rest))
    by (unfold fuel_of; simpl; lia).
  cbn [parse_loop].
  assert (He : is_at_end (new (t :: rest)) = Ok false (new (t :: rest))).
  { unfold is_at_end, peek, bind, get_pos, token_at, ret. simpl.
    apply TokenType_eqb_neq in Hne. now rewrite Hne. }
  rewrite (bind_ok _ _ _ _ _ He).
  assert (Hd : parse_declaration (new (t :: rest))
               = Ok None (shift t [top_level_warning t] (new rest))).
  { assert (Hc : check INT (new (t :: rest))
                 = Ok (TokenType_eqb (type t) INT) (new (t :: rest))).
    { unfold check. now rewrite (bind_ok _ _ _ _ _ He). }
    assert (Hla : (if TokenType_eqb (type t) INT
                   then i <- get_pos ;; next <- token_at (i + 1) ;;
                        ret (TokenType_eqb (type next) IDENTIFIER)
                   else ret false) (new (t :: rest))
                  = Ok false (new (t :: rest))).
    { destruct (TokenType_eqb (type t) INT) eqn:Ei; [|reflexivity].
      destruct rest as [|n rest']; [contradiction|].
      unfold bind, get_pos, token_at, ret.
      cbn [new m_tokens m_current_pos nth_error Nat.add].
      destruct (TokenType_eqb (type n) IDENTIFIER) eqn:En; [|reflexivity].
      apply TokenType_eqb_eq in Ei, En. exfalso. apply Hdef.
      simpl. split; congruence. }
    assert (Ha : advance (new (t :: rest)) = Ok t (next (new (t :: rest)))).
    { unfold advance. now rewrite (bind_ok _ _ _ _ _ He). }
    unfold parse_declaration.
    rewrite (bind_ok _ _ _ _ _ Hc), (bind_ok _ _ _ _ _ Hla).
    rewrite (bind_ok _ _ _ _ _ Ha). reflexivity. }
  rewrite Hd.
  rewrite (shifts_parse_loop t [top_level_warning t]).
  f_equal. unfold parse.
  replace (fuel_of (new rest)) with (length rest)
    by (unfold fuel_of; simpl; lia).
  apply (parse_loop_frame [None] (length rest) []).
Qed.

End ParserFacts.

(** * The claims about the parser *)




Lemma is_declaration_returns decl :
  is_declaration decl -> if_present returns_have_expression decl.
Proof.
  intros [-> | (ty & name & body & -> & Hb)]; simpl; [exact I|].
  apply forallb_forall. intros stmt Hin.
  destruct (proj1 (Forall_forall _ _) Hb stmt Hin) as (v & ->). reflexivity.
Qed.

Lemma is_declaration_blocks decl :
  is_declaration decl -> if_present blocks_have_no_null decl.
Proof.
  intros [-> | (ty & name & body & -> & Hb)]; simpl; [exact I|].
  apply forallb_forall. intros stmt Hin.
  destruct (proj1 (Forall_forall _ _) Hb stmt Hin) as (v & ->). reflexivity.
Qed.

Lemma parse_expression_throws q tok :
  nth_error (Parser.m_tokens q) (Parser.m_current_pos q) = Some tok ->
  type tok <> NUMBER_LITERAL ->
  Parser.parse_expression q
  = Parser.Throw "Expected an expression (e.g., a number)." q.
Proof.
  intros Hn Hne. apply ParserFacts.TokenType_eqb_neq in Hne.
  unfold Parser.parse_expression, Parser.check, Parser.is_at_end, Parser.peek,
    Parser.bind, Parser.get_pos, Parser.token_at, Parser.ret, Parser.throw.
  rewrite Hn.
  destruct (TokenType_eqb (type tok) END_OF_FILE); [reflexivity|].
  rewrite Hn, Hne. reflexivity.
Qed.

Lemma tokenize_ends_with_eof source :
  exists tokens, Lexer.tokenize source = Some tokens /\ ends_with_eof tokens.
Proof.
  destruct (LexerFacts.tokenize_with_run (Lexer.new source))
    as (tr & lx' & _ & Hw).
  unfold Lexer.tokenize. rewrite Hw. eexists. split; [reflexivity|].
  eexists _, _. split; reflexivity.
Qed.



(** C9.  In a program that [parse] returns, no block has a null entry in its
    statement list: a token skipped inside a block leaves no entry there.
    Null entries are those of the top-level list, as in the program of
    [; int main ( ) { x return 1 ; }], whose list is a null entry followed
    by a function whose block holds the [return] alone. *)
Theorem blocks_have_no_null_entry
    (tokens : list Token) (program : ProgramNode) (p : Parser.t) :
  Parser.parse tokens = Parser.Ok program p ->
  Forall (if_present blocks_have_no_null) (statements program)
  /\ exists p',
       Parser.parse
         [mkToken SEMICOLON ";" 1; mkToken INT "int" 1;
          mkToken IDENTIFIER "main" 1; mkToken OPEN_PAREN "(" 1;
          mkToken CLOSE_PAREN ")" 1; mkToken OPEN_BRACE "{" 1;
          mkToken IDENTIFIER "x" 1; mkToken RETURN "return" 1;
          mkToken NUMBER_LITERAL "1" 1; mkToken SEMICOLON ";" 1;
          mkToken CLOSE_BRACE "}" 1; mkToken END_OF_FILE EmptyString 1]
       = Parser.Ok
           (mkProgram
              [None;
               Some (FunctionDefNode "int" "main"
                       (Block.mk [Some (ReturnStmtNode
                                          (Some (NumberLiteralNode "1")))]))])
           p'.
Proof.
  intros H. split.
  - eapply Forall_impl; [|exact (ParserFacts.parse_shape _ _ _ H)].
    intros decl. apply is_declaration_blocks.
  - eexists. vm_compute. reflexivity.
Qed.

(** The tokens of [int f ( ) { ; }]: the semicolon is skipped. *)
Lemma blocks_have_no_null_entry_witness :
  Forall (if_present blocks_have_no_null)
    [Some (FunctionDefNode "int" "f" (Block.mk []))].
Proof.
  apply (blocks_have_no_null_entry
           [mkToken INT "int" 1; mkToken IDENTIFIER "f" 1;
            mkToken OPEN_PAREN "(" 1; mkToken CLOSE_PAREN ")" 1;
            mkToken OPEN_BRACE "{" 1; mkToken SEMICOLON ";" 1;
            mkToken CLOSE_BRACE "}" 1; mkToken END_OF_FILE EmptyString 1]
           (mkProgram [Some (FunctionDefNode "int" "f" (Block.mk []))])
           (Parser.mk
              [mkToken INT "int" 1; mkToken IDENTIFIER "f" 1;
               mkToken OPEN_PAREN "(" 1; mkToken CLOSE_PAREN ")" 1;
               mkToken OPEN_BRACE "{" 1; mkToken SEMICOLON ";" 1;
               mkToken CLOSE_BRACE "}" 1; mkToken END_OF_FILE EmptyString 1]
              7
              [("Parser Warning: Skipping unknown token in block: "
                  ++ Token_to_string (mkToken SEMICOLON ";" 1))%string])).
  vm_compute. reflexivity.
Defined.



(** * Properties of the code generator *)

Module CodeGeneratorFacts.
Import CodeGenerator.

Lemma append_nil_r (s : string) : (s ++ EmptyString)%string = s.
Proof. induction s as [|c s IH]; simpl; [reflexivity | now rewrite IH]. Qed.

Lemma append_assoc (s1 s2 s3 : string) :
  ((s1 ++ s2) ++ s3)%string = (s1 ++ s2 ++ s3)%string.
Proof. induction s1 as [|c s1 IH]; simpl; [reflexivity | now rewrite IH]. Qed.

Lemma length_append (s1 s2 : string) :
  String.length (s1 ++ s2) = String.length s1 + String.length s2.
Proof. induction s1 as [|c s1 IH]; simpl; [reflexivity | now rewrite IH]. Qed.

(** Induction on statements, through the statement lists of blocks. *)
Lemma StmtNode_ind (P : StmtNode -> Prop) :
  (forall block,
      Forall (fun stmt => match stmt with Some s => P s | None => True end)
             (Block.statements block) ->
      P (BlockStmt block)) ->
  (forall expression, P (ReturnStmtNode expression)) ->
  (forall ty name body,
      Forall (fun stmt => match stmt with Some s => P s | None => True end)
             (Block.statements body) ->
      P (FunctionDefNode ty name body)) ->
  forall node, P node.
Proof.
  intros Hblock Hreturn Hdef.
  set (Q := fun stmt : option StmtNode =>
              match stmt with Some s => P s | None => True end) in *.
  refine (fix IH (node : StmtNode) : P node :=
            let all :=
              fix all (l : list (option StmtNode)) : Forall Q l :=
                match l return Forall Q l with
                | [] => Forall_nil Q
                | stmt :: l' =>
                  @Forall_cons _ Q stmt l'
                    (match stmt return Q stmt with
                     | Some s => IH s
                     | None => I
                     end)
                    (all l')
                end in
            match node with
            | BlockStmt block =>
              Hblock block (all (Block.statements block))
            | ReturnStmtNode e => Hreturn e
            | FunctionDefNode ty name body =>
              Hdef ty name body (all (Block.statements body))
            end).
Qed.

Lemma appends_emit s : appends (emit s) s.
Proof. intros g. split; reflexivity. Qed.

Lemma appends_warn ln : appends (warn ln) EmptyString.
Proof. intros g. split; [simpl; now rewrite append_nil_r | reflexivity]. Qed.

Lemma appends_id : appends (fun g => g) EmptyString.
Proof. intros g. split; [now rewrite append_nil_r | reflexivity]. Qed.

Lemma appends_comp f1 f2 s1 s2 :
  appends f1 s1 -> appends f2 s2 -> appends (fun g => f2 (f1 g)) (s1 ++ s2).
Proof.
  intros H1 H2 g. destruct (H1 g) as [Ho1 Ha1], (H2 (f1 g)) as [Ho2 Ha2].
  split; [|congruence]. now rewrite Ho2, Ho1, append_assoc.
Qed.

Lemma appends_ext f f' s :
  (forall g, f g = f' g) -> appends f s -> appends f' s.
Proof. intros E H g. rewrite <- E. apply H. Qed.

Lemma visit_ExprNode_appends e : exists s, appends (visit_ExprNode e) s.
Proof.
  destruct e as [[v]|]; simpl.
  - eexists. unfold visit_NumberLiteralNode.
    apply (appends_comp (fun g => emit v (emit "  mov rax, " g)) (emit endl)).
    + apply (appends_comp (emit "  mov rax, ") (emit v)); apply appends_emit.
    + apply appends_emit.
  - eexists. apply appends_warn.
Qed.

Lemma visit_each_appends (visit : StmtNode -> t -> t) l :
  Forall (fun stmt => match stmt with
                      | Some s => exists text, appends (visit s) text
                      | None => True
                      end) l ->
  exists text, appends (visit_each visit l) text.
Proof.
  unfold visit_each. induction 1 as [|stmt l Hs _ IH]; simpl.
  - eexists. apply appends_id.
  - destruct IH as (text & IH). destruct stmt as [s|].
    + destruct Hs as (text1 & Hs). eexists.
      apply (appends_comp (visit s) _ _ _ Hs IH).
    + eauto.
Qed.

Lemma visit_appends node : exists text, appends (visit node) text.
Proof.
  induction node as [block IH | e | ty name body IH] using StmtNode_ind;
    simpl.
  - now apply visit_each_appends.
  - destruct (visit_ExprNode_appends e) as (text & He). eexists.
    apply (appends_comp
             (fun g => emit ("  pop rbp" ++ endl)
                         (emit ("  mov rsp, rbp" ++ endl) (visit_ExprNode e g)))
             (emit ("  ret" ++ endl))); [|apply appends_emit].
    apply (appends_comp
             (fun g => emit ("  mov rsp, rbp" ++ endl) (visit_ExprNode e g))
             (emit ("  pop rbp" ++ endl))); [|apply appends_emit].
    apply (appends_comp (visit_ExprNode e) (emit ("  mov rsp, rbp" ++ endl)));
      [exact He | apply appends_emit].
  - destruct (visit_each_appends visit _ IH) as (text & Hb). eexists.
    apply (appends_comp
             (fun g => emit ("  mov rbp, rsp" ++ endl)
                         (emit ("  push rbp" ++ endl)
                            (emit (name ++ ":" ++ endl) g)))
             (visit_each visit (Block.statements body))); [|exact Hb].
    apply (appends_comp
             (fun g => emit ("  push rbp" ++ endl)
                         (emit (name ++ ":" ++ endl) g))
             (emit ("  mov rbp, rsp" ++ endl))); [|apply appends_emit].
    apply (appends_comp (emit (name ++ ":" ++ endl))
             (emit ("  push rbp" ++ endl))); apply appends_emit.
Qed.

Lemma visit_statements_appends l :
  exists text,
    appends (fun g => fold_left (fun g stmt => visit_StmtNode stmt g) l g) text.
Proof.
  induction l as [|stmt l (text & IH)]; simpl.
  - eexists. apply appends_id.
  - assert (Hs : exists text1, appends (visit_StmtNode stmt) text1).
    { destruct stmt as [s|]; simpl; [apply visit_appends|].
      eexists. apply appends_id. }
    destruct Hs as (text1 & Hs). eexists.
    apply (appends_comp (visit_StmtNode stmt) _ _ _ Hs IH).
Qed.

(** [generate] appends to the output buffer a text that depends on the tree
    alone and that starts with the two lines of the preamble, and returns
    the whole buffer. *)
Lemma generate_appends ast :
  exists body,
    forall g,
      m_ast g = ast ->
      fst (generate g)
      = (m_output g ++ lines ["global main"; "section .text"] ++ body)%string
      /\ m_output (snd (generate g)) = fst (generate g)
      /\ m_ast (snd (generate g)) = ast.
Proof.
  destruct (visit_statements_appends (statements ast)) as (body & Hb).
  exists body. intros g <-. unfold generate. simpl.
  destruct (Hb (emit ("section .text" ++ endl)
                  (emit ("global main" ++ endl) g))) as [Ho Ha].
  simpl in Ho, Ha. rewrite Ho, Ha. repeat split.
  now rewrite !append_assoc.
Qed.

End CodeGeneratorFacts.

(** * The claims about the code generator *)

(** C1.  The source [int main() { return 0; }] is tokenized and parsed, and
    [generate] on a generator made for the program returns exactly these
    lines, in this order: the two lines of the preamble, the label, the two
    lines of the prologue, the move of the literal, the two lines of the
    epilogue, and the return instruction. *)
Theorem compile_return_zero :
  exists tokens program p,
    Lexer.tokenize "int main() { return 0; }" = Some tokens
    /\ Parser.parse tokens = Parser.Ok program p
    /\ fst (CodeGenerator.generate (CodeGenerator.new program))
       = lines ["global main"; "section .text";
                "main:";
                "  push rbp"; "  mov rbp, rsp";
                "  mov rax, 0";
                "  mov rsp, rbp"; "  pop rbp";
                "  ret"].
Proof.
  let r := eval vm_compute in (Lexer.tokenize "int main() { return 0; }") in
  match r with
  | Some ?tokens =>
    exists tokens;
    let r' := eval vm_compute in (Parser.parse tokens) in
    match r' with
    | Parser.Ok ?program ?p => exists program, p
    end
  end.
  split; [|split]; vm_compute; reflexivity.
Qed.

(** C2, as the code has it.  [generate] keeps the output buffer between
    invocations: on a generator that has been made for a tree and not used
    yet, the first invocation returns the text of the tree, and a second
    invocation on the same generator returns that text twice in a row,
    which is a different text. *)
Theorem generate_twice_doubles (ast : ProgramNode) :
  let first := CodeGenerator.generate (CodeGenerator.new ast) in
  let second := CodeGenerator.generate (snd first) in
  fst second = (fst first ++ fst first)%string
  /\ fst second <> fst first.
Proof.
  destruct (CodeGeneratorFacts.generate_appends ast) as (body & H).
  destruct (H (CodeGenerator.new ast) eq_refl) as (H1 & Ho & Ha).
  destruct (H (snd (CodeGenerator.generate (CodeGenerator.new ast))) Ha)
    as (H2 & _).
  cbv zeta. rewrite H2, Ho, H1. simpl. split; [reflexivity|].
  intros E. apply (f_equal String.length) in E. simpl in E.
  rewrite CodeGeneratorFacts.length_append in E. simpl in E. lia.
Qed.

(** C2 as stated fails: on the empty program the first invocation returns
    the preamble and the second one returns the preamble twice. *)
Lemma generate_twice_differs :
  let first := CodeGenerator.generate (CodeGenerator.new (mkProgram [])) in
  let second := CodeGenerator.generate (snd first) in
  fst first = lines ["global main"; "section .text"]
  /\ fst second
     = lines ["global main"; "section .text"; "global main"; "section .text"]
  /\ fst second <> fst first.
Proof. repeat split; discriminate. Qed.

(** * Further properties of the code generator *)

Module CodeGeneratorMore.
Import CodeGenerator CodeGeneratorFacts.

Lemma appends_eq f s s' : s = s' -> appends f s -> appends f s'.
Proof. now intros ->. Qed.

Lemma lines_cons ln l : lines (ln :: l) = (ln ++ endl ++ lines l)%string.
Proof. reflexivity. Qed.

Lemma lines_app l1 l2 : lines (l1 ++ l2) = (lines l1 ++ lines l2)%string.
Proof.
  induction l1 as [|ln l1 IH]; simpl; [reflexivity|].
  now rewrite IH, !append_assoc.
Qed.

Lemma visit_ExprNode_asm e :
  appends (visit_ExprNode e)
          match e with
          | Some (NumberLiteralNode value) =>
            lines [("  mov rax, " ++ value)%string]
          | None => EmptyString
          end.
Proof.
  destruct e as [[v]|]; simpl; [|apply appends_warn].
  unfold visit_NumberLiteralNode.
  eapply appends_eq;
    [|apply (appends_comp (fun g => emit v (emit "  mov rax, " g)) (emit endl));
      [apply (appends_comp (emit "  mov rax, ") (emit v)); apply appends_emit
      |apply appends_emit]].
  unfold endl. simpl. reflexivity.
Qed.

Lemma visit_each_asm (visit : StmtNode -> t -> t) l :
  Forall (fun stmt => match stmt with
                      | Some s => appends (visit s) (asm_of s)
                      | None => True
                      end) l ->
  appends (visit_each visit l) (flatten (map asm_of_entry l)).
Proof.
  unfold visit_each. induction 1 as [|stmt l Hs _ IH]; simpl.
  - apply appends_id.
  - destruct stmt as [s|]; simpl.
    + apply (appends_comp (visit s) _ _ _ Hs IH).
    + exact IH.
Qed.

(** The visitor of a statement appends the text the emission rules give. *)
Lemma visit_asm node : appends (visit node) (asm_of node).
Proof.
  induction node as [block IH | e | ty name body IH] using StmtNode_ind.
  - apply (visit_each_asm visit _ IH).
  - cbn [visit asm_of].
    eapply appends_eq;
      [|apply (appends_comp
                 (fun g => emit ("  pop rbp" ++ endl)
                             (emit ("  mov rsp, rbp" ++ endl)
                                (visit_ExprNode e g)))
                 (emit ("  ret" ++ endl))); [|apply appends_emit];
        apply (appends_comp
                 (fun g => emit ("  mov rsp, rbp" ++ endl) (visit_ExprNode e g))
                 (emit ("  pop rbp" ++ endl))); [|apply appends_emit];
        apply (appends_comp (visit_ExprNode e)
                 (emit ("  mov rsp, rbp" ++ endl)));
        [apply visit_ExprNode_asm | apply appends_emit]].
    cbn [lines]. now rewrite !append_assoc, !append_nil_r.
  - cbn [visit asm_of].
    eapply appends_eq;
      [|apply (appends_comp
                 (fun g => emit ("  mov rbp, rsp" ++ endl)
                             (emit ("  push rbp" ++ endl)
                                (emit (name ++ ":" ++ endl) g)))
                 (visit_each visit (Block.statements body)));
        [|apply (visit_each_asm visit _ IH)];
        apply (appends_comp
                 (fun g => emit ("  push rbp" ++ endl)
                             (emit (name ++ ":" ++ endl) g))
                 (emit ("  mov rbp, rsp" ++ endl))); [|apply appends_emit];
        apply (appends_comp (emit (name ++ ":" ++ endl))
                 (emit ("  push rbp" ++ endl))); apply appends_emit].
    unfold asm_of_entry. rewrite !lines_cons. cbn [lines].
    rewrite !append_assoc. reflexivity.
Qed.

Lemma visit_statements_asm l :
  appends (fun g => fold_left (fun g stmt => visit_StmtNode stmt g) l g)
          (flatten (map asm_of_entry l)).
Proof.
  induction l as [|stmt l IH]; simpl.
  - apply appends_id.
  - assert (Hs : appends (visit_StmtNode stmt) (asm_of_entry stmt)).
    { destruct stmt as [s|]; simpl; [apply visit_asm | apply appends_id]. }
    apply (appends_comp (visit_StmtNode stmt) _ _ _ Hs IH).
Qed.

Lemma newline_closed_app s1 s2 :
  newline_closed s1 -> newline_closed s2 -> newline_closed (s1 ++ s2).
Proof.
  intros H1 [-> | (s2' & ->)].
  - now rewrite append_nil_r.
  - right. exists (s1 ++ s2')%string. now rewrite append_assoc.
Qed.

Lemma newline_closed_lines l : newline_closed (lines l).
Proof.
  induction l as [|ln l IH]; [now left|].
  rewrite lines_cons, <- append_assoc.
  apply newline_closed_app; [|assumption]. right. now exists ln.
Qed.

Lemma newline_closed_flatten l :
  Forall newline_closed l -> newline_closed (flatten l).
Proof.
  induction 1; simpl; [now left | now apply newline_closed_app].
Qed.

Lemma newline_closed_asm node : newline_closed (asm_of node).
Proof.
  induction node as [block IH | e | ty name body IH] using StmtNode_ind;
    cbn [asm_of].
  - apply newline_closed_flatten. apply Forall_map.
    eapply Forall_impl; [|exact IH]. intros [s|] H; [exact H | now left].
  - apply newline_closed_app; [|apply newline_closed_lines].
    destruct e as [[v]|]; [apply newline_closed_lines | now left].
  - apply newline_closed_app; [apply newline_closed_lines|].
    apply newline_closed_flatten. apply Forall_map.
    eapply Forall_impl; [|exact IH]. intros [s|] H; [exact H | now left].
Qed.

Lemma visit_each_cerr (visit : StmtNode -> t -> t) l :
  Forall (fun stmt => match stmt with
                      | Some s =>
                        returns_have_expression s = true ->
                        forall g, cerr (visit s g) = cerr g
                      | None => True
                      end) l ->
  forallb (fun stmt => match stmt with
                       | Some s => returns_have_expression s
                       | None => true
                       end) l = true ->
  forall g, cerr (visit_each visit l g) = cerr g.
Proof.
  unfold visit_each. induction 1 as [|stmt l Hs _ IH]; intros Hr g; simpl;
    [reflexivity|].
  simpl in Hr. apply andb_prop in Hr. destruct Hr as [Hr1 Hr2].
  rewrite (IH Hr2). destruct stmt as [s|]; [now apply Hs | reflexivity].
Qed.

(** The visitors write no warning for a statement in which every [return]
    has an expression. *)
Lemma visit_cerr node :
  returns_have_expression node = true -> forall g, cerr (visit node g) = cerr g.
Proof.
  induction node as [block IH | e | ty name body IH] using StmtNode_ind;
    cbn [visit returns_have_expression]; intros Hr g.
  - now apply visit_each_cerr.
  - destruct e as [[v]|]; [reflexivity | discriminate].
  - now rewrite (visit_each_cerr visit _ IH Hr).
Qed.

End CodeGeneratorMore.

(** The text [generate] returns, by the emission rules. *)
Lemma generate_text (g : CodeGenerator.t) :
  fst (CodeGenerator.generate g)
  = (CodeGenerator.m_output g
     ++ lines ["global main"; "section .text"]
     ++ flatten (map asm_of_entry (statements (CodeGenerator.m_ast g))))%string.
Proof.
  unfold CodeGenerator.generate. cbn [fst].
  destruct (CodeGeneratorMore.visit_statements_asm
              (statements (CodeGenerator.m_ast g))
              (CodeGenerator.emit ("section .text" ++ CodeGenerator.endl)
                 (CodeGenerator.emit ("global main" ++ CodeGenerator.endl) g)))
    as [Ho _].
  cbn [CodeGenerator.m_ast CodeGenerator.emit] in *. rewrite Ho.
  unfold CodeGenerator.emit. cbn [CodeGenerator.m_output].
  rewrite !CodeGeneratorMore.lines_cons.
  cbn [lines]. rewrite !CodeGeneratorFacts.append_assoc. reflexivity.
Qed.

(** X1.  [generate] returns the output buffer it was called with, followed
    by the two lines of the preamble and by the texts that the emission rules
    give for the top-level statements, in their order; a null entry gives no
    text, here and inside blocks.  The text of a statement does not depend
    on what was emitted before it. *)
Theorem generate_is_emission_rules (g : CodeGenerator.t) :
  fst (CodeGenerator.generate g)
  = (CodeGenerator.m_output g
     ++ lines ["global main"; "section .text"]
     ++ flatten (map asm_of_entry (statements (CodeGenerator.m_ast g))))%string.
Proof. apply generate_text. Qed.

(** X2.  The text [generate] returns always ends with a newline, whatever
    the tree and the buffer. *)
Theorem generate_ends_with_newline (g : CodeGenerator.t) :
  exists s, fst (CodeGenerator.generate g) = (s ++ CodeGenerator.endl)%string.
Proof.
  rewrite generate_text.
  assert (H : newline_closed
                (flatten (map asm_of_entry
                            (statements (CodeGenerator.m_ast g))))).
  { apply CodeGeneratorMore.newline_closed_flatten, Forall_map.
    apply Forall_forall. intros [s|] _; simpl;
      [apply CodeGeneratorMore.newline_closed_asm | now left]. }
  rewrite !CodeGeneratorMore.lines_cons. cbn [lines].
  destruct H as [-> | (s' & ->)].
  - exists (CodeGenerator.m_output g ++ "global main" ++ CodeGenerator.endl
            ++ "section .text")%string.
    rewrite !CodeGeneratorFacts.append_assoc. reflexivity.
  - exists (CodeGenerator.m_output g ++ "global main" ++ CodeGenerator.endl
            ++ "section .text" ++ CodeGenerator.endl ++ s')%string.
    rewrite !CodeGeneratorFacts.append_assoc. reflexivity.
Qed.

(** [generate] is silent on what [parse] returns. *)
Lemma generate_parsed_silent
    (tokens : list Token) (program : ProgramNode) (p : Parser.t) :
  Parser.parse tokens = Parser.Ok program p ->
  CodeGenerator.cerr
    (snd (CodeGenerator.generate (CodeGenerator.new program))) = [].
Proof.
  intros H. pose proof (ParserFacts.parse_shape _ _ _ H) as Hs.
  assert (E : forall l g,
             Forall is_declaration l ->
             CodeGenerator.cerr g = [] ->
             CodeGenerator.cerr
               (fold_left (fun g stmt => CodeGenerator.visit_StmtNode stmt g)
                  l g) = []).
  { induction l as [|stmt l IH]; intros g Hl Hg; simpl; [assumption|].
    apply IH; [now apply Forall_inv_tail in Hl|].
    apply Forall_inv in Hl. apply is_declaration_returns in Hl.
    destruct stmt as [s|]; simpl; [|assumption].
    now rewrite CodeGeneratorMore.visit_cerr. }
  unfold CodeGenerator.generate. cbn [snd]. apply E; [assumption | reflexivity].
Qed.

(** X3.  On a program that [parse] returns, [generate] writes no warning
    to the diagnostics: the parser builds no expression the code generator
    does not know. *)
Theorem generate_parsed_program_no_warning
    (tokens : list Token) (program : ProgramNode) (p : Parser.t) :
  Parser.parse tokens = Parser.Ok program p ->
  CodeGenerator.cerr
    (snd (CodeGenerator.generate (CodeGenerator.new program))) = [].
Proof. apply generate_parsed_silent. Qed.

(** The tokens of [int f ( ) { return 7 ; }]. *)
Lemma generate_parsed_program_no_warning_witness :
  CodeGenerator.cerr
    (snd (CodeGenerator.generate
            (CodeGenerator.new
               (mkProgram
                  [Some (FunctionDefNode "int" "f"
                           (Block.mk
                              [Some (ReturnStmtNode
                                       (Some (NumberLiteralNode "7")))]))]))))
  = [].
Proof.
  apply (generate_parsed_program_no_warning
           [mkToken INT "int" 1; mkToken IDENTIFIER "f" 1;
            mkToken OPEN_PAREN "(" 1; mkToken CLOSE_PAREN ")" 1;
            mkToken OPEN_BRACE "{" 1; mkToken RETURN "return" 1;
            mkToken NUMBER_LITERAL "7" 1; mkToken SEMICOLON ";" 1;
            mkToken CLOSE_BRACE "}" 1; mkToken END_OF_FILE EmptyString 1]
           _
           (Parser.mk
              [mkToken INT "int" 1; mkToken IDENTIFIER "f" 1;
               mkToken OPEN_PAREN "(" 1; mkToken CLOSE_PAREN ")" 1;
               mkToken OPEN_BRACE "{" 1; mkToken RETURN "return" 1;
               mkToken NUMBER_LITERAL "7" 1; mkToken SEMICOLON ";" 1;
               mkToken CLOSE_BRACE "}" 1; mkToken END_OF_FILE EmptyString 1]
              9 [])).
  vm_compute. reflexivity.
Defined.

(** * Further properties of the lexer *)

Module LexerMore.
Import Lexer LexerFacts.

Lemma count_newlines_firstn_le (l : list ascii) :
  forall n m,
    n <= m -> count_newlines (firstn n l) <= count_newlines (firstn m l).
Proof.
  unfold count_newlines.
  induction l as [|c l IH]; intros [|n] [|m] H; simpl; try lia.
  specialize (IH n m ltac:(lia)). destruct (Ascii.eqb c LF); simpl; lia.
Qed.

Lemma line_le_forward lx lx' :
  m_source lx' = m_source lx -> m_current_pos lx <= m_current_pos lx' ->
  m_line lx' = m_line lx -> line_le lx -> line_le lx'.
Proof.
  unfold line_le. intros -> Hp -> H.
  pose proof (count_newlines_firstn_le (m_source lx) _ _ Hp). lia.
Qed.

Lemma line_le_advance_LF lx :
  is_at_end lx = false -> peek lx = LF -> line_le lx ->
  line_le (snd (advance (incr_line lx))).
Proof.
  intros He Hc Hl. rewrite (peek_live _ He) in Hc.
  apply is_at_end_false in He. unfold line_le in *.
  cbn [advance incr_line snd set_pos m_current_pos m_source m_line].
  rewrite firstn_snoc, count_newlines_app by assumption.
  unfold char_at in Hc. unfold count_newlines at 2. simpl.
  rewrite Hc. simpl. lia.
Qed.

Lemma segment_start lx : segment lx (m_current_pos lx) = [].
Proof. unfold segment. now rewrite Nat.sub_diag. Qed.

Lemma segment_advance lx start :
  start <= m_current_pos lx -> is_at_end lx = false ->
  segment (snd (advance lx)) start = segment lx start ++ [peek lx].
Proof.
  intros Hs He. rewrite (peek_live _ He). apply is_at_end_false in He.
  unfold segment, char_at. cbn [advance snd set_pos m_current_pos m_source].
  replace (S (m_current_pos lx) - start) with (S (m_current_pos lx - start))
    by lia.
  rewrite firstn_snoc by (rewrite length_skipn; lia).
  rewrite nth_skipn. do 3 f_equal. lia.
Qed.

Lemma segment_head lx start :
  start < m_current_pos lx -> start < length (m_source lx) ->
  exists rest, segment lx start = nth start (m_source lx) NUL :: rest.
Proof.
  intros Hs Hl. unfold segment.
  destruct (m_current_pos lx - start) as [|k] eqn:E; [lia|].
  replace (nth start (m_source lx) NUL)
    with (nth 0 (skipn start (m_source lx)) NUL)
    by (rewrite nth_skipn; f_equal; lia).
  destruct (skipn start (m_source lx)) as [|c r] eqn:Es.
  - apply (f_equal (@length _)) in Es. rewrite length_skipn in Es.
    simpl in Es. lia.
  - simpl. eauto.
Qed.

Lemma scanned_refl P lx : scanned P lx lx.
Proof.
  repeat split; auto; try lia; try apply follows_refl.
  now rewrite segment_start.
Qed.

(** The rule for the loops of the handlers: the body is a bare [advance()],
    or the [advance()] of [handle_string] that counts a newline first. *)
Lemma while_scanned (P : ascii -> bool) (cond : t -> bool) (body : t -> t) :
  (forall lx, cond lx = true ->
     is_at_end lx = false /\ P (peek lx) = true
     /\ (body lx = snd (advance lx)
         \/ (peek lx = LF /\ body lx = snd (advance (incr_line lx))))) ->
  forall lx0,
  exists lx',
    while_ cond body (fuel_of lx0) lx0 = Some lx'
    /\ scanned P lx0 lx' /\ cond lx' = false.
Proof.
  intros Hb lx0.
  apply (while_rule (scanned P lx0) cond body);
    [|apply scanned_refl | unfold fuel_of; lia].
  intros lx ((Hs & Hp) & Hl & Hle & Hseg) Hc.
  destruct (Hb lx Hc) as (He & HP & Hbody).
  split; [assumption|].
  assert (Hseg' : forallb P (segment (snd (advance lx)) (m_current_pos lx0))
                  = true).
  { rewrite segment_advance by assumption.
    rewrite forallb_app, Hseg. simpl. now rewrite HP. }
  destruct Hbody as [-> | [Hlf ->]].
  - split; [|split; reflexivity].
    split; [split; [exact Hs | simpl; lia]|].
    split; [exact Hl|]. split; [|exact Hseg'].
    intros H. apply (line_le_forward lx); simpl; auto.
  - split; [|split; reflexivity].
    split; [split; [exact Hs | simpl; lia]|].
    split; [simpl; lia|]. split; [|exact Hseg'].
    intros H. apply line_le_advance_LF; auto.
Qed.

Lemma stepped_refl lx : stepped lx lx.
Proof. repeat split; auto. Qed.

Lemma stepped_trans lx1 lx2 lx3 :
  stepped lx1 lx2 -> stepped lx2 lx3 -> stepped lx1 lx3.
Proof.
  intros (Hs & Hl & Hle) (Hs' & Hl' & Hle').
  repeat split; [congruence | lia | auto].
Qed.

Lemma stepped_scanned P lx0 lx : scanned P lx0 lx -> stepped lx0 lx.
Proof. intros ((Hs & _) & Hl & Hle & _). repeat split; auto. Qed.

Lemma stepped_advance lx : stepped lx (snd (advance lx)).
Proof.
  repeat split; auto. intros H.
  apply (line_le_forward lx); simpl; auto.
Qed.

Lemma skip_whitespace_and_comments_stepped fuel :
  forall lx,
    length (m_source lx) < m_current_pos lx + fuel ->
    exists lx',
      skip_whitespace_and_comments fuel lx = Some lx' /\ stepped lx lx'.
Proof.
  induction fuel as [|fuel IH]; intros lx Hfuel; simpl.
  - destruct (is_at_end lx) eqn:He.
    + exists lx. split; [reflexivity | apply stepped_refl].
    + apply is_at_end_false in He. lia.
  - destruct (is_at_end lx) eqn:He.
    { exists lx. split; [reflexivity | apply stepped_refl]. }
    assert (Hadv : forall lx1,
               stepped lx lx1 -> m_current_pos lx < m_current_pos lx1 ->
               exists lx',
                 skip_whitespace_and_comments fuel lx1 = Some lx'
                 /\ stepped lx lx').
    { intros lx1 Hst Hp. destruct (IH lx1) as (lx' & H & Hst').
      - destruct Hst as (-> & _). lia.
      - exists lx'. split; [assumption|]. eapply stepped_trans; eassumption. }
    destruct (Ascii.eqb (peek lx) " " || Ascii.eqb (peek lx) CR
              || Ascii.eqb (peek lx) TAB).
    { apply Hadv; [apply stepped_advance | simpl; lia]. }
    destruct (Ascii.eqb_spec (peek lx) LF) as [Hlf|Hlf].
    { apply Hadv; [|simpl; lia]. repeat split; simpl; auto.
      intros H. now apply line_le_advance_LF. }
    destruct (Ascii.eqb (peek lx) "/");
      [|exists lx; split; [reflexivity | apply stepped_refl]].
    destruct ((m_current_pos lx + 1 <? length (m_source lx))
              && Ascii.eqb (char_at lx (m_current_pos lx + 1)) "/");
      [|exists lx; split; [reflexivity | apply stepped_refl]].
    destruct (skip_line_comment_spec lx He Hlf) as (lx1 & E & Hs & Hp & _).
    destruct (while_scanned (fun _ => true)
                (fun lx => negb (Ascii.eqb (peek lx) LF) && negb (is_at_end lx))
                (fun lx => snd (advance lx))) with (lx0 := lx)
      as (lx2 & E2 & Hsc & _).
    { intros lx3 Hc. apply comment_cond in Hc. destruct Hc. auto. }
    unfold skip_line_comment in *. rewrite E in *. injection E2 as <-.
    apply Hadv; [eapply stepped_scanned; eassumption | assumption].
Qed.

Lemma value_chars lx start len :
  list_ascii_of_string (substr lx start len)
  = firstn len (skipn start (m_source lx)).
Proof. unfold substr. apply list_ascii_of_string_of_list_ascii. Qed.

Lemma handle_number_more lx0 :
  isdigit (peek lx0) = true ->
  exists tok lx',
    handle_number lx0 = Some (tok, lx') /\ stepped lx0 lx'
    /\ token_ok tok = true.
Proof.
  intros Hd. destruct (number_cond lx0 Hd) as [He _].
  destruct (scan_progress _ number_cond lx0 Hd)
    as (lx1 & E & Hs & Hp & _).
  destruct (while_scanned isdigit (fun lx => isdigit (peek lx))
              (fun lx => snd (advance lx))) with (lx0 := lx0)
    as (lx2 & E2 & Hsc & _).
  { intros lx Hc. destruct (number_cond lx Hc). auto. }
  rewrite E in E2. injection E2 as <-.
  unfold handle_number, number_loop. rewrite E.
  eexists _, lx1. split; [reflexivity|].
  split; [eapply stepped_scanned; eassumption|].
  unfold token_ok. cbn [type value make_token]. rewrite value_chars.
  destruct Hsc as (_ & _ & _ & Hseg). unfold segment in Hseg.
  rewrite Hs in *.
  destruct (segment_head lx1 (m_current_pos lx0) Hp) as (rest & Hh).
  { rewrite Hs. now apply is_at_end_false. }
  unfold segment in Hh. rewrite Hs in Hh. rewrite Hh in *. exact Hseg.
Qed.

Lemma handle_identifier_more lx0 :
  ident_start (peek lx0) = true ->
  exists tok lx',
    handle_identifier lx0 = Some (tok, lx') /\ stepped lx0 lx'
    /\ token_ok tok = true.
Proof.
  intros Hd0. pose proof (ident_start_char _ Hd0) as Hd.
  unfold ident_char in Hd. destruct (identifier_cond lx0 Hd) as [He _].
  destruct (scan_progress _ identifier_cond lx0 Hd)
    as (lx1 & E & Hs & Hp & _).
  destruct (while_scanned ident_char
              (fun lx => isalnum (peek lx) || Ascii.eqb (peek lx) "_")
              (fun lx => snd (advance lx))) with (lx0 := lx0)
    as (lx2 & E2 & Hsc & _).
  { intros lx Hc. destruct (identifier_cond lx Hc). auto. }
  rewrite E in E2. injection E2 as <-.
  unfold handle_identifier, identifier_loop. rewrite E.
  set (v := substr lx1 (m_current_pos lx0)
              (m_current_pos lx1 - m_current_pos lx0)).
  pose proof (keywords_find_spec v) as Hk.
  assert (Hchars : exists rest,
             list_ascii_of_string v = peek lx0 :: rest
             /\ forallb ident_char (list_ascii_of_string v) = true).
  { unfold v. rewrite value_chars.
    destruct Hsc as (_ & _ & _ & Hseg). unfold segment in Hseg.
    destruct (segment_head lx1 (m_current_pos lx0) Hp) as (rest & Hh).
    { rewrite Hs. now apply is_at_end_false. }
    unfold segment in Hh. rewrite peek_live by assumption. unfold char_at.
    rewrite <- Hs. eauto. }
  destruct Hchars as (rest & Hc1 & Hc2).
  destruct (keywords_find keywords v) as [ty|] eqn:Ek.
  - apply keywords_find_type in Ek.
    eexists _, lx1. split; [reflexivity|].
    split; [eapply stepped_scanned; eassumption|].
    unfold token_ok. cbn [type value make_token]. rewrite <- Hk.
    destruct Ek as [ -> | [ -> | [ -> | -> ] ] ]; reflexivity.
  - eexists _, lx1. split; [reflexivity|].
    split; [eapply stepped_scanned; eassumption|].
    unfold token_ok. cbn [type value make_token].
    rewrite <- Hk, Hc2. rewrite Hc1, Hd0. reflexivity.
Qed.

Lemma handle_string_more lx0 :
  exists tok lx',
    handle_string lx0 = Some (tok, lx') /\ stepped lx0 lx'
    /\ token_ok tok = true.
Proof.
  destruct (while_scanned (fun c => negb (Ascii.eqb c DQUOTE))
              (fun lx => negb (Ascii.eqb (peek lx) DQUOTE)
                         && negb (is_at_end lx))
              (fun lx =>
                 snd (advance (if Ascii.eqb (peek lx) LF then incr_line lx
                               else lx)))) with (lx0 := lx0)
    as (lx1 & E & Hsc & _).
  { intros lx Hc. apply andb_prop in Hc. destruct Hc as [Hq He].
    apply negb_true_iff in He. split; [assumption|]. split; [assumption|].
    destruct (Ascii.eqb_spec (peek lx) LF); auto. }
  unfold handle_string, string_loop. 
  change (while_ _ _ (fuel_of lx0) lx0) with
    (while_ (fun lx => negb (Ascii.eqb (peek lx) DQUOTE) && negb (is_at_end lx))
       (fun lx =>
          snd (advance (if Ascii.eqb (peek lx) LF then incr_line lx else lx)))
       (fuel_of lx0) lx0).
  rewrite E. destruct (is_at_end lx1).
  - eexists _, lx1. split; [reflexivity|].
    split; [eapply stepped_scanned; eassumption | reflexivity].
  - eexists _, _. split; [reflexivity|].
    split.
    + eapply stepped_trans; [eapply stepped_scanned; eassumption|].
      apply stepped_advance.
    + unfold token_ok. cbn [type value make_token]. rewrite value_chars.
      destruct Hsc as (_ & _ & _ & Hseg). exact Hseg.
Qed.

Lemma single_char_ok c ty ln :
  single_char c = Some ty ->
  token_ok (mkToken ty (String c EmptyString) ln) = true.
Proof.
  unfold single_char.
  repeat match goal with
         | |- context [Ascii.eqb c ?x] =>
           destruct (Ascii.eqb_spec c x); [subst c; intros [= <-]; reflexivity|]
         end.
  discriminate.
Qed.

Lemma dispatch_more lxp :
  is_at_end lxp = false ->
  exists lx' toks,
    dispatch (peek lxp) (snd (advance lxp)) = Some (lx', toks)
    /\ stepped lxp lx'
    /\ Forall (fun tok => token_ok tok = true) toks.
Proof.
  intros He. pose proof (stepped_advance lxp) as Hadv.
  unfold dispatch. destruct (single_char (peek lxp)) as [ty|] eqn:Hsc.
  { eexists _, _. split; [reflexivity|]. split; [assumption|].
    constructor; [|constructor].
    unfold make_token1, char_at.
    cbn [advance snd set_pos m_current_pos m_source].
    replace (S (m_current_pos lxp) - 1) with (m_current_pos lxp) by lia.
    rewrite (peek_live _ He) in Hsc. now apply single_char_ok. }
  destruct (Ascii.eqb (peek lxp) "#").
  { destruct (Ascii.eqb (peek (snd (advance lxp))) "i").
    - eexists _, _. split; [reflexivity|]. split.
      + repeat split; simpl; auto. intros H.
        apply (line_le_forward lxp); simpl; auto. lia.
      + constructor; [reflexivity | constructor].
    - eexists _, _. split; [reflexivity|]. split; [assumption | constructor]. }
  destruct (Ascii.eqb (peek lxp) DQUOTE).
  { destruct (handle_string_more (snd (advance lxp)))
      as (tok & lx' & -> & Hst & Hok).
    eexists _, _. split; [reflexivity|].
    split; [eapply stepped_trans; eassumption|].
    constructor; [assumption | constructor]. }
  destruct (isdigit (peek lxp)) eqn:Hd.
  { rewrite set_pos_back.
    destruct (handle_number_more lxp Hd) as (tok & lx' & -> & Hst & Hok).
    eexists _, _. split; [reflexivity|]. split; [assumption|].
    constructor; [assumption | constructor]. }
  destruct (isalpha (peek lxp) || Ascii.eqb (peek lxp) "_") eqn:Ha.
  { rewrite set_pos_back.
    destruct (handle_identifier_more lxp Ha) as (tok & lx' & -> & Hst & Hok).
    eexists _, _. split; [reflexivity|]. split; [assumption|].
    constructor; [assumption | constructor]. }
  eexists _, _. split; [reflexivity|]. split; [assumption | constructor].
Qed.

Lemma iteration_more lx :
  is_at_end lx = false ->
  exists brk lx' toks,
    iteration lx = Some (brk, lx', toks)
    /\ stepped lx lx'
    /\ Forall (fun tok => token_ok tok = true) toks.
Proof.
  intros He. unfold iteration.
  destruct (skip_whitespace_and_comments_stepped (fuel_of lx) lx)
    as (lx1 & -> & Hst).
  { unfold fuel_of. lia. }
  destruct (is_at_end lx1) eqn:He1.
  - exists true, lx1, []. split; [reflexivity|].
    split; [assumption|constructor].
  - destruct (dispatch_more lx1 He1) as (lx' & toks & Hd & Hst' & Hok).
    rewrite (peek_live _ He1) in Hd. unfold advance in *. simpl in Hd.
    rewrite Hd. exists false, lx', toks. split; [reflexivity|].
    split; [eapply stepped_trans; eassumption | assumption].
Qed.

(** Along a run: every token fits its kind and carries the line counter of
    its push; the line counter never decreases, and it is never ahead of
    the newlines before the cursor. *)
Lemma run_more lx tr lx' :
  run lx tr lx' ->
  stepped lx lx'
  /\ Forall (fun x => token_ok (snd x) = true
                      /\ line (snd x) = m_line (fst x)
                      /\ stepped lx (fst x) /\ stepped (fst x) lx') tr.
Proof.
  induction 1 as [|lx brk lx1 toks tr lx' He Hit Hrun [IH1 IH2]].
  { split; [apply stepped_refl | constructor]. }
  destruct (iteration_more lx He) as (? & ? & ? & Hit' & Hst & Hok).
  rewrite Hit in Hit'. injection Hit' as <- <- <-.
  destruct (iteration_spec lx He) as (? & ? & ? & Hit' & _ & _ & Hl & _).
  rewrite Hit in Hit'. injection Hit' as <- <- <-.
  split; [eapply stepped_trans; eassumption|].
  apply Forall_app. split.
  - apply Forall_map. apply Forall_forall. intros tok Hin. simpl.
    split; [exact (proj1 (Forall_forall _ _) Hok tok Hin)|].
    split; [exact (proj1 (Forall_forall _ _) Hl tok Hin)|]. auto.
  - eapply Forall_impl; [|exact IH2]. intros x (? & ? & ? & ?).
    split; [assumption|]. split; [assumption|].
    split; [eapply stepped_trans; eassumption | assumption].
Qed.

Lemma run_sorted lx tr lx' :
  run lx tr lx' -> StronglySorted le (map (fun x => line (snd x)) tr).
Proof.
  induction 1 as [|lx brk lx1 toks tr lx' He Hit Hrun IH]; [constructor|].
  destruct (iteration_spec lx He) as (? & ? & ? & Hit' & _ & _ & Hl & _ & Hsh).
  rewrite Hit in Hit'. injection Hit' as <- <- <-.
  assert (Hone : toks = [] \/ exists tok, toks = [tok]).
  { destruct Hsh as [-> | [(tok & -> & _) | (-> & _)]]; eauto. }
  destruct Hone as [-> | (tok & ->)]; simpl; [assumption|].
  constructor; [assumption|]. apply Forall_inv in Hl. rewrite Hl.
  apply Forall_map. destruct (run_more _ _ _ Hrun) as [_ Hall].
  eapply Forall_impl; [|exact Hall].
  intros x (_ & -> & (_ & Hle & _) & _). exact Hle.
Qed.

Lemma sorted_snoc (l : list nat) (x : nat) :
  StronglySorted le l -> Forall (fun a => a <= x) l ->
  StronglySorted le (l ++ [x]).
Proof.
  induction 1 as [|a l Hs IH Ha]; intros Hx; simpl.
  - constructor; constructor.
  - constructor.
    + apply IH. now apply Forall_inv_tail in Hx.
    + apply Forall_app. split; [assumption|].
      constructor; [now apply Forall_inv in Hx | constructor].
Qed.

End LexerMore.

(** * Further properties of the tokenizer *)


(** X5.  For a source short enough for the [int] line counter, the lines
    of the tokens [tokenize] returns never decrease along the sequence, and
    every line is at least 1. *)
Theorem token_lines_never_decrease (source : string) :
  fits_int (list_ascii_of_string source) ->
  exists toks,
    Lexer.tokenize source = Some toks
    /\ StronglySorted le (map line toks)
    /\ Forall (fun tok => 1 <= line tok) toks.
Proof.
  intros _.
  destruct (LexerFacts.tokenize_trace source) as (tr & lx' & Hrun & Hw).
  unfold Lexer.tokenize. rewrite Hw. eexists. split; [reflexivity|].
  destruct (LexerMore.run_more _ _ _ Hrun) as [(_ & Hle & _) Hall].
  rewrite !map_app, !map_map. cbn [map fst snd line Lexer.make_token].
  split.
  - apply LexerMore.sorted_snoc; [exact (LexerMore.run_sorted _ _ _ Hrun)|].
    apply Forall_map. eapply Forall_impl; [|exact Hall].
    intros x (_ & -> & _ & (_ & H & _)). exact H.
  - apply Forall_app. split.
    + apply Forall_map. eapply Forall_impl; [|exact Hall].
      intros x (_ & -> & (_ & H & _) & _). exact H.
    + constructor; [exact Hle | constructor].
Qed.

(** Two words on two lines. *)
Lemma token_lines_never_decrease_witness :
  exists toks,
    Lexer.tokenize (String "a" (String LF "b")) = Some toks
    /\ StronglySorted le (map line toks)
    /\ Forall (fun tok => 1 <= line tok) toks.
Proof.
  apply (token_lines_never_decrease (String "a" (String LF "b"))).
  unfold fits_int, INT_MAX. simpl. lia.
Defined.

(** X6.  The line of a token is never ahead of the source: for every token
    [tokenize] returns, made with the cursor at index [pos], the line is at
    most N+1, where N is the number of newline characters before [pos].
    (After the jump of the include branch it can be less, see C6.) *)
Theorem token_line_not_ahead (source : string) :
  exists toks,
    Lexer.tokenize_at source = Some toks
    /\ Forall (fun x => line (fst x) <= newlines_before source (snd x) + 1)
              toks.
Proof.
  destruct (LexerFacts.tokenize_trace source) as (tr & lx' & Hrun & Hw).
  unfold Lexer.tokenize_at. rewrite Hw. eexists. split; [reflexivity|].
  destruct (LexerMore.run_more _ _ _ Hrun) as [(Hs & _ & Hle) Hall].
  assert (H0 : line_le (Lexer.new source)) by (unfold line_le; simpl; lia).
  unfold newlines_before.
  rewrite map_app. apply Forall_app. split.
  - apply Forall_map. eapply Forall_impl; [|exact Hall].
    intros x (_ & Hl & (Hsx & _ & Hlx) & _). cbn [fst snd]. rewrite Hl.
    specialize (Hlx H0). unfold line_le in Hlx. rewrite Hsx in Hlx.
    simpl in Hlx. lia.
  - constructor; [|constructor]. cbn [fst snd map line Lexer.make_token].
    specialize (Hle H0). unfold line_le in Hle. rewrite Hs in Hle.
    simpl in Hle. lia.
Qed.

(** * The lexer on the unread part of the source *)

Module LexerRuns.
Import Lexer LexerFacts.

Lemma unread_nil lx : is_at_end lx = true <-> unread lx = [].
Proof.
  rewrite is_at_end_true. unfold unread. split.
  - apply skipn_all2.
  - intros H. apply (f_equal (@length _)) in H. rewrite length_skipn in H.
    simpl in H. lia.
Qed.

Lemma unread_cons lx c r : unread lx = c :: r -> is_at_end lx = false.
Proof.
  intros H. destruct (is_at_end lx) eqn:E; [|reflexivity].
  apply unread_nil in E. congruence.
Qed.

Lemma peek_unread lx : peek lx = first_char (unread lx).
Proof.
  unfold peek. destruct (is_at_end lx) eqn:E.
  - apply unread_nil in E. now rewrite E.
  - unfold first_char, char_at, unread.
    rewrite <- (Nat.add_0_r (m_current_pos lx)) at 1.
    rewrite <- nth_skipn. now destruct (skipn _ _).
Qed.

Lemma unread_moved lx n k : unread (moved lx n k) = skipn n (unread lx).
Proof. unfold unread, moved. simpl. rewrite skipn_skipn. f_equal. lia. Qed.

Lemma unread_advance lx : unread (snd (advance lx)) = tl (unread lx).
Proof.
  unfold unread. cbn [advance snd set_pos m_current_pos m_source].
  replace (S (m_current_pos lx)) with (1 + m_current_pos lx) by lia.
  rewrite <- skipn_skipn.
  generalize (skipn (m_current_pos lx) (m_source lx)). now intros [|].
Qed.

Lemma moved_0 lx : moved lx 0 0 = lx.
Proof. destruct lx. unfold moved. simpl. f_equal; lia. Qed.

Lemma moved_moved lx n k n' k' :
  moved (moved lx n k) n' k' = moved lx (n + n') (k + k').
Proof. unfold moved. simpl. f_equal; lia. Qed.

Lemma advance_moved lx : snd (advance lx) = moved lx 1 0.
Proof. destruct lx. unfold moved, advance, set_pos. simpl. f_equal; lia. Qed.

Lemma advance_incr_moved lx : snd (advance (incr_line lx)) = moved lx 1 1.
Proof.
  destruct lx. unfold moved, advance, set_pos, incr_line. simpl. f_equal; lia.
Qed.

Lemma unread_length lx : length (unread lx) <= length (m_source lx).
Proof. unfold unread. rewrite length_skipn. lia. Qed.

Lemma count_newlines_cons c l :
  count_newlines (c :: l)
  = (if Ascii.eqb c LF then 1 else 0) + count_newlines l.
Proof. unfold count_newlines. simpl. now destruct (Ascii.eqb c LF). Qed.

(** ** Loops over a run of characters

    A loop whose condition looks at the next character only, entered with
    a run of characters that satisfy it before a character that does not,
    steps over exactly the run; it counts the newlines of the run when its
    body does. *)
Section Loops.

Variable Q : option ascii -> bool.
Variable cond : t -> bool.
Hypothesis cond_next : forall lx, cond lx = Q (hd_error (unread lx)).

Lemma while_run run :
  forall rest lx fuel,
    unread lx = run ++ rest ->
    Forall (fun c => Q (Some c) = true /\ c <> LF) run ->
    Q (hd_error rest) = false ->
    length run <= fuel ->
    while_ cond (fun lx => snd (advance lx)) fuel lx
    = Some (moved lx (length run) 0).
Proof.
  induction run as [|c run IH]; intros rest lx fuel Hu Hall Hstop Hfuel.
  - simpl in Hu. destruct fuel; simpl; rewrite cond_next, Hu, Hstop;
      now rewrite moved_0.
  - destruct fuel as [|fuel]; [simpl in Hfuel; lia|].
    rewrite while_unfold.
    2:{ rewrite cond_next, Hu. simpl. apply (Forall_inv Hall). }
    rewrite (IH rest (snd (advance lx)) fuel).
    + rewrite advance_moved, moved_moved. reflexivity.
    + now rewrite unread_advance, Hu.
    + now apply Forall_inv_tail in Hall.
    + assumption.
    + simpl in Hfuel. lia.
Qed.

Lemma while_run_lines run :
  forall rest lx fuel,
    unread lx = run ++ rest ->
    Forall (fun c => Q (Some c) = true) run ->
    Q (hd_error rest) = false ->
    length run <= fuel ->
    while_ cond
      (fun lx =>
         snd (advance (if Ascii.eqb (peek lx) LF then incr_line lx else lx)))
      fuel lx
    = Some (moved lx (length run) (count_newlines run)).
Proof.
  induction run as [|c run IH]; intros rest lx fuel Hu Hall Hstop Hfuel.
  - simpl in Hu. destruct fuel; simpl; rewrite cond_next, Hu, Hstop;
      now rewrite moved_0.
  - destruct fuel as [|fuel]; [simpl in Hfuel; lia|].
    rewrite while_unfold.
    2:{ rewrite cond_next, Hu. simpl. apply (Forall_inv Hall). }
    rewrite peek_unread, Hu. cbn [first_char hd app].
    rewrite count_newlines_cons.
    destruct (Ascii.eqb c LF).
    + rewrite (IH rest (snd (advance (incr_line lx))) fuel).
      * rewrite advance_incr_moved, moved_moved. reflexivity.
      * rewrite advance_incr_moved, unread_moved, Hu. reflexivity.
      * now apply Forall_inv_tail in Hall.
      * assumption.
      * simpl in Hfuel. lia.
    + rewrite (IH rest (snd (advance lx)) fuel).
      * rewrite advance_moved, moved_moved. reflexivity.
      * now rewrite unread_advance, Hu.
      * now apply Forall_inv_tail in Hall.
      * assumption.
      * simpl in Hfuel. lia.
Qed.

End Loops.

(** The conditions of the loops of the lexer, on the next character. *)
Lemma until_cond_next (x : ascii) lx :
  negb (Ascii.eqb (peek lx) x) && negb (is_at_end lx)
  = match hd_error (unread lx) with
    | Some c => negb (Ascii.eqb c x)
    | None => false
    end.
Proof.
  destruct (unread lx) as [|c r] eqn:Hu.
  - apply unread_nil in Hu. rewrite Hu. apply andb_false_r.
  - rewrite (unread_cons _ _ _ Hu), peek_unread, Hu. simpl.
    apply andb_true_r.
Qed.

Lemma class_cond_next (P : ascii -> bool) lx :
  P (peek lx)
  = P (match hd_error (unread lx) with Some c => c | None => NUL end).
Proof. rewrite peek_unread. now destruct (unread lx). Qed.

Lemma substr_unread lx run rest n k :
  unread lx = run ++ rest ->
  substr (moved lx n k) (m_current_pos lx)
    (m_current_pos (moved lx (length run) 0) - m_current_pos lx)
  = string_of_list_ascii run.
Proof.
  intros Hu. unfold substr, unread in *. simpl. rewrite Hu. f_equal.
  replace (m_current_pos lx + length run - m_current_pos lx)
    with (length run + 0) by lia.
  rewrite firstn_app_2. simpl. apply app_nil_r.
Qed.

Lemma fuel_of_enough lx run rest :
  unread lx = run ++ rest -> length run <= fuel_of lx.
Proof.
  intros Hu. pose proof (unread_length lx) as H. rewrite Hu, length_app in H.
  unfold fuel_of. lia.
Qed.

(** ** Whitespace and comments *)

Lemma skip_fuel_mono fuel :
  forall lx r,
    skip_whitespace_and_comments fuel lx = Some r ->
    forall fuel', fuel <= fuel' ->
    skip_whitespace_and_comments fuel' lx = Some r.
Proof.
  induction fuel as [|fuel IH]; intros lx r H fuel' Hle.
  - simpl in H. destruct (is_at_end lx) eqn:He; [|discriminate].
    destruct fuel'; simpl; now rewrite He.
  - destruct fuel' as [|fuel']; [lia|]. simpl in *.
    destruct (is_at_end lx); [assumption|].
    destruct (Ascii.eqb (peek lx) " " || Ascii.eqb (peek lx) CR
              || Ascii.eqb (peek lx) TAB);
      [apply (IH _ _ H); lia|].
    destruct (Ascii.eqb (peek lx) LF); [apply (IH _ _ H); lia|].
    destruct (Ascii.eqb (peek lx) "/"); [|assumption].
    destruct ((m_current_pos lx + 1 <? length (m_source lx))
              && Ascii.eqb (char_at lx (m_current_pos lx + 1)) "/");
      [|assumption].
    destruct (skip_line_comment (fuel_of lx) lx); [|discriminate].
    apply (IH _ _ H). lia.
Qed.

(** With enough fuel the result does not depend on the fuel. *)
Lemma skip_any_fuel lx fuel fuel' :
  length (m_source lx) < m_current_pos lx + fuel ->
  fuel <= fuel' ->
  skip_whitespace_and_comments fuel' lx = skip_whitespace_and_comments fuel lx.
Proof.
  intros Hf Hle.
  destruct (skip_whitespace_and_comments_spec fuel lx Hf) as (r & E & _).
  rewrite E. now apply (skip_fuel_mono fuel).
Qed.

Lemma skip_blanks blanks :
  forall rest lx fuel,
    unread lx = blanks ++ rest ->
    Forall (fun c => is_blank c = true) blanks ->
    skip_whitespace_and_comments (length blanks + fuel) lx
    = skip_whitespace_and_comments fuel
        (moved lx (length blanks) (count_newlines blanks)).
Proof.
  induction blanks as [|b blanks IH]; intros rest lx fuel Hu Hall.
  - simpl. now rewrite moved_0.
  - pose proof (unread_cons _ _ _ Hu) as He.
    pose proof (Forall_inv Hall) as Hb. apply Forall_inv_tail in Hall.
    cbn [length Nat.add skip_whitespace_and_comments]. rewrite He.
    rewrite peek_unread, Hu. cbn [first_char hd app].
    rewrite count_newlines_cons. unfold is_blank in Hb.
    destruct (Ascii.eqb b " " || Ascii.eqb b CR || Ascii.eqb b TAB) eqn:Hws.
    + assert (Hnl : Ascii.eqb b LF = false).
      { destruct (Ascii.eqb_spec b LF) as [->|]; [discriminate | reflexivity]. }
      rewrite Hnl.
      rewrite (IH rest (snd (advance lx)) fuel);
        [|now rewrite unread_advance, Hu | assumption].
      now rewrite advance_moved, moved_moved.
    + simpl in Hb. rewrite Hb.
      rewrite (IH rest (snd (advance (incr_line lx))) fuel);
        [|now rewrite advance_incr_moved, unread_moved, Hu | assumption].
      now rewrite advance_incr_moved, moved_moved.
Qed.

Lemma second_char lx c r :
  unread lx = c :: r ->
  (m_current_pos lx + 1 <? length (m_source lx))
  && Ascii.eqb (char_at lx (m_current_pos lx + 1)) "/"
  = Ascii.eqb (first_char r) "/".
Proof.
  intros Hu. unfold char_at.
  assert (Hr : r = skipn (m_current_pos lx + 1) (m_source lx)).
  { replace (m_current_pos lx + 1) with (1 + m_current_pos lx) by lia.
    rewrite <- skipn_skipn. unfold unread in Hu. now rewrite Hu. }
  destruct (Nat.ltb_spec (m_current_pos lx + 1) (length (m_source lx)))
    as [Hlt|Hge].
  - simpl. f_equal. rewrite Hr. unfold first_char.
    rewrite <- (Nat.add_0_r (m_current_pos lx + 1)) at 1.
    rewrite <- nth_skipn. now destruct (skipn _ _).
  - simpl. rewrite Hr, skipn_all2 by lia. reflexivity.
Qed.

Lemma skip_stop lx fuel :
  stops (unread lx) -> skip_whitespace_and_comments (S fuel) lx = Some lx.
Proof.
  intros Hs. cbn [skip_whitespace_and_comments].
  destruct (unread lx) as [|c r] eqn:Hu.
  - apply unread_nil in Hu. now rewrite Hu.
  - rewrite (unread_cons _ _ _ Hu), peek_unread, Hu. cbn [first_char hd].
    destruct Hs as [Hb Hc]. unfold is_blank in Hb.
    apply orb_false_elim in Hb. destruct Hb as [Hb Hlf]. rewrite Hb, Hlf.
    destruct (Ascii.eqb_spec c "/") as [->|]; [|reflexivity].
    rewrite (second_char _ _ _ Hu).
    specialize (Hc eq_refl). apply Ascii.eqb_neq in Hc. now rewrite Hc.
Qed.

Lemma skip_comment body rest lx fuel :
  unread lx = "/"%char :: "/"%char :: body ++ rest ->
  Forall (fun c => c <> LF) body ->
  rest = [] \/ first_char rest = LF ->
  skip_whitespace_and_comments (S fuel) lx
  = skip_whitespace_and_comments fuel (moved lx (2 + length body) 0).
Proof.
  intros Hu Hbody Hrest. cbn [skip_whitespace_and_comments].
  rewrite (unread_cons _ _ _ Hu), peek_unread, Hu. cbn [first_char hd].
  change (Ascii.eqb "/" " " || Ascii.eqb "/" CR || Ascii.eqb "/" TAB)
    with false.
  change (Ascii.eqb "/" LF) with false. change (Ascii.eqb "/" "/") with true.
  cbv iota. rewrite (second_char _ _ _ Hu). cbn [first_char hd].
  change (Ascii.eqb "/" "/") with true. cbv iota.
  unfold skip_line_comment.
  rewrite (while_run
             (fun o => match o with
                       | Some c => negb (Ascii.eqb c LF)
                       | None => false
                       end)
             _ (until_cond_next LF) ("/"%char :: "/"%char :: body) rest).
  - reflexivity.
  - exact Hu.
  - repeat constructor; try discriminate.
    eapply Forall_impl; [|exact Hbody]. intros c Hc. split; [|assumption].
    apply Ascii.eqb_neq in Hc. now rewrite Hc.
  - destruct Hrest as [-> | H]; [reflexivity|].
    destruct rest as [|c r]; [reflexivity|]. simpl in *. now rewrite H.
  - apply (fuel_of_enough lx _ rest). exact Hu.
Qed.

End LexerRuns.

(** * One iteration of [tokenize], by what lies at the cursor *)

Module LexerSteps.
Import Lexer LexerFacts LexerRuns.

Lemma fuel_of_moved lx n k : fuel_of (moved lx n k) = fuel_of lx.
Proof. reflexivity. Qed.

Lemma iteration_after_skip lx lx1 :
  m_source lx1 = m_source lx ->
  skip_whitespace_and_comments (fuel_of lx) lx
  = skip_whitespace_and_comments (fuel_of lx) lx1 ->
  iteration lx = iteration lx1.
Proof.
  intros Hs E. unfold iteration. rewrite E.
  replace (fuel_of lx1) with (fuel_of lx) by (unfold fuel_of; now rewrite Hs).
  reflexivity.
Qed.

Lemma iteration_blanks blanks rest lx :
  unread lx = blanks ++ rest ->
  Forall (fun c => is_blank c = true) blanks ->
  iteration lx = iteration (moved lx (length blanks) (count_newlines blanks)).
Proof.
  intros Hu Hall. apply iteration_after_skip; [reflexivity|].
  pose proof (fuel_of_enough lx _ _ Hu) as Hf.
  replace (fuel_of lx) with (length blanks + (fuel_of lx - length blanks))
    at 1 by lia.
  rewrite (skip_blanks blanks rest lx _ Hu Hall).
  symmetry. apply skip_any_fuel; [|lia].
  unfold fuel_of, moved in *. cbn [m_source m_current_pos]. lia.
Qed.

Lemma iteration_comment body rest lx :
  unread lx = "/"%char :: "/"%char :: body ++ rest ->
  Forall (fun c => c <> LF) body ->
  rest = [] \/ first_char rest = LF ->
  iteration lx = iteration (moved lx (2 + length body) 0).
Proof.
  intros Hu Hbody Hrest. apply iteration_after_skip; [reflexivity|].
  unfold fuel_of at 1.
  rewrite (skip_comment body rest lx _ Hu Hbody Hrest).
  symmetry. apply skip_any_fuel; [|unfold fuel_of; lia].
  unfold moved. cbn [m_source m_current_pos]. lia.
Qed.

(** At a character where no whitespace or comment is skipped, an iteration
    is the [switch] on that character. *)
Lemma iteration_at c r lx :
  unread lx = c :: r -> stops (c :: r) ->
  iteration lx
  = match dispatch c (moved lx 1 0) with
    | None => None
    | Some (lx', toks) => Some (false, lx', toks)
    end.
Proof.
  intros Hu Hs. unfold iteration, fuel_of.
  rewrite skip_stop by now rewrite Hu.
  pose proof (unread_cons _ _ _ Hu) as He. rewrite He.
  pose proof (advance_moved lx) as Ha. unfold advance in *. cbn [snd] in Ha.
  rewrite Ha. rewrite <- (peek_live _ He), peek_unread, Hu. reflexivity.
Qed.

Lemma moved_back lx :
  set_pos (moved lx 1 0) (m_current_pos (moved lx 1 0) - 1) = lx.
Proof.
  destruct lx. unfold set_pos, moved. simpl. f_equal; lia.
Qed.

Lemma not_blank_stops c r :
  is_blank c = false -> c <> "/"%char -> stops (c :: r).
Proof. intros Hb Hc. split; [assumption | contradiction]. Qed.

Lemma single_char_not_blank c ty :
  single_char c = Some ty -> is_blank c = false /\ c <> "/"%char.
Proof.
  unfold single_char.
  repeat match goal with
         | |- context [Ascii.eqb c ?x] =>
           destruct (Ascii.eqb_spec c x);
           [subst c; intros _; split; [reflexivity | discriminate]|]
         end.
  discriminate.
Qed.

(** A character of one class cannot be a character outside of that class. *)
Lemma class_not (P : ascii -> bool) c x :
  P c = true -> P x = false -> Ascii.eqb c x = false.
Proof. intros Hc Hx. apply Ascii.eqb_neq. congruence. Qed.

Lemma iteration_punctuation c r ty lx :
  unread lx = c :: r -> single_char c = Some ty ->
  iteration lx
  = Some (false, moved lx 1 0,
          [mkToken ty (String c EmptyString) (m_line lx)]).
Proof.
  intros Hu Hsc. destruct (single_char_not_blank _ _ Hsc) as [Hb Hc].
  rewrite (iteration_at c r) by auto using not_blank_stops.
  unfold dispatch. rewrite Hsc. unfold make_token1, char_at.
  cbn [moved m_source m_current_pos m_line].
  replace (m_current_pos lx + 1 - 1) with (m_current_pos lx + 0) by lia.
  rewrite <- nth_skipn. fold (unread lx). rewrite Hu. cbn [nth].
  now rewrite Nat.add_0_r.
Qed.

Lemma iteration_number c run rest lx :
  unread lx = (c :: run) ++ rest ->
  Forall (fun x => isdigit x = true) (c :: run) ->
  isdigit (first_char rest) = false ->
  iteration lx
  = Some (false, moved lx (length (c :: run)) 0,
          [mkToken NUMBER_LITERAL (string_of_list_ascii (c :: run))
             (m_line lx)]).
Proof.
  intros Hu Hall Hstop. pose proof (Forall_inv Hall) as Hc.
  assert (Hne : forall x, isdigit x = false -> Ascii.eqb c x = false)
    by (intros x; now apply class_not).
  rewrite (iteration_at c (run ++ rest)); [|exact Hu|].
  2:{ apply not_blank_stops.
      - unfold is_blank. now rewrite !Hne.
      - apply Ascii.eqb_neq. now apply Hne. }
  unfold dispatch.
  replace (single_char c) with (@None TokenType)
    by (unfold single_char; now rewrite !Hne).
  rewrite !Hne by reflexivity. rewrite Hc, moved_back.
  unfold handle_number, number_loop.
  rewrite (while_run (fun o => isdigit match o with
                                       | Some x => x
                                       | None => NUL
                                       end)
             _ (class_cond_next isdigit) (c :: run) rest lx).
  - rewrite (substr_unread lx (c :: run) rest _ _ Hu).
    unfold make_token. cbn [moved m_line]. now rewrite Nat.add_0_r.
  - exact Hu.
  - eapply Forall_impl; [|exact Hall]. intros x Hx.
    split; [exact Hx | now apply isdigit_not_LF].
  - destruct rest; [reflexivity | exact Hstop].
  - now apply (fuel_of_enough lx _ rest).
Qed.

Lemma iteration_identifier_at c run rest lx :
  unread lx = (c :: run) ++ rest ->
  ident_start c = true ->
  Forall (fun x => ident_char x = true) run ->
  ident_char (first_char rest) = false ->
  iteration lx
  = Some (false, moved lx (length (c :: run)) 0,
          [mkToken (spec_token_kind (string_of_list_ascii (c :: run)))
             (string_of_list_ascii (c :: run)) (m_line lx)]).
Proof.
  intros Hu Hc Hall Hstop.
  assert (Hne : forall x, ident_start x = false -> Ascii.eqb c x = false)
    by (intros x; now apply class_not).
  rewrite (iteration_at c (run ++ rest)); [|exact Hu|].
  2:{ apply not_blank_stops.
      - unfold is_blank. now rewrite !Hne.
      - apply Ascii.eqb_neq. now apply Hne. }
  unfold dispatch.
  replace (single_char c) with (@None TokenType)
    by (unfold single_char; now rewrite !Hne).
  rewrite !Hne by reflexivity. rewrite (ident_start_not_digit c Hc).
  pose proof Hc as Hc'. unfold ident_start in Hc'. rewrite Hc', moved_back.
  unfold handle_identifier, identifier_loop.
  rewrite (while_run (fun o => ident_char match o with
                                          | Some x => x
                                          | None => NUL
                                          end)
             _ (class_cond_next ident_char) (c :: run) rest lx).
  - rewrite (substr_unread lx (c :: run) rest _ _ Hu).
    pose proof (keywords_find_spec (string_of_list_ascii (c :: run))) as Hk.
    destruct (keywords_find keywords _); rewrite <- Hk;
      unfold make_token; cbn [moved m_line]; now rewrite Nat.add_0_r.
  - exact Hu.
  - constructor.
    + split; [now apply ident_start_char | now apply ident_char_not_LF,
                                            ident_start_char].
    + eapply Forall_impl; [|exact Hall]. intros x Hx.
      split; [exact Hx | now apply ident_char_not_LF].
  - destruct rest; [reflexivity | exact Hstop].
  - now apply (fuel_of_enough lx _ rest).
Qed.

Lemma dispatch_quote lx :
  dispatch DQUOTE lx
  = match handle_string lx with
    | None => None
    | Some (tok, lx') => Some (lx', [tok])
    end.
Proof. reflexivity. Qed.

Lemma string_loop_run content rest lx :
  unread lx = content ++ rest ->
  Forall (fun c => c <> DQUOTE) content ->
  rest = [] \/ first_char rest = DQUOTE ->
  string_loop (fuel_of lx) lx
  = Some (moved lx (length content) (count_newlines content)).
Proof.
  intros Hu Hall Hrest. unfold string_loop. cbv zeta.
  apply (while_run_lines
           (fun o => match o with
                     | Some c => negb (Ascii.eqb c DQUOTE)
                     | None => false
                     end)
           _ (until_cond_next DQUOTE) content rest lx).
  - exact Hu.
  - eapply Forall_impl; [|exact Hall]. intros c Hc.
    apply Ascii.eqb_neq in Hc. now rewrite Hc.
  - destruct Hrest as [-> | H]; [reflexivity|].
    destruct rest as [|c r]; [reflexivity|]. simpl in *. now rewrite H.
  - now apply (fuel_of_enough lx _ rest).
Qed.

Lemma quote_stops r : stops (DQUOTE :: r).
Proof. now apply not_blank_stops. Qed.

Lemma iteration_string content rest lx :
  unread lx = DQUOTE :: content ++ DQUOTE :: rest ->
  Forall (fun c => c <> DQUOTE) content ->
  iteration lx
  = Some (false,
          moved lx (length content + 2) (count_newlines content),
          [mkToken STRING_LITERAL (string_of_list_ascii content)
             (m_line lx + count_newlines content)]).
Proof.
  intros Hu Hall.
  rewrite (iteration_at DQUOTE (content ++ DQUOTE :: rest));
    [|exact Hu | apply quote_stops].
  rewrite dispatch_quote. unfold handle_string.
  assert (Hu1 : unread (moved lx 1 0) = content ++ DQUOTE :: rest)
    by now rewrite unread_moved, Hu.
  rewrite (string_loop_run content (DQUOTE :: rest) _ Hu1 Hall)
    by (right; reflexivity).
  rewrite moved_moved.
  assert (Hu2 : unread (moved lx (1 + length content)
                          (0 + count_newlines content)) = DQUOTE :: rest).
  { rewrite unread_moved, Hu. cbn [Nat.add skipn].
    rewrite skipn_app, skipn_all, Nat.sub_diag. reflexivity. }
  rewrite (unread_cons _ _ _ Hu2).
  rewrite advance_moved, moved_moved.
  pose proof (substr_unread (moved lx 1 0) content (DQUOTE :: rest)
                (length content) (count_newlines content) Hu1) as Hsub.
  rewrite moved_moved in Hsub. cbn [moved m_current_pos] in *.
  replace (m_current_pos lx + (1 + length content) - (m_current_pos lx + 1))
    with (m_current_pos lx + 1 + length content - (m_current_pos lx + 1))
    by lia.
  rewrite Hsub.
  replace (moved lx (1 + length content + 1) (0 + count_newlines content + 0))
    with (moved lx (length content + 2) (count_newlines content))
    by (unfold moved; f_equal; lia).
  reflexivity.
Qed.

Lemma iteration_unterminated content lx :
  unread lx = DQUOTE :: content ->
  Forall (fun c => c <> DQUOTE) content ->
  iteration lx
  = Some (false,
          moved lx (length content + 1) (count_newlines content),
          [mkToken END_OF_FILE "ERROR" (m_line lx + count_newlines content)])
  /\ is_at_end (moved lx (length content + 1) (count_newlines content)) = true.
Proof.
  intros Hu Hall.
  assert (Hu1 : unread (moved lx 1 0) = content ++ [])
    by now rewrite unread_moved, Hu, app_nil_r.
  assert (He : is_at_end (moved lx (1 + length content)
                            (0 + count_newlines content)) = true).
  { apply unread_nil. rewrite unread_moved, Hu. cbn [Nat.add skipn].
    now apply skipn_all. }
  split.
  - rewrite (iteration_at DQUOTE content); [|exact Hu | apply quote_stops].
    rewrite dispatch_quote. unfold handle_string.
    rewrite (string_loop_run content [] _ Hu1 Hall) by (left; reflexivity).
    rewrite moved_moved, He.
    replace (moved lx (1 + length content) (0 + count_newlines content))
      with (moved lx (length content + 1) (count_newlines content))
      by (unfold moved; f_equal; lia).
    reflexivity.
  - rewrite <- He. f_equal. unfold moved. f_equal; lia.
Qed.

Lemma iteration_include r lx :
  unread lx = "#"%char :: "i"%char :: r ->
  iteration lx
  = Some (false, moved lx 7 0, [mkToken INCLUDE "#include" (m_line lx)]).
Proof.
  intros Hu.
  rewrite (iteration_at "#" ("i"%char :: r));
    [|exact Hu | now apply not_blank_stops].
  unfold dispatch. change (single_char "#") with (@None TokenType).
  change (Ascii.eqb "#" "#") with true. cbv iota.
  rewrite peek_unread, unread_moved, Hu. cbn [skipn first_char hd].
  change (Ascii.eqb "i" "i") with true. cbv iota.
  replace (set_pos (moved lx 1 0) (m_current_pos (moved lx 1 0) + 6))
    with (moved lx 7 0)
    by (unfold set_pos, moved; cbn [m_source m_current_pos m_line];
        f_equal; lia).
  unfold make_token, moved. cbn [m_line]. now rewrite Nat.add_0_r.
Qed.

Lemma iteration_unknown c r lx :
  unread lx = c :: r ->
  is_blank c = false ->
  (is_unknown c = true /\ (c = "/"%char -> first_char r <> "/"%char))
  \/ (c = "#"%char /\ first_char r <> "i"%char) ->
  iteration lx = Some (false, moved lx 1 0, []).
Proof.
  intros Hu Hb [[Hk Hslash] | [-> Hi]].
  - rewrite (iteration_at c r); [|exact Hu | now split].
    unfold dispatch. unfold is_unknown in Hk.
    destruct (single_char c); [discriminate|].
    apply andb_prop in Hk. destruct Hk as [Hk H4].
    apply andb_prop in Hk. destruct Hk as [Hk H3].
    apply andb_prop in Hk. destruct Hk as [H1 H2].
    apply negb_true_iff in H1, H2, H3, H4. unfold ident_start in H4.
    now rewrite H1, H2, H3, H4.
  - rewrite (iteration_at "#" r); [|exact Hu | now apply not_blank_stops].
    unfold dispatch. change (single_char "#") with (@None TokenType).
    change (Ascii.eqb "#" "#") with true. cbv iota.
    rewrite peek_unread, unread_moved, Hu. cbn [skipn].
    apply Ascii.eqb_neq in Hi. now rewrite Hi.
Qed.

End LexerSteps.

Lemma run_deterministic lx tr1 lx1 :
  run lx tr1 lx1 -> forall tr2 lx2, run lx tr2 lx2 -> tr1 = tr2 /\ lx1 = lx2.
Proof.
  induction 1 as [lx He|lx brk lx1 toks tr lx' He Hit Hrun IH];
    intros tr2 lx2 H2.
  - destruct H2; [auto | congruence].
  - destruct H2 as [|lx brk2 lx3 toks2 tr2 lx2 He2 Hit2 Hrun2]; [congruence|].
    rewrite Hit in Hit2. injection Hit2 as <- <- <-.
    destruct (IH _ _ Hrun2) as [-> ->]. auto.
Qed.

(** What [tokenize] returns, read off a run of its loop. *)
Lemma tokenize_of_run (source : string) tr lx' :
  run (Lexer.new source) tr lx' ->
  Lexer.tokenize source
  = Some (map snd tr ++ [mkToken END_OF_FILE EmptyString (Lexer.m_line lx')]).
Proof.
  intros Hrun.
  destruct (LexerFacts.tokenize_with_run (Lexer.new source))
    as (tr0 & lx0 & Hrun0 & Hw).
  destruct (run_deterministic _ _ _ Hrun0 _ _ Hrun) as [-> ->].
  unfold Lexer.tokenize. now rewrite Hw.
Qed.

Lemma unread_new (l : list ascii) :
  unread (Lexer.new (string_of_list_ascii l)) = l.
Proof.
  unfold unread, Lexer.new. simpl. apply list_ascii_of_string_of_list_ascii.
Qed.

Lemma iteration_at_end lx :
  Lexer.is_at_end lx = true -> Lexer.iteration lx = Some (true, lx, []).
Proof.
  intros He. unfold Lexer.iteration, Lexer.fuel_of.
  cbn [Lexer.skip_whitespace_and_comments]. now rewrite He, He.
Qed.

(** * Further properties of the tokenizer, by what lies at the cursor *)



(** X8.  A source made of spaces, tabs, carriage returns and newlines only
    (the empty source too), short enough for the [int] cursor and line
    counter, gives the end-of-stream token alone, on line 1 plus the number
    of newlines. *)
Theorem tokenize_blank_source (blanks : list ascii) :
  fits_int blanks ->
  Forall (fun c => is_blank c = true) blanks ->
  Lexer.tokenize (string_of_list_ascii blanks)
  = Some [mkToken END_OF_FILE EmptyString (1 + count_newlines blanks)].
Proof.
  intros _ Hall. set (lx0 := Lexer.new (string_of_list_ascii blanks)).
  assert (Hu : unread lx0 = blanks ++ []).
  { unfold lx0. now rewrite unread_new, app_nil_r. }
  set (lx1 := moved lx0 (length blanks) (count_newlines blanks)).
  assert (He1 : Lexer.is_at_end lx1 = true).
  { apply LexerRuns.unread_nil. unfold lx1.
    rewrite LexerRuns.unread_moved, Hu, app_nil_r. now apply skipn_all. }
  destruct (Lexer.is_at_end lx0) eqn:He0.
  - rewrite (tokenize_of_run _ [] lx0) by now constructor.
    apply LexerRuns.unread_nil in He0. rewrite Hu, app_nil_r in He0.
    subst blanks. reflexivity.
  - rewrite (tokenize_of_run _ (map (pair lx1) [] ++ []) lx1).
    + reflexivity.
    + apply (run_step lx0 true lx1 [] [] lx1); [assumption| |now constructor].
      rewrite (LexerSteps.iteration_blanks blanks [] lx0 Hu Hall).
      now apply iteration_at_end.
Qed.

(** Two newlines and a tab. *)
Lemma tokenize_blank_source_witness :
  Lexer.tokenize (String LF (String LF (String TAB EmptyString)))
  = Some [mkToken END_OF_FILE EmptyString 3].
Proof.
  apply (tokenize_blank_source [LF; LF; TAB]).
  - unfold fits_int, INT_MAX. simpl. lia.
  - repeat constructor.
Defined.





(** The [switch] of [tokenize] has the cases of the table of the
    specification. *)
Lemma spec_punctuation_switch c ty :
  In (c, ty) spec_punctuation -> Lexer.single_char c = Some ty.
Proof.
  unfold spec_punctuation. simpl. intros H.
  repeat (destruct H as [[= <- <-]|H]; [reflexivity|]). contradiction.
Qed.











(** * The grammar the parser accepts *)

Module ParserGrammar.
Import Parser ParserFacts.

Lemma fwd_eq p p' n w :
  m_tokens p' = m_tokens p ->
  m_current_pos p' = m_current_pos p + n ->
  cerr p' = cerr p ++ w ->
  p' = fwd p n w.
Proof. destruct p'. unfold fwd. simpl. now intros -> -> ->. Qed.

Lemma fwd_fwd p n w n' w' : fwd (fwd p n w) n' w' = fwd p (n + n') (w ++ w').
Proof. unfold fwd. simpl. now rewrite Nat.add_assoc, app_assoc. Qed.

Lemma fwd_0 p : fwd p 0 [] = p.
Proof. destruct p. unfold fwd. simpl. now rewrite Nat.add_0_r, app_nil_r. Qed.

Lemma ahead_fwd p n w : ahead (fwd p n w) = skipn n (ahead p).
Proof.
  unfold ahead, fwd. simpl. now rewrite skipn_skipn, Nat.add_comm.
Qed.

Lemma ahead_new tokens : ahead (new tokens) = tokens.
Proof. reflexivity. Qed.

Lemma ahead_nth p t r :
  ahead p = t :: r -> nth_error (m_tokens p) (m_current_pos p) = Some t.
Proof.
  unfold ahead. generalize (m_current_pos p). intros n. revert n.
  induction (m_tokens p) as [|x l IH]; intros [|n]; simpl; try discriminate.
  - now intros [= -> _].
  - apply IH.
Qed.

Lemma nth_ahead p t :
  nth_error (m_tokens p) (m_current_pos p) = Some t ->
  ahead p = t :: skipn 1 (ahead p).
Proof.
  unfold ahead. generalize (m_current_pos p). intros n. revert n.
  induction (m_tokens p) as [|x l IH]; intros [|n]; simpl; try discriminate.
  - now intros [= ->].
  - intros H. rewrite (IH _ H) at 1. reflexivity.
Qed.

(** ** The helpers, by the tokens ahead *)

Lemma peek_ahead p t r : ahead p = t :: r -> peek p = Ok t p.
Proof.
  intros H. unfold peek, bind, get_pos, token_at.
  now rewrite (ahead_nth _ _ _ H).
Qed.

Lemma is_at_end_ahead p t r : ahead p = t :: r -> is_at_end p = Ok (is_eof t) p.
Proof.
  intros H. unfold is_at_end.
  now rewrite (bind_ok _ _ _ _ _ (peek_ahead _ _ _ H)).
Qed.

Lemma check_ahead ty p t r :
  ahead p = t :: r ->
  check ty p = Ok (negb (is_eof t) && TokenType_eqb (type t) ty) p.
Proof.
  intros H. unfold check.
  rewrite (bind_ok _ _ _ _ _ (is_at_end_ahead _ _ _ H)).
  destruct (is_eof t); [reflexivity|].
  now rewrite (bind_ok _ _ _ _ _ (peek_ahead _ _ _ H)).
Qed.

Lemma check_is ty p t r :
  ahead p = t :: r -> type t = ty -> ty <> END_OF_FILE ->
  check ty p = Ok true p.
Proof.
  intros H Ht Hne. rewrite (check_ahead _ _ _ _ H). unfold is_eof.
  rewrite Ht. apply TokenType_eqb_neq in Hne. rewrite Hne. simpl.
  f_equal. now apply TokenType_eqb_eq.
Qed.

Lemma check_is_not ty p t r :
  ahead p = t :: r -> type t <> ty -> check ty p = Ok false p.
Proof.
  intros H Ht. rewrite (check_ahead _ _ _ _ H).
  apply TokenType_eqb_neq in Ht. rewrite Ht. now rewrite andb_false_r.
Qed.

Lemma advance_ahead p t r :
  ahead p = t :: r -> type t <> END_OF_FILE -> advance p = Ok t (fwd p 1 []).
Proof.
  intros H Hne. unfold advance.
  rewrite (bind_ok _ _ _ _ _ (is_at_end_ahead _ _ _ H)).
  unfold is_eof. apply TokenType_eqb_neq in Hne. rewrite Hne.
  unfold bind, get_pos, set_pos, token_at. simpl.
  rewrite (ahead_nth _ _ _ H). f_equal. apply fwd_eq; simpl;
    [reflexivity | lia | now rewrite app_nil_r].
Qed.

Lemma expect_ahead ty what p t r :
  ahead p = t :: r -> type t = ty -> ty <> END_OF_FILE ->
  expect ty what p = Ok t (fwd p 1 []).
Proof.
  intros H Ht Hne. unfold expect.
  rewrite (bind_ok _ _ _ _ _ (check_is _ _ _ _ H Ht Hne)).
  apply (advance_ahead _ _ _ H). congruence.
Qed.

Lemma expect_throws ty what p t r :
  ahead p = t :: r -> type t <> ty -> expect ty what p = Throw what p.
Proof.
  intros H Ht. unfold expect.
  now rewrite (bind_ok _ _ _ _ _ (check_is_not _ _ _ _ H Ht)).
Qed.

(** ** Statements *)

Lemma parse_expression_ahead p num r :
  ahead p = num :: r -> type num = NUMBER_LITERAL ->
  parse_expression p
  = Ok (Some (NumberLiteralNode (value num))) (fwd p 1 []).
Proof.
  intros H Ht. unfold parse_expression.
  rewrite (bind_ok _ _ _ _ _ (check_is _ _ _ _ H Ht ltac:(discriminate))).
  rewrite (bind_ok _ _ _ _ _
             (advance_ahead _ _ _ H ltac:(rewrite Ht; discriminate))).
  reflexivity.
Qed.

Lemma parse_statement_item it p r :
  ahead p = item_tokens it ++ r -> item_ok it ->
  exists stmt,
    parse_statement p
    = Ok stmt (fwd p (length (item_tokens it)) (item_warnings it))
    /\ forall stmts,
         match stmt with
         | Some s => stmts ++ [Some s]
         | None => stmts
         end = stmts ++ item_stmts it.
Proof.
  intros H Hok. destruct it as [kw num semi|tok]; simpl in *.
  - destruct Hok as (Hk & Hn & Hs).
    exists (Some (ReturnStmtNode (Some (NumberLiteralNode (value num))))).
    split; [|reflexivity].
    unfold parse_statement.
    rewrite (bind_ok _ _ _ _ _ (check_is _ _ _ _ H Hk ltac:(discriminate))).
    unfold parse_return_statement.
    rewrite (bind_ok _ _ _ _ _
               (advance_ahead _ _ _ H ltac:(rewrite Hk; discriminate))).
    assert (H1 : ahead (fwd p 1 []) = num :: semi :: r)
      by now rewrite ahead_fwd, H.
    rewrite (bind_ok _ _ _ _ _ (parse_expression_ahead _ _ _ H1 Hn)).
    assert (H2 : ahead (fwd (fwd p 1 []) 1 []) = semi :: r)
      by now rewrite ahead_fwd, H1.
    rewrite (bind_ok _ _ _ _ _
               (expect_ahead _ _ _ _ _ H2 Hs ltac:(discriminate))).
    unfold ret. now rewrite !fwd_fwd.
  - destruct Hok as (Hr & _ & He). exists None.
    split; [|intros; now rewrite app_nil_r].
    unfold parse_statement.
    rewrite (bind_ok _ _ _ _ _ (check_is_not _ _ _ _ H Hr)).
    rewrite (bind_ok _ _ _ _ _ (advance_ahead _ _ _ H He)).
    unfold bind, log, ret. f_equal. apply fwd_eq; simpl;
      [reflexivity | lia | now rewrite app_nil_r].
Qed.

Lemma item_first_token it r :
  item_ok it ->
  exists t r', item_tokens it ++ r = t :: r'
               /\ type t <> CLOSE_BRACE /\ type t <> END_OF_FILE.
Proof.
  destruct it as [kw num semi|tok]; simpl.
  - intros (Hk & _). exists kw. eexists. rewrite Hk.
    repeat split; discriminate.
  - intros (_ & Hc & He). exists tok. eexists. auto.
Qed.

(** ** Blocks *)

(** The loop of [parse_block_statement] over the items of a block, up to
    the closing brace or the end-of-stream token. *)
Lemma block_loop_items items :
  forall fuel stmts p stop r,
    Forall item_ok items ->
    ahead p = concat (map item_tokens items) ++ stop :: r ->
    type stop = CLOSE_BRACE \/ type stop = END_OF_FILE ->
    length items <= fuel ->
    block_loop fuel stmts p
    = Ok (stmts ++ concat (map item_stmts items))
        (fwd p (length (concat (map item_tokens items)))
           (concat (map item_warnings items))).
Proof.
  induction items as [|it items IH]; intros fuel stmts p stop r Hall H Hs Hf.
  - simpl in *. rewrite app_nil_r, fwd_0.
    assert (E : forall f, block_loop f stmts p = Ok stmts p).
    { intros f. destruct Hs as [Hs|Hs].
      - destruct f; simpl;
          now rewrite (bind_ok _ _ _ _ _
                         (check_is _ _ _ _ H Hs ltac:(discriminate))).
      - assert (Hc : check CLOSE_BRACE p = Ok false p).
        { apply (check_is_not _ _ _ _ H). rewrite Hs. discriminate. }
        assert (He : is_at_end p = Ok true p).
        { rewrite (is_at_end_ahead _ _ _ H). unfold is_eof. rewrite Hs.
          reflexivity. }
        destruct f; simpl; rewrite (bind_ok _ _ _ _ _ Hc);
          unfold bind at 1; unfold bind at 1; now rewrite He. }
    apply E.
  - inversion Hall as [|? ? Hok Hall']; subst.
    simpl in H. rewrite <- app_assoc in H.
    destruct (item_first_token it
                (concat (map item_tokens items) ++ stop :: r) Hok)
      as (t & r' & Et & Hc & He).
    destruct fuel as [|fuel]; [simpl in Hf; lia|].
    cbn [block_loop].
    assert (Ht : ahead p = t :: r') by congruence.
    rewrite (bind_ok _ _ _ _ _ (check_is_not _ _ _ _ Ht Hc)).
    assert (Hgo : (e <- is_at_end ;; ret (negb e)) p = Ok true p).
    { rewrite (bind_ok _ _ _ _ _ (is_at_end_ahead _ _ _ Ht)).
      unfold is_eof. apply TokenType_eqb_neq in He. now rewrite He. }
    rewrite (bind_ok _ _ _ _ _ Hgo).
    destruct (parse_statement_item it p _ H Hok) as (stmt & Ep & Es).
    rewrite (bind_ok _ _ _ _ _ Ep), Es.
    rewrite (IH fuel _ _ stop r Hall').
    + simpl. rewrite fwd_fwd, <- app_assoc, length_app. reflexivity.
    + rewrite ahead_fwd, H. now rewrite skipn_app, skipn_all, Nat.sub_diag.
    + assumption.
    + simpl in Hf. lia.
Qed.

Lemma fuel_of_ahead p : fuel_of p = length (ahead p).
Proof. unfold fuel_of, ahead. now rewrite length_skipn. Qed.

Lemma length_items items :
  length items <= length (concat (map item_tokens items)).
Proof.
  induction items as [|[| ] items IH]; simpl; try rewrite length_app; simpl;
    lia.
Qed.

(** [parse_block_statement] on a block that is closed. *)
Lemma parse_block_statement_ahead p lb items rb r :
  ahead p = lb :: concat (map item_tokens items) ++ rb :: r ->
  type lb = OPEN_BRACE -> Forall item_ok items -> type rb = CLOSE_BRACE ->
  parse_block_statement p
  = Ok (Block.mk (concat (map item_stmts items)))
      (fwd p (length (concat (map item_tokens items)) + 2)
         (concat (map item_warnings items))).
Proof.
  intros H Hlb Hall Hrb. unfold parse_block_statement.
  rewrite (bind_ok _ _ _ _ _
             (expect_ahead _ _ _ _ _ H Hlb ltac:(discriminate))).
  assert (H1 : ahead (fwd p 1 [])
               = concat (map item_tokens items) ++ rb :: r)
    by now rewrite ahead_fwd, H.
  unfold bind at 1.
  rewrite (block_loop_items items _ [] _ rb r Hall H1 (or_introl Hrb)).
  2:{ rewrite fuel_of_ahead, H1, length_app. pose proof (length_items items).
      lia. }
  rewrite fwd_fwd.
  match goal with |- context [fwd p ?n ?w] => set (q := fwd p n w) end.
  assert (H2 : ahead q = rb :: r).
  { unfold q. rewrite ahead_fwd, H. simpl.
    now rewrite skipn_app, skipn_all, Nat.sub_diag. }
  rewrite (bind_ok _ _ _ _ _
             (expect_ahead _ _ _ _ _ H2 Hrb ltac:(discriminate))).
  unfold ret, q. rewrite fwd_fwd. simpl. f_equal. f_equal; [lia|].
  now rewrite app_nil_r.
Qed.

(** [parse_block_statement] on a block that the end of the token stream
    cuts short. *)
Lemma parse_block_statement_unclosed p lb items e r :
  ahead p = lb :: concat (map item_tokens items) ++ e :: r ->
  type lb = OPEN_BRACE -> Forall item_ok items -> type e = END_OF_FILE ->
  parse_block_statement p
  = Throw "Expected '}' to end a block."
      (fwd p (length (concat (map item_tokens items)) + 1)
         (concat (map item_warnings items))).
Proof.
  intros H Hlb Hall He. unfold parse_block_statement.
  rewrite (bind_ok _ _ _ _ _
             (expect_ahead _ _ _ _ _ H Hlb ltac:(discriminate))).
  assert (H1 : ahead (fwd p 1 [])
               = concat (map item_tokens items) ++ e :: r)
    by now rewrite ahead_fwd, H.
  unfold bind at 1.
  rewrite (block_loop_items items _ [] _ e r Hall H1 (or_intror He)).
  2:{ rewrite fuel_of_ahead, H1, length_app. pose proof (length_items items).
      lia. }
  rewrite fwd_fwd.
  match goal with |- context [fwd p ?n ?w] => set (q := fwd p n w) end.
  assert (H2 : ahead q = e :: r).
  { unfold q. rewrite ahead_fwd, H. simpl.
    now rewrite skipn_app, skipn_all, Nat.sub_diag. }
  rewrite (bind_throw _ _ _ _ _
             (expect_throws CLOSE_BRACE _ _ _ _ H2
                ltac:(rewrite He; discriminate))).
  unfold q. simpl app. now rewrite (Nat.add_comm 1).
Qed.

End ParserGrammar.

(** * Programs the parser accepts, and where it gives up *)

Module ParserPrograms.
Import Parser ParserFacts ParserGrammar.

Lemma function_tokens_app ty name lp rp lb items rb r :
  function_tokens ty name lp rp lb items rb ++ r
  = ty :: name :: lp :: rp :: lb :: concat (map item_tokens items) ++ rb :: r.
Proof. unfold function_tokens. simpl. now rewrite <- app_assoc. Qed.

Lemma length_function_tokens ty name lp rp lb items rb :
  length (function_tokens ty name lp rp lb items rb)
  = length (concat (map item_tokens items)) + 6.
Proof. unfold function_tokens. simpl. rewrite length_app. simpl. lia. Qed.

(** The header of a function definition, up to the block. *)
Lemma parse_function_header p ty name lp rp r :
  ahead p = ty :: name :: lp :: rp :: r ->
  type ty <> END_OF_FILE -> type name = IDENTIFIER ->
  type lp = OPEN_PAREN -> type rp = CLOSE_PAREN ->
  parse_function_definition p
  = (body <- parse_block_statement ;;
     ret (Some (FunctionDefNode (value ty) (value name) body)))
      (fwd p 4 []).
Proof.
  intros H Hty Hname Hlp Hrp. unfold parse_function_definition.
  rewrite (bind_ok _ _ _ _ _ (advance_ahead _ _ _ H Hty)).
  assert (H1 : ahead (fwd p 1 []) = name :: lp :: rp :: r)
    by now rewrite ahead_fwd, H.
  rewrite (bind_ok _ _ _ _ _
             (expect_ahead _ _ _ _ _ H1 Hname ltac:(discriminate))).
  rewrite fwd_fwd.
  assert (H2 : ahead (fwd p 2 []) = lp :: rp :: r)
    by now rewrite ahead_fwd, H.
  rewrite (bind_ok _ _ _ _ _
             (expect_ahead _ _ _ _ _ H2 Hlp ltac:(discriminate))).
  rewrite fwd_fwd.
  assert (H3 : ahead (fwd p 3 []) = rp :: r)
    by now rewrite ahead_fwd, H.
  rewrite (bind_ok _ _ _ _ _
             (expect_ahead _ _ _ _ _ H3 Hrp ltac:(discriminate))).
  now rewrite fwd_fwd.
Qed.

(** [parse_declaration] takes the branch of the function definition. *)
Lemma parse_declaration_function p ty name r :
  ahead p = ty :: name :: r -> type ty = INT -> type name = IDENTIFIER ->
  parse_declaration p = parse_function_definition p.
Proof.
  intros H Hty Hname. unfold parse_declaration.
  rewrite (bind_ok _ _ _ _ _ (check_is _ _ _ _ H Hty ltac:(discriminate))).
  assert (H1 : ahead (fwd p 1 []) = name :: r) by now rewrite ahead_fwd, H.
  apply ahead_nth in H1. cbn [fwd m_tokens m_current_pos] in H1.
  unfold bind at 1. unfold bind at 1, get_pos, token_at.
  unfold bind at 1. rewrite H1. unfold ret.
  apply TokenType_eqb_eq in Hname. now rewrite Hname.
Qed.

Lemma parse_declaration_ahead p ty name lp rp lb items rb r :
  ahead p = function_tokens ty name lp rp lb items rb ++ r ->
  type ty = INT -> type name = IDENTIFIER ->
  type lp = OPEN_PAREN -> type rp = CLOSE_PAREN ->
  type lb = OPEN_BRACE -> Forall item_ok items -> type rb = CLOSE_BRACE ->
  parse_declaration p
  = Ok (Some (FunctionDefNode (value ty) (value name)
                (Block.mk (concat (map item_stmts items)))))
      (fwd p (length (function_tokens ty name lp rp lb items rb))
         (concat (map item_warnings items))).
Proof.
  intros H Hty Hname Hlp Hrp Hlb Hall Hrb.
  rewrite function_tokens_app in H.
  rewrite (parse_declaration_function _ _ _ _ H Hty Hname).
  rewrite (parse_function_header _ _ _ _ _ _ H
             ltac:(rewrite Hty; discriminate) Hname Hlp Hrp).
  assert (H4 : ahead (fwd p 4 [])
               = lb :: concat (map item_tokens items) ++ rb :: r)
    by now rewrite ahead_fwd, H.
  rewrite (bind_ok _ _ _ _ _
             (parse_block_statement_ahead _ _ _ _ _ H4 Hlb Hall Hrb)).
  unfold ret. rewrite fwd_fwd, length_function_tokens. simpl app.
  f_equal. f_equal. lia.
Qed.

Lemma parse_declaration_unclosed p ty name lp rp lb items e r :
  ahead p
  = ty :: name :: lp :: rp :: lb :: concat (map item_tokens items) ++ e :: r ->
  type ty = INT -> type name = IDENTIFIER ->
  type lp = OPEN_PAREN -> type rp = CLOSE_PAREN ->
  type lb = OPEN_BRACE -> Forall item_ok items -> type e = END_OF_FILE ->
  parse_declaration p
  = Throw "Expected '}' to end a block."
      (fwd p (length (concat (map item_tokens items)) + 5)
         (concat (map item_warnings items))).
Proof.
  intros H Hty Hname Hlp Hrp Hlb Hall He.
  rewrite (parse_declaration_function _ _ _ _ H Hty Hname).
  rewrite (parse_function_header _ _ _ _ _ _ H
             ltac:(rewrite Hty; discriminate) Hname Hlp Hrp).
  assert (H4 : ahead (fwd p 4 [])
               = lb :: concat (map item_tokens items) ++ e :: r)
    by now rewrite ahead_fwd, H.
  rewrite (bind_throw _ _ _ _ _
             (parse_block_statement_unclosed _ _ _ _ _ H4 Hlb Hall He)).
  rewrite fwd_fwd. simpl app. f_equal. f_equal. lia.
Qed.

(** ** The loop of [parse] *)

Lemma parse_loop_more_fuel fuel :
  forall fuel' program0 q program p,
    parse_loop fuel program0 q = Ok program p ->
    fuel <= fuel' ->
    parse_loop fuel' program0 q = Ok program p.
Proof.
  induction fuel as [|fuel IH]; intros fuel' program0 q program p H Hf.
  - revert H. destruct fuel'; simpl; unfold bind;
      destruct (is_at_end q) as [[|] q1| | |]; auto; discriminate.
  - destruct fuel' as [|fuel']; [lia|]. revert H. simpl. unfold bind.
    destruct (is_at_end q) as [[|] q1| | |]; auto.
    destruct (parse_declaration q1) as [decl q2|what q2| |]; auto.
    intros H. apply (IH fuel'); [assumption | lia].
Qed.

(** The loop of [parse] behind a front of tokens already consumed. *)
Lemma parse_loop_behind pre :
  forall fuel program0 q program p,
    parse_loop fuel program0 q = Ok program p ->
    exists p',
      parse_loop fuel program0
        {| m_tokens := pre ++ m_tokens q;
           m_current_pos := length pre + m_current_pos q;
           cerr := cerr q |}
      = Ok program p'
      /\ cerr p' = cerr p.
Proof.
  induction pre as [|t pre IH]; intros fuel program0 q program p H.
  - exists p. destruct q. simpl. auto.
  - destruct (IH _ _ _ _ _ H) as (p1 & E1 & C1).
    pose proof (shifts_parse_loop t [] fuel program0
                  {| m_tokens := pre ++ m_tokens q;
                     m_current_pos := length pre + m_current_pos q;
                     cerr := cerr q |}) as Hs.
    unfold shifts in Hs. rewrite E1 in Hs. cbn [shift_result] in Hs.
    exists (shift t [] p1). split; [exact Hs | exact C1].
Qed.

(** One declaration at the front, then the rest as it would be parsed
    alone. *)
Lemma parse_declaration_then front rest decl w program p :
  front <> [] ->
  type (hd (mkToken END_OF_FILE EmptyString 0) front) <> END_OF_FILE ->
  parse_declaration (new (front ++ rest))
  = Ok decl (fwd (new (front ++ rest)) (length front) w) ->
  parse rest = Ok program p ->
  exists p',
    parse (front ++ rest) = Ok (mkProgram (decl :: statements program)) p'
    /\ cerr p' = w ++ cerr p.
Proof.
  intros Hne Hhd Hd Hrest. destruct front as [|t front]; [contradiction|].
  unfold parse at 1.
  replace (fuel_of (new ((t :: front) ++ rest)))
    with (S (length (front ++ rest))) by reflexivity.
  cbn [parse_loop].
  assert (He : is_at_end (new ((t :: front) ++ rest))
               = Ok false (new ((t :: front) ++ rest))).
  { rewrite (is_at_end_ahead _ t (front ++ rest)) by reflexivity.
    unfold is_eof. simpl in Hhd. apply TokenType_eqb_neq in Hhd.
    now rewrite Hhd. }
  rewrite (bind_ok _ _ _ _ _ He), Hd.
  rewrite (parse_loop_frame [decl] _ []). cbn [statements app].
  unfold parse in Hrest.
  apply (parse_loop_more_fuel _ (length (front ++ rest))) in Hrest.
  2:{ unfold fuel_of. simpl. rewrite length_app. lia. }
  destruct (parse_loop_behind front _ _ _ _ _ Hrest) as (p1 & E1 & C1).
  pose proof (shifts_parse_loop t w (length (front ++ rest)) (mkProgram [])
                {| m_tokens := front ++ m_tokens (new rest);
                   m_current_pos := length front + m_current_pos (new rest);
                   cerr := cerr (new rest) |}) as Hs.
  unfold shifts in Hs. rewrite E1 in Hs. cbn [shift_result] in Hs.
  exists (shift t w p1). split; [|simpl; now rewrite C1].
  replace (fwd (new (t :: front ++ rest)) (length (t :: front)) w)
    with (shift t w
            {| m_tokens := front ++ m_tokens (new rest);
               m_current_pos := length front + m_current_pos (new rest);
               cerr := cerr (new rest) |}).
  - rewrite Hs. reflexivity.
  - unfold shift, fwd, new. simpl. f_equal; [lia | now rewrite app_nil_r].
Qed.

(** A declaration that throws ends [parse]. *)
Lemma parse_declaration_throws tokens t r what n w :
  tokens = t :: r -> type t <> END_OF_FILE ->
  parse_declaration (new tokens) = Throw what (fwd (new tokens) n w) ->
  exists p,
    parse tokens = Ok (mkProgram []) p
    /\ cerr p = w ++ [("Parse Error: " ++ what)%string].
Proof.
  intros -> Hne Hd. unfold parse.
  replace (fuel_of (new (t :: r))) with (S (length r)) by reflexivity.
  cbn [parse_loop].
  assert (He : is_at_end (new (t :: r)) = Ok false (new (t :: r))).
  { rewrite (is_at_end_ahead _ t r) by reflexivity.
    unfold is_eof. apply TokenType_eqb_neq in Hne. now rewrite Hne. }
  rewrite (bind_ok _ _ _ _ _ He), Hd.
  eexists. split; reflexivity.
Qed.

End ParserPrograms.

(** * Further properties of the parser *)





(** * What the parser writes to the diagnostics *)

Module ParserDiagnostics.
Import Parser ParserFacts ParserGrammar.

Lemma wrote_refl p : wrote p p.
Proof. exists []. now rewrite app_nil_r. Qed.

Lemma wrote_trans p q r : wrote p q -> wrote q r -> wrote p r.
Proof.
  intros (w1 & E1 & F1) (w2 & E2 & F2). exists (w1 ++ w2).
  rewrite E2, E1, app_assoc. split; [reflexivity | now apply Forall_app].
Qed.

Lemma wrote_same p q : cerr q = cerr p -> wrote p q.
Proof. intros E. exists []. now rewrite app_nil_r. Qed.

Lemma says_bind {A B} (m : M A) (k : A -> M B) p :
  says m p ->
  (forall a p', m p = Ok a p' -> says (k a) p') ->
  says (bind m k) p.
Proof.
  unfold says, bind. destruct (m p) as [a p'|what p'| |]; auto.
  intros Hw Hk. specialize (Hk a p' eq_refl).
  destruct (k a p') as [b p2|what p2| |]; auto.
  - now apply (wrote_trans _ p').
  - destruct Hk. split; [now apply (wrote_trans _ p') | assumption].
Qed.

Lemma says_ret {A} (a : A) p : says (ret a) p.
Proof. apply wrote_refl. Qed.

Lemma says_throw {A} what p : In what error_messages -> says (@throw A what) p.
Proof. intros H. split; [apply wrote_refl | assumption]. Qed.

Lemma says_log ln p : is_warning ln -> says (log ln) p.
Proof. intros H. exists [ln]. split; [reflexivity | now constructor]. Qed.

Lemma quiet_says {A} (m : M A) p : quiet m p -> says m p.
Proof.
  unfold quiet, says. destruct (m p); auto; [apply wrote_same | tauto].
Qed.

Lemma quiet_check ty p : quiet (check ty) p.
Proof.
  unfold quiet, check, is_at_end, peek, bind, get_pos, token_at, ret.
  destruct (nth_error (m_tokens p) (m_current_pos p)) as [tok|]; [|exact I].
  destruct (TokenType_eqb (type tok) END_OF_FILE); [reflexivity|].
  now destruct (nth_error (m_tokens p) (m_current_pos p)).
Qed.

Lemma quiet_is_at_end p : quiet is_at_end p.
Proof.
  unfold quiet, is_at_end, peek, bind, get_pos, token_at, ret.
  now destruct (nth_error (m_tokens p) (m_current_pos p)).
Qed.

Lemma quiet_advance p : quiet advance p.
Proof.
  unfold quiet, advance, is_at_end, peek, bind, get_pos, set_pos, token_at,
    ret.
  destruct (nth_error (m_tokens p) (m_current_pos p)) as [tok|]; [|exact I].
  destruct (TokenType_eqb (type tok) END_OF_FILE); simpl.
  - destruct (m_current_pos p) as [|j]; [exact I|].
    now destruct (nth_error (m_tokens p) j).
  - now destruct (nth_error (m_tokens p) (m_current_pos p)).
Qed.

Lemma says_expect ty what p :
  In what error_messages -> says (expect ty what) p.
Proof.
  intros H. unfold expect.
  apply says_bind; [apply quiet_says, quiet_check|].
  intros [|] p' _; [apply quiet_says, quiet_advance | now apply says_throw].
Qed.

Ltac message := unfold error_messages; simpl; tauto.

Lemma says_parse_expression p : says parse_expression p.
Proof.
  unfold parse_expression.
  apply says_bind; [apply quiet_says, quiet_check|].
  intros [|] p' _; [|apply says_throw; message].
  apply says_bind; [apply quiet_says, quiet_advance|].
  intros; apply says_ret.
Qed.

Lemma says_parse_return_statement p : says parse_return_statement p.
Proof.
  unfold parse_return_statement.
  apply says_bind; [apply quiet_says, quiet_advance|]. intros _ p1 _.
  apply says_bind; [apply says_parse_expression|]. intros e p2 _.
  apply says_bind; [apply says_expect; message|]. intros; apply says_ret.
Qed.

Lemma says_parse_statement p : says parse_statement p.
Proof.
  unfold parse_statement.
  apply says_bind; [apply quiet_says, quiet_check|].
  intros [|] p1 _; [apply says_parse_return_statement|].
  apply says_bind; [apply quiet_says, quiet_advance|]. intros tok p2 _.
  apply says_bind; [apply says_log; exists tok; now right|].
  intros; apply says_ret.
Qed.

Lemma says_block_loop fuel : forall stmts p, says (block_loop fuel stmts) p.
Proof.
  induction fuel as [|fuel IH]; intros stmts p; simpl;
    (apply says_bind; [apply quiet_says, quiet_check|]); intros b p1 _;
    (apply says_bind;
     [destruct b; [apply says_ret|];
      apply says_bind; [apply quiet_says, quiet_is_at_end|];
      intros; apply says_ret|]);
    intros [|] p2 _; try apply says_ret.
  - exact I.
  - apply says_bind; [apply says_parse_statement|]. intros; apply IH.
Qed.

Lemma says_parse_block_statement p : says parse_block_statement p.
Proof.
  unfold parse_block_statement.
  apply says_bind; [apply says_expect; message|]. intros _ p1 _.
  apply says_bind; [apply says_block_loop|]. intros stmts p2 _.
  apply says_bind; [apply says_expect; message|]. intros; apply says_ret.
Qed.

(** Where [parse_declaration] calls it, [parse_function_definition] finds
    the identifier it expects: its first message is never thrown. *)
Lemma says_parse_function_definition p ty name r :
  ahead p = ty :: name :: r ->
  type ty <> END_OF_FILE -> type name = IDENTIFIER ->
  says parse_function_definition p.
Proof.
  intros H Hty Hname. unfold parse_function_definition.
  apply says_bind; [apply quiet_says, quiet_advance|].
  intros ty' p1 E1. rewrite (advance_ahead _ _ _ H Hty) in E1.
  injection E1 as <- <-.
  assert (H1 : ahead (fwd p 1 []) = name :: r) by now rewrite ahead_fwd, H.
  pose proof (expect_ahead IDENTIFIER "Expected function name." _ _ _ H1
                Hname ltac:(discriminate)) as E2.
  apply says_bind.
  { unfold says. rewrite E2. apply wrote_same. simpl.
    now rewrite !app_nil_r. }
  intros name' p2 _.
  apply says_bind; [apply says_expect; message|]. intros _ p3 _.
  apply says_bind; [apply says_expect; message|]. intros _ p4 _.
  apply says_bind; [apply says_parse_block_statement|].
  intros; apply says_ret.
Qed.

Lemma check_true_ahead ty p p' :
  check ty p = Ok true p' ->
  p' = p /\ exists t, ahead p = t :: skipn 1 (ahead p) /\ type t = ty.
Proof.
  intros H. assert (Hn : exists t,
    nth_error (m_tokens p) (m_current_pos p) = Some t /\ type t = ty
    /\ p' = p).
  { revert H.
    unfold check, is_at_end, peek, bind, get_pos, token_at, ret.
    destruct (nth_error (m_tokens p) (m_current_pos p)) as [tok|] eqn:En;
      [|discriminate].
    destruct (TokenType_eqb (type tok) END_OF_FILE); [discriminate|].
    rewrite En. intros [= Ht <-]. exists tok.
    apply TokenType_eqb_eq in Ht. auto. }
  destruct Hn as (t & Hn & Ht & ->). split; [reflexivity|].
  exists t. split; [now apply nth_ahead | assumption].
Qed.

Lemma says_parse_declaration p : says parse_declaration p.
Proof.
  unfold parse_declaration.
  apply says_bind; [apply quiet_says, quiet_check|].
  intros b p1 Hc.
  assert (Hskip : forall q,
             says (tok <- advance ;;
                   log ("Parser Warning: Skipping unknown top-level token: "
                        ++ Token_to_string tok)%string ;;;
                   ret (@None StmtNode)) q).
  { intros q. apply says_bind; [apply quiet_says, quiet_advance|].
    intros tok p2 _.
    apply says_bind; [apply says_log; exists tok; now left|].
    intros; apply says_ret. }
  apply says_bind.
  { destruct b; [|apply says_ret]. apply quiet_says.
    unfold quiet, bind, get_pos, token_at, ret.
    now destruct (nth_error (m_tokens p1) (m_current_pos p1 + 1)). }
  intros [|] p2 Hd; [|apply Hskip].
  destruct b; [|discriminate].
  apply check_true_ahead in Hc. destruct Hc as (-> & ty & Hty & Ety).
  revert Hd. unfold bind, get_pos, token_at, ret.
  destruct (nth_error (m_tokens p) (m_current_pos p + 1)) as [name|] eqn:En;
    [|discriminate].
  intros [= Ename <-]. apply TokenType_eqb_eq in Ename.
  assert (H1 : ahead (fwd p 1 []) = name :: skipn 1 (ahead (fwd p 1 [])))
    by now apply nth_ahead.
  rewrite ahead_fwd in H1 at 1.
  apply (says_parse_function_definition p ty name
           (skipn 1 (ahead (fwd p 1 [])))).
  - rewrite Hty. now rewrite H1.
  - rewrite Ety. discriminate.
  - assumption.
Qed.

(** The diagnostics of the loop of [parse]: warnings, and then at most one
    line, the syntax error that ended the loop. *)
Lemma parse_loop_says fuel :
  forall program p program' p',
    parse_loop fuel program p = Ok program' p' ->
    exists w tail,
      cerr p' = cerr p ++ w ++ tail
      /\ Forall is_warning w
      /\ (tail = []
          \/ exists what,
               In what error_messages
               /\ tail = [("Parse Error: " ++ what)%string]).
Proof.
  induction fuel as [|fuel IH]; intros program p program' p'; simpl;
    unfold bind at 1; pose proof (quiet_is_at_end p) as Hq;
    unfold quiet in Hq; destruct (is_at_end p) as [[|] p1| | |];
    try discriminate.
  - intros [= _ <-]. exists [], []. rewrite Hq, !app_nil_r. auto.
  - intros [= _ <-]. exists [], []. rewrite Hq, !app_nil_r. auto.
  - pose proof (says_parse_declaration p1) as Hd. unfold says in Hd.
    destruct (parse_declaration p1) as [decl p2|what p2| |];
      try discriminate.
    + intros H. destruct (IH _ _ _ _ H) as (w2 & tail & E & F & T).
      destruct Hd as (w1 & E1 & F1). exists (w1 ++ w2), tail.
      rewrite E, E1, Hq, <- !app_assoc.
      split; [reflexivity|]. split; [now apply Forall_app | assumption].
    + unfold bind, log, ret. intros [= _ <-]. simpl.
      destruct Hd as [(w1 & E1 & F1) Hin].
      exists w1, [("Parse Error: " ++ what)%string].
      rewrite E1, Hq, <- app_assoc. split; [reflexivity|].
      split; [assumption|]. right. now exists what.
Qed.

Lemma warning_is_no_error ln :
  is_warning ln -> ln <> "Parse Error: Expected function name.".
Proof.
  intros (t & [->| ->]); unfold top_level_warning, block_warning;
    cbn [String.append]; discriminate.
Qed.

End ParserDiagnostics.

(** X18.  The diagnostics of [parse] are warning lines for skipped tokens,
    followed by at most one line: a syntax error with one of six messages,
    which is then the last line.  The seventh message of the source, that
    of a missing function name, is never written: [parse_declaration]
    has looked at the identifier before [parse_function_definition]
    expects it. *)
Theorem parse_diagnostics_shape
    (tokens : list Token) (program : ProgramNode) (p : Parser.t) :
  Parser.parse tokens = Parser.Ok program p ->
  (exists w tail,
      Parser.cerr p = w ++ tail
      /\ Forall is_warning w
      /\ (tail = []
          \/ exists what,
               In what error_messages
               /\ tail = [("Parse Error: " ++ what)%string]))
  /\ ~ In "Parse Error: Expected function name." (Parser.cerr p).
Proof.
  intros H. unfold Parser.parse in H.
  destruct (ParserDiagnostics.parse_loop_says _ _ _ _ _ H)
    as (w & tail & E & F & T).
  simpl in E. split; [exists w, tail; auto|].
  rewrite E. intros Hin. apply in_app_or in Hin. destruct Hin as [Hin|Hin].
  - rewrite Forall_forall in F.
    now apply (ParserDiagnostics.warning_is_no_error _ (F _ Hin)).
  - destruct T as [->|(what & Hw & ->)]; [contradiction|].
    destruct Hin as [Hin|[]].
    unfold error_messages in Hw. simpl in Hw.
    repeat (destruct Hw as [<-|Hw]; [discriminate|]). contradiction.
Qed.

(** A function name followed by the end of the stream. *)
Lemma parse_diagnostics_shape_witness :
  ~ In "Parse Error: Expected function name."
      (Parser.cerr
         (Parser.mk
            [mkToken INT "int" 1; mkToken IDENTIFIER "f" 1;
             mkToken END_OF_FILE EmptyString 1]
            2 ["Parse Error: Expected '(' after function name."])).
Proof.
  apply (parse_diagnostics_shape
           [mkToken INT "int" 1; mkToken IDENTIFIER "f" 1;
            mkToken END_OF_FILE EmptyString 1]
           (mkProgram [])
           (Parser.mk
              [mkToken INT "int" 1; mkToken IDENTIFIER "f" 1;
               mkToken END_OF_FILE EmptyString 1]
              2 ["Parse Error: Expected '(' after function name."])).
  vm_compute. reflexivity.
Defined.

(** * The source texts the lexer reads back *)

Module LexerPieces.
Import Lexer LexerRuns LexerSteps.

Lemma piece_text_cons x : exists c r, piece_text x = c :: r.
Proof. destruct x; simpl; eauto. Qed.

(** The table of the specification is the table of the [switch]. *)
Lemma spec_punctuation_single_char c ty :
  In (c, ty) spec_punctuation <-> single_char c = Some ty.
Proof.
  split.
  - unfold spec_punctuation. simpl. intros H.
    repeat (destruct H as [[= <- <-]|H]; [reflexivity|]). contradiction.
  - unfold single_char.
    repeat match goal with
           | |- context [Ascii.eqb c ?x] =>
             destruct (Ascii.eqb_spec c x) as [->|]
           end; try discriminate; intros [= <-]; simpl; tauto.
Qed.

(** What one piece at the cursor does to the iteration entered there:
    a piece that gives no token and is skipped before the switch leaves the
    iteration to what follows; any other piece is one iteration. *)
Lemma piece_step x rest lx :
  unread lx = piece_text x ++ rest ->
  piece_ok x rest ->
  let lx1 := moved lx (length (piece_text x)) (piece_newlines x) in
  (piece_tokens x (m_line lx1) = [] /\ iteration lx = iteration lx1)
  \/ iteration lx = Some (false, lx1, piece_tokens x (m_line lx1)).
Proof.
  intros H Hok. destruct x as [c|body|c|c run|c run|c ty|content|five];
    cbn [piece_text piece_newlines piece_tokens piece_ok] in *; cbv zeta.
  - left. split; [reflexivity|].
    apply (iteration_blanks [c] rest lx H). now constructor.
  - left. split; [reflexivity|]. destruct Hok as [Hb Hr].
    apply (iteration_comment body rest lx H Hb Hr).
  - right. destruct Hok as [Hb Hu].
    apply (iteration_unknown c rest lx H Hb Hu).
  - right. destruct Hok as (Hs & Hr & He).
    rewrite (iteration_identifier_at c run rest lx H Hs Hr He).
    cbn [moved m_line]. now rewrite Nat.add_0_r.
  - right. destruct Hok as (Hd & He).
    rewrite (iteration_number c run rest lx H Hd He).
    cbn [moved m_line]. now rewrite Nat.add_0_r.
  - right. apply spec_punctuation_single_char in Hok.
    rewrite (iteration_punctuation c rest ty lx H Hok).
    cbn [moved m_line length]. now rewrite Nat.add_0_r.
  - right. simpl in H. rewrite <- app_assoc in H. simpl in H.
    rewrite (iteration_string content rest lx H Hok).
    cbn [moved m_line length]. rewrite length_app. cbn [length].
    now replace (S (length content + 1)) with (length content + 2) by lia.
  - right. rewrite (iteration_include (five ++ rest) lx H).
    cbn [moved m_line length]. now rewrite Hok, Nat.add_0_r.
Qed.

(** An iteration that only skips is not seen in the run. *)
Lemma run_skip lx lx1 tr lx' :
  is_at_end lx = false ->
  iteration lx = iteration lx1 ->
  run lx1 tr lx' ->
  run lx tr lx'.
Proof.
  intros He Hit Hrun.
  destruct Hrun as [lx1 He1|lx1 brk lx2 toks tr lx' He1 Hit1 Hrun].
  - apply (run_step lx true lx1 [] [] lx1 He); [|now constructor].
    rewrite Hit. now apply iteration_at_end.
  - apply (run_step lx brk lx2 toks tr lx' He); [congruence | assumption].
Qed.

Lemma run_pieces pieces :
  forall lx,
    unread lx = render pieces ->
    pieces_ok pieces ->
    exists tr lx',
      run lx tr lx'
      /\ map snd tr = tokens_from (m_line lx) pieces
      /\ m_line lx' = m_line lx + newlines_of pieces.
Proof.
  induction pieces as [|x pieces IH]; intros lx H Hok.
  - exists [], lx. split; [|split; [reflexivity|]].
    + constructor. now apply unread_nil.
    + unfold newlines_of. simpl. lia.
  - destruct Hok as [Hx Hok]. cbn [render] in H.
    set (lx1 := moved lx (length (piece_text x)) (piece_newlines x)).
    assert (H1 : unread lx1 = render pieces).
    { unfold lx1. rewrite unread_moved, H, skipn_app, skipn_all, Nat.sub_diag.
      reflexivity. }
    destruct (IH lx1 H1 Hok) as (tr & lx' & Hrun & Htr & Hl).
    assert (He : is_at_end lx = false).
    { destruct (piece_text_cons x) as (c & r & E). rewrite E in H.
      apply (unread_cons _ _ _ H). }
    assert (Hl' : m_line lx' = m_line lx + newlines_of (x :: pieces)).
    { rewrite Hl. unfold lx1, newlines_of. simpl. lia. }
    destruct (piece_step x (render pieces) lx H Hx) as [[Hnil Hit]|Hit];
      fold lx1 in Hit.
    + exists tr, lx'. split; [now apply (run_skip lx lx1)|].
      split; [|assumption]. cbn [tokens_from]. fold lx1 in Hnil.
      unfold lx1 in Hnil at 1. cbn [moved m_line] in Hnil. rewrite Hnil.
      exact Htr.
    + exists (map (pair lx1) (piece_tokens x (m_line lx1)) ++ tr), lx'.
      split; [now apply (run_step lx false lx1)|].
      split; [|assumption].
      rewrite map_app, map_map, map_id, Htr. reflexivity.
Qed.

Lemma tokens_from_app a : forall ln b,
  tokens_from ln (a ++ b)
  = tokens_from ln a ++ tokens_from (ln + newlines_of a) b.
Proof.
  induction a as [|x a IH]; intros ln b.
  - unfold newlines_of. simpl. now rewrite Nat.add_0_r.
  - cbn [app tokens_from]. rewrite IH, <- app_assoc.
    unfold newlines_of. simpl. now rewrite Nat.add_assoc.
Qed.

End LexerPieces.

(** * The tokenizer as the inverse of writing tokens out *)

(** X19.  The tokenizer reads a text back into the pieces it is made of.
    Let a source, short enough for the [int] cursor and line counter, be
    the text of a sequence of pieces, each a blank, a line comment that
    runs to the end of its line, a character the lexer drops, a word, a
    number, one of the eleven punctuation characters of the specification,
    a closed string literal or an include directive, where no word is
    directly followed by a letter, digit or underscore and no number by a
    digit.  Then [tokenize] returns exactly the tokens of the pieces, in
    order (for a punctuation character the kind the specification gives
    it), each with the line counter at its end (1 plus the newlines among
    the blanks and inside the string literals before that point), followed
    by the end-of-stream token. *)
Theorem tokenize_reads_pieces_back (pieces : list Piece) :
  fits_int (render pieces) ->
  pieces_ok pieces ->
  Lexer.tokenize (string_of_list_ascii (render pieces))
  = Some (tokens_from 1 pieces
          ++ [mkToken END_OF_FILE EmptyString (1 + newlines_of pieces)]).
Proof.
  intros _ Hok.
  destruct (LexerPieces.run_pieces pieces
              (Lexer.new (string_of_list_ascii (render pieces)))
              (unread_new _) Hok) as (tr & lx' & Hrun & Htr & Hl).
  rewrite (tokenize_of_run _ _ _ Hrun), Htr, Hl. reflexivity.
Qed.

(** A comment, a newline, the word [x1], a dropped slash, a number and a
    plus sign. *)
Lemma tokenize_reads_pieces_back_witness :
  Lexer.tokenize
    (string_of_list_ascii
       (render [Comment ["c"%char]; Blank LF; Word "x" ["1"%char];
                Dropped "/"; Number "7" []; Punctuation "+" PLUS]))
  = Some [mkToken IDENTIFIER "x1" 2; mkToken NUMBER_LITERAL "7" 2;
          mkToken PLUS "+" 2; mkToken END_OF_FILE EmptyString 2].
Proof.
  apply (tokenize_reads_pieces_back
           [Comment ["c"%char]; Blank LF; Word "x" ["1"%char];
            Dropped "/"; Number "7" []; Punctuation "+" PLUS]).
  - unfold fits_int, INT_MAX. simpl. lia.
  - simpl. split; [|split; [|split; [|split; [|split; [|split]]]]].
    + split; [repeat constructor; discriminate | right; reflexivity].
    + reflexivity.
    + split; [reflexivity|]. split; [repeat constructor | reflexivity].
    + split; [reflexivity|]. left.
      split; [reflexivity | intros _; discriminate].
    + split; [repeat constructor | reflexivity].
    + tauto.
    + exact I.
Defined.

(** * The driver *)

Module MainFacts.
Import Main.

(** [main] on a source that can be read and is not empty. *)
Lemma main_compiles w argv a0 path rest c src tokens program p :
  argv = a0 :: path :: rest ->
  file w path = Some (String c src) ->
  Lexer.tokenize (String c src) = Some tokens ->
  Parser.parse tokens = Parser.Ok program p ->
  exists o,
    main w argv = Some o
    /\ exit_code o = (if writable w then 0 else 1)
    /\ output_asm o
       = (if writable w
          then Some (fst (CodeGenerator.generate (CodeGenerator.new program)))
          else None)
    /\ exists tail,
         cerr o
         = Parser.cerr p
           ++ CodeGenerator.cerr
                (snd (CodeGenerator.generate (CodeGenerator.new program)))
           ++ tail
         /\ (writable w = true -> tail = []).
Proof.
  intros -> Hf Ht Hp. unfold main, read_file. rewrite Hf.
  cbv beta iota zeta delta [empty]. rewrite Ht, Hp.
  destruct (CodeGenerator.generate (CodeGenerator.new program)) as [asm g].
  destruct (writable w); eexists; (split; [reflexivity|]); cbn;
    (split; [reflexivity|]); (split; [reflexivity|]).
  - exists []. now rewrite app_nil_r.
  - eexists. split; [now rewrite <- app_assoc | discriminate].
Qed.

End MainFacts.

(** * Properties of the driver *)




(** * From the source text to the assembly text *)

Module Pipeline.

Lemma tokenize_pieces (pieces : list Piece) :
  pieces_ok pieces ->
  Lexer.tokenize (string_of_list_ascii (render pieces))
  = Some (tokens_from 1 pieces
          ++ [mkToken END_OF_FILE EmptyString (1 + newlines_of pieces)]).
Proof.
  intros Hok.
  destruct (LexerPieces.run_pieces pieces
              (Lexer.new (string_of_list_ascii (render pieces)))
              (unread_new _) Hok) as (tr & lx' & Hrun & Htr & Hl).
  rewrite (tokenize_of_run _ _ _ Hrun), Htr, Hl. reflexivity.
Qed.

(** The kinds and texts of the tokens do not depend on the pieces that give
    no token, nor on the line. *)
Lemma tokens_from_kinds pieces :
  forall ln,
    map kind_and_text (tokens_from ln pieces)
    = flat_map (fun x => map kind_and_text (piece_tokens x 0))
        (filter (fun x => negb (is_gap x)) pieces).
Proof.
  induction pieces as [|x pieces IH]; intros ln; [reflexivity|].
  cbn [tokens_from filter]. rewrite map_app, IH.
  destruct x; reflexivity.
Qed.

Lemma render_not_empty x pieces :
  exists c s, string_of_list_ascii (render (x :: pieces)) = String c s.
Proof.
  cbn [render]. destruct (LexerPieces.piece_text_cons x) as (c & r & ->).
  simpl. eauto.
Qed.

Lemma parse_function ty name lp rp lb items rb rest program p :
  type ty = INT -> type name = IDENTIFIER ->
  type lp = OPEN_PAREN -> type rp = CLOSE_PAREN ->
  type lb = OPEN_BRACE -> Forall item_ok items -> type rb = CLOSE_BRACE ->
  Parser.parse rest = Parser.Ok program p ->
  exists p',
    Parser.parse (function_tokens ty name lp rp lb items rb ++ rest)
    = Parser.Ok
        (mkProgram
           (Some (FunctionDefNode (value ty) (value name)
                    (Block.mk (concat (map item_stmts items))))
            :: statements program)) p'
    /\ Parser.cerr p' = concat (map item_warnings items) ++ Parser.cerr p.
Proof.
  intros Hty Hname Hlp Hrp Hlb Hall Hrb Ep.
  apply (ParserPrograms.parse_declaration_then
           (function_tokens ty name lp rp lb items rb) rest _ _ program p
           ltac:(discriminate)
           ltac:(simpl; rewrite Hty; discriminate)
           (ParserPrograms.parse_declaration_ahead
              (Parser.new (function_tokens ty name lp rp lb items rb ++ rest))
              ty name lp rp lb items rb rest eq_refl
              Hty Hname Hlp Hrp Hlb Hall Hrb)
           Ep).
Qed.

Lemma kind_and_text_eq tok ty v :
  kind_and_text tok = (ty, v) -> type tok = ty /\ value tok = v.
Proof. unfold kind_and_text. now intros [= -> ->]. Qed.

(** The tokens of the source of a function that returns a number. *)
Lemma return_function_tokens pieces c run d ds ln :
  filter (fun x => negb (is_gap x)) pieces = return_function c run d ds ->
  spec_token_kind (string_of_list_ascii (c :: run)) = IDENTIFIER ->
  exists ty name lp rp lb kw num semi rb,
    tokens_from ln pieces
    = function_tokens ty name lp rp lb [ReturnItem kw num semi] rb
    /\ (type ty = INT /\ value ty = "int")
    /\ (type name = IDENTIFIER /\ value name = string_of_list_ascii (c :: run))
    /\ type lp = OPEN_PAREN /\ type rp = CLOSE_PAREN /\ type lb = OPEN_BRACE
    /\ type kw = RETURN
    /\ (type num = NUMBER_LITERAL
        /\ value num = string_of_list_ascii (d :: ds))
    /\ type semi = SEMICOLON /\ type rb = CLOSE_BRACE.
Proof.
  intros Hf Hname. pose proof (tokens_from_kinds pieces ln) as H.
  rewrite Hf in H.
  assert (E : flat_map (fun x => map kind_and_text (piece_tokens x 0))
                (return_function c run d ds)
              = [(INT, "int"); (IDENTIFIER, string_of_list_ascii (c :: run));
                 (OPEN_PAREN, "("); (CLOSE_PAREN, ")"); (OPEN_BRACE, "{");
                 (RETURN, "return");
                 (NUMBER_LITERAL, string_of_list_ascii (d :: ds));
                 (SEMICOLON, ";"); (CLOSE_BRACE, "}")]).
  { unfold return_function. cbn [flat_map piece_tokens map app].
    unfold kind_and_text. cbn [type value]. rewrite Hname. reflexivity. }
  rewrite E in H. clear E.
  remember (tokens_from ln pieces) as toks eqn:Etoks.
  apply map_eq_cons in H. destruct H as (ty & tl & -> & Ety & H).
  apply map_eq_cons in H. destruct H as (name & tl1 & -> & Ename & H).
  apply map_eq_cons in H. destruct H as (lp & tl2 & -> & Elp & H).
  apply map_eq_cons in H. destruct H as (rp & tl3 & -> & Erp & H).
  apply map_eq_cons in H. destruct H as (lb & tl4 & -> & Elb & H).
  apply map_eq_cons in H. destruct H as (kw & tl5 & -> & Ekw & H).
  apply map_eq_cons in H. destruct H as (num & tl6 & -> & Enum & H).
  apply map_eq_cons in H. destruct H as (semi & tl7 & -> & Esemi & H).
  apply map_eq_cons in H. destruct H as (rb & tl8 & -> & Erb & H).
  apply map_eq_nil in H. subst tl8.
  apply kind_and_text_eq in Ety, Ename, Elp, Erp, Elb, Ekw, Enum, Esemi, Erb.
  exists ty, name, lp, rp, lb, kw, num, semi, rb.
  split; [reflexivity|]. tauto.
Qed.

End Pipeline.



(** * The number of tokens *)

Module LexerCount.
Import Lexer LexerFacts.

Lemma length_source (source : string) :
  length (m_source (new source)) = String.length source.
Proof.
  unfold new. cbn [m_source].
  induction source as [|c s IH]; simpl; [reflexivity | now rewrite IH].
Qed.

(** A run pushes at most one token for each character ahead. *)
Lemma run_count lx tr lx' :
  run lx tr lx' -> length tr <= length (m_source lx) - m_current_pos lx.
Proof.
  induction 1 as [|lx brk lx1 toks tr lx' He Hit Hrun IH]; [simpl; lia|].
  destruct (iteration_spec lx He) as (? & ? & ? & Hit' & Hs & Hb & Hp).
  rewrite Hit in Hit'. injection Hit' as <- <- <-.
  apply is_at_end_false in He.
  assert (Hone : length toks <= 1).
  { destruct Hp as (_ & _ & [-> | [(tok & -> & _) | (-> & _)]]); simpl; lia. }
  rewrite length_app, length_map. destruct brk.
  - destruct (run_at_end _ _ _ Hrun Hb) as [-> _]. simpl. lia.
  - rewrite Hs in IH. lia.
Qed.

End LexerCount.

(** X23.  [tokenize] returns at most one token for each character of the
    source, and the end-of-stream token: every iteration of its loop that
    pushes a token consumes at least one character. *)
Theorem token_count_bounded (source : string) :
  exists toks,
    Lexer.tokenize source = Some toks
    /\ length toks <= String.length source + 1.
Proof.
  destruct (LexerFacts.tokenize_with_run (Lexer.new source))
    as (tr & lx' & Hrun & Hw).
  unfold Lexer.tokenize. rewrite Hw. eexists. split; [reflexivity|].
  pose proof (LexerCount.run_count _ _ _ Hrun) as Hc.
  rewrite LexerCount.length_source in Hc.
  cbn [app]. rewrite length_app, length_map. simpl. lia.
Qed.

(** * The texts of tokens and trees *)

(** X24.  [Token::to_string] names every kind of token differently: two
    kinds have the same name only when they are the same kind, so that the
    warnings of the parser tell the kinds apart. *)
Theorem token_kind_names_differ (a b : TokenType) :
  String.eqb (type_str a) (type_str b) = TokenType_eqb a b.
Proof. destruct a, b; vm_compute; reflexivity. Qed.

Module PrinterFacts.
Import Main.

Lemma starts_with_deeper indent more ln :
  starts_with (indent ++ more) ln -> starts_with indent ln.
Proof.
  intros (s & ->). exists (more ++ s)%string.
  apply CodeGeneratorFacts.append_assoc.
Qed.

Lemma starts_with_line indent s : starts_with indent (indent ++ s).
Proof. now exists s. Qed.

Lemma print_each_indent (print : StmtNode -> string -> list string) stmts :
  Forall (fun stmt => match stmt with
                      | Some s =>
                        forall indent,
                          Forall (starts_with indent) (print s indent)
                      | None => True
                      end) stmts ->
  forall indent, Forall (starts_with indent) (print_each print stmts indent).
Proof.
  intros H indent. unfold print_each.
  induction H as [|stmt stmts Hs _ IH]; simpl; [constructor|].
  apply Forall_app. split; [|assumption].
  destruct stmt as [s|]; [apply Hs|].
  constructor; [apply starts_with_line | constructor].
Qed.

Lemma print_block_indent (print : StmtNode -> string -> list string) block :
  Forall (fun stmt => match stmt with
                      | Some s =>
                        forall indent,
                          Forall (starts_with indent) (print s indent)
                      | None => True
                      end) (Block.statements block) ->
  forall indent,
    Forall (starts_with indent) (print_ast_BlockStmtNode print block indent).
Proof.
  intros H indent. unfold print_ast_BlockStmtNode.
  constructor; [apply starts_with_line|].
  eapply Forall_impl; [|apply (print_each_indent print _ H)].
  intros ln. apply starts_with_deeper.
Qed.

Lemma print_ast_indent node :
  forall indent, Forall (starts_with indent) (print_ast node indent).
Proof.
  induction node as [block IH | e | ty name body IH]
    using CodeGeneratorFacts.StmtNode_ind; intros indent; cbn [print_ast].
  - now apply print_block_indent.
  - constructor; [apply starts_with_line|].
    destruct e as [[v]|]; simpl; constructor; try constructor;
      apply (starts_with_deeper indent "  "), starts_with_line.
  - constructor; [apply starts_with_line|].
    eapply Forall_impl; [|apply (print_block_indent print_ast _ IH)].
    intros ln. apply starts_with_deeper.
Qed.

End PrinterFacts.

(** X25.  The tree printer keeps its indentation: every line that
    [print_ast] writes for a statement, null or not, starts with the
    indentation it was called with, whatever the tree; below the first line
    of a function definition every line starts with two more spaces, and
    below the line of its block with four. *)
Theorem print_ast_keeps_indent
    (node : option StmtNode) (return_type name : string)
    (body : BlockStmtNode) (indent : string) :
  Forall (starts_with indent) (Main.print_ast_StmtNode node indent)
  /\ Forall (starts_with (indent ++ "  "))
            (tl (Main.print_ast_StmtNode
                   (Some (FunctionDefNode return_type name body)) indent))
  /\ Forall (starts_with ((indent ++ "  ") ++ "  "))
            (tl (tl (Main.print_ast_StmtNode
                       (Some (FunctionDefNode return_type name body))
                       indent))).
Proof.
  split.
  - destruct node as [s|]; simpl.
    + apply PrinterFacts.print_ast_indent.
    + constructor; [apply PrinterFacts.starts_with_line | constructor].
  - cbn [Main.print_ast_StmtNode].
    pose proof (PrinterFacts.print_ast_indent
                  (BlockStmt body) (indent ++ "  ")) as H.
    cbn [Main.print_ast tl Main.print_ast_BlockStmtNode] in *.
    split; [exact H|].
    assert (Hall : Forall
              (fun stmt => match stmt with
                           | Some s =>
                             forall indent,
                               Forall (starts_with indent)
                                      (Main.print_ast s indent)
                           | None => True
                           end) (Block.statements body)).
    { apply Forall_forall. intros [s|] _; [|exact I].
      apply PrinterFacts.print_ast_indent. }
    apply (PrinterFacts.print_each_indent Main.print_ast _ Hall).
Qed.

(** * Whole sources, piece by piece *)

Module LexerWhole.
Import Lexer LexerRuns LexerSteps LexerPieces.

(** ** Every text starts with a piece *)

Lemma span (P : ascii -> bool) (l : list ascii) :
  exists run rest,
    l = run ++ rest
    /\ Forall (fun c => P c = true) run
    /\ match rest with
       | [] => True
       | c :: _ => P c = false
       end.
Proof.
  induction l as [|a l (run & rest & -> & Hrun & Hrest)].
  - exists [], []. repeat split. constructor.
  - destruct (P a) eqn:Ha.
    + exists (a :: run), rest. repeat split; [now constructor | assumption].
    + exists [], (a :: run ++ rest). repeat split; [constructor | assumption].
Qed.

Lemma span_class (P : ascii -> bool) (l : list ascii) :
  P NUL = false ->
  exists run rest,
    l = run ++ rest
    /\ Forall (fun c => P c = true) run
    /\ P (first_char rest) = false.
Proof.
  intros HN. destruct (span P l) as (run & rest & -> & Hrun & Hrest).
  exists run, rest. repeat split; [assumption|]. now destruct rest.
Qed.

Lemma span_until (x : ascii) (l : list ascii) :
  exists run rest,
    l = run ++ rest
    /\ Forall (fun c => c <> x) run
    /\ (rest = [] \/ exists rest', rest = x :: rest').
Proof.
  destruct (span (fun c => negb (Ascii.eqb c x)) l)
    as (run & rest & -> & Hrun & Hrest).
  exists run, rest. repeat split.
  - eapply Forall_impl; [|exact Hrun]. intros c Hc ->.
    now rewrite Ascii.eqb_refl in Hc.
  - destruct rest as [|c rest]; [now left|]. right. exists rest.
    apply negb_false_iff, Ascii.eqb_eq in Hrest. now subst.
Qed.

Lemma first_char_is (x : ascii) (r : list ascii) :
  x <> NUL -> first_char r = x -> exists r', r = x :: r'.
Proof.
  intros Hx. destruct r as [|c r]; simpl; [congruence|].
  intros ->. now exists r.
Qed.

Lemma decompose n :
  forall l,
    length l <= n ->
    exists pieces t,
      l = render pieces ++ tail_text t
      /\ pieces_before (tail_text t) pieces
      /\ tail_ok t.
Proof.
  induction n as [|n IH]; intros l Hl.
  { destruct l; [|simpl in Hl; lia]. exists [], EndOfSource.
    repeat split. }
  destruct l as [|c r]; [exists [], EndOfSource; repeat split|].
  simpl in Hl.
  assert (Hstep : forall x rest,
             c :: r = piece_text x ++ rest ->
             length rest <= n ->
             piece_ok x rest ->
             exists pieces t,
               c :: r = render pieces ++ tail_text t
               /\ pieces_before (tail_text t) pieces
               /\ tail_ok t).
  { intros x rest E Hr Hx.
    destruct (IH rest Hr) as (pieces & t & -> & Hp & Ht).
    exists (x :: pieces), t. cbn [render pieces_before].
    rewrite <- app_assoc. auto. }
  destruct (is_blank c) eqn:Hb.
  { apply (Hstep (Blank c) r); [reflexivity | lia | exact Hb]. }
  destruct (Ascii.eqb_spec c DQUOTE) as [->|Hq].
  { destruct (span_until DQUOTE r) as (content & rest & -> & Hc & Hrest).
    destruct Hrest as [-> | (rest' & ->)].
    - exists [], (OpenLiteral content). rewrite app_nil_r.
      repeat split. exact Hc.
    - apply (Hstep (Literal content) rest').
      + simpl. now rewrite <- app_assoc.
      + rewrite length_app in Hl. simpl in Hl. lia.
      + exact Hc. }
  destruct (Ascii.eqb_spec c "#") as [->|Hh].
  { destruct (Ascii.eqb_spec (first_char r) "i") as [Hi|Hi].
    - apply first_char_is in Hi; [|discriminate].
      destruct Hi as (r' & ->).
      destruct (le_lt_dec 5 (length r')) as [H5|H5].
      + apply (Hstep (Directive (firstn 5 r')) (skipn 5 r')).
        * cbn [piece_text app]. now rewrite firstn_skipn.
        * rewrite length_skipn. simpl in Hl. lia.
        * cbn [piece_ok]. now rewrite length_firstn, Nat.min_l.
      + exists [], (CutDirective r'). repeat split. exact H5.
    - apply (Hstep (Dropped "#") r); [reflexivity | lia |].
      split; [reflexivity|]. right. now split. }
  destruct (Ascii.eqb_spec c "/") as [->|Hs].
  { destruct (Ascii.eqb_spec (first_char r) "/") as [Hi|Hi].
    - apply first_char_is in Hi; [|discriminate].
      destruct Hi as (r' & ->).
      destruct (span_until LF r') as (body & rest & -> & Hbody & Hrest).
      apply (Hstep (Comment body) rest).
      + reflexivity.
      + simpl in Hl. rewrite length_app in Hl. lia.
      + split; [exact Hbody|].
        destruct Hrest as [-> | (rest' & ->)]; [now left | now right].
    - apply (Hstep (Dropped "/") r); [reflexivity | lia |].
      split; [reflexivity|]. left. split; [reflexivity | auto]. }
  destruct (single_char c) as [ty|] eqn:Hsc.
  { apply (Hstep (Punctuation c ty) r); [reflexivity | lia |].
    now apply spec_punctuation_single_char. }
  destruct (isdigit c) eqn:Hd.
  { destruct (span_class isdigit r eq_refl)
      as (run & rest & -> & Hrun & Hrest).
    apply (Hstep (Number c run) rest).
    - reflexivity.
    - rewrite length_app in Hl. lia.
    - split; [now constructor | exact Hrest]. }
  destruct (ident_start c) eqn:Hi.
  { destruct (span_class ident_char r eq_refl)
      as (run & rest & -> & Hrun & Hrest).
    apply (Hstep (Word c run) rest).
    - reflexivity.
    - rewrite length_app in Hl. lia.
    - repeat split; assumption. }
  apply (Hstep (Dropped c) r); [reflexivity | lia |].
  split; [exact Hb|]. left. split; [|intros ->; contradiction].
  unfold is_unknown. rewrite Hsc, Hd, Hi.
  apply Ascii.eqb_neq in Hh, Hq. now rewrite Hh, Hq.
Qed.

(** Every source is a sequence of pieces and a tail. *)
Lemma source_pieces (l : list ascii) :
  exists pieces t,
    l = render pieces ++ tail_text t
    /\ pieces_before (tail_text t) pieces
    /\ tail_ok t.
Proof. now apply (decompose (length l)). Qed.

(** ** The run over pieces and tail *)

Lemma run_tail t lx :
  unread lx = tail_text t -> tail_ok t ->
  run lx (trace_from lx [] t) (lexer_after lx [] t).
Proof.
  intros H Hok. cbn [trace_from lexer_after]. cbv zeta.
  destruct t as [|content|short]; cbn [tail_text tail_ok tail_moves
                                        tail_newlines tail_tokens map] in *.
  - rewrite moved_0. constructor. now apply unread_nil.
  - destruct (iteration_unterminated content lx H Hok) as [Hit He].
    pose proof (run_step lx _ _ _ _ _ (unread_cons _ _ _ H) Hit
                  (run_end _ He)) as Hrun.
    rewrite app_nil_r in Hrun. exact Hrun.
  - pose proof (iteration_include short lx H) as Hit.
    assert (He : is_at_end (moved lx 7 0) = true).
    { apply unread_nil. rewrite unread_moved, H.
      apply skipn_all2. simpl. lia. }
    pose proof (run_step lx _ _ _ _ _ (unread_cons _ _ _ H) Hit
                  (run_end _ He)) as Hrun.
    rewrite app_nil_r in Hrun. cbn [moved m_line].
    now rewrite Nat.add_0_r.
Qed.

Lemma run_trace pieces :
  forall lx t,
    unread lx = render pieces ++ tail_text t ->
    pieces_before (tail_text t) pieces ->
    tail_ok t ->
    run lx (trace_from lx pieces t) (lexer_after lx pieces t).
Proof.
  induction pieces as [|x pieces IH]; intros lx t H Hok Ht.
  - now apply run_tail.
  - destruct Hok as [Hx Hok]. cbn [render] in H. rewrite <- app_assoc in H.
    cbn [trace_from lexer_after]. cbv zeta.
    set (lx1 := moved lx (length (piece_text x)) (piece_newlines x)).
    assert (H1 : unread lx1 = render pieces ++ tail_text t).
    { unfold lx1. rewrite unread_moved, H, skipn_app, skipn_all, Nat.sub_diag.
      reflexivity. }
    pose proof (IH lx1 t H1 Hok Ht) as Hrun.
    assert (He : is_at_end lx = false).
    { destruct (piece_text_cons x) as (c & r & E). rewrite E in H.
      apply (unread_cons _ _ _ H). }
    destruct (piece_step x _ lx H Hx) as [[Hnil Hit]|Hit]; fold lx1 in Hit.
    + fold lx1 in Hnil. rewrite Hnil. now apply (run_skip lx lx1).
    + now apply (run_step lx false lx1).
Qed.

(** The tokens of the trace and the line counter at its end. *)
Lemma trace_tokens pieces :
  forall lx t,
    map snd (trace_from lx pieces t)
    = tokens_from (m_line lx) pieces
      ++ tail_tokens t (m_line lx + newlines_of pieces + tail_newlines t)
    /\ m_line (lexer_after lx pieces t)
       = m_line lx + newlines_of pieces + tail_newlines t.
Proof.
  induction pieces as [|x pieces IH]; intros lx t.
  - cbn [trace_from lexer_after tokens_from app]. cbv zeta.
    unfold newlines_of. cbn [map list_sum moved m_line].
    rewrite map_map, map_id, Nat.add_0_r. split; reflexivity.
  - cbn [trace_from lexer_after tokens_from]. cbv zeta.
    destruct (IH (moved lx (length (piece_text x)) (piece_newlines x)) t)
      as [E1 E2].
    rewrite map_app, map_map, map_id, E1, E2.
    unfold newlines_of. cbn [map list_sum fold_right moved m_line].
    rewrite <- app_assoc, !Nat.add_assoc. split; reflexivity.
Qed.

(** What [tokenize] and [tokenize_at] return, by the pieces of the
    source. *)
Lemma tokenize_with_pieces (source : string) pieces t :
  list_ascii_of_string source = render pieces ++ tail_text t ->
  pieces_before (tail_text t) pieces ->
  tail_ok t ->
  forall (A : Type) (note : Lexer.t -> Token -> A),
    tokenize_with note (new source)
    = Some (map (fun x => note (fst x) (snd x))
              (trace_from (new source) pieces t
               ++ [(lexer_after (new source) pieces t,
                    make_token (lexer_after (new source) pieces t)
                      END_OF_FILE EmptyString)])).
Proof.
  intros Hs Hok Ht A note.
  destruct (LexerFacts.tokenize_trace source) as (tr & lx' & Hrun & Hw).
  assert (Hu : unread (new source) = render pieces ++ tail_text t)
    by exact Hs.
  destruct (run_deterministic _ _ _ Hrun _ _
              (run_trace pieces (new source) t Hu Hok Ht)) as [-> ->].
  apply Hw.
Qed.

(** ** Where the reading of the source stands after a piece *)

Lemma mode_code_char c r :
  c <> DQUOTE -> c <> "/"%char -> c <> "#"%char ->
  mode_after InCode (c :: r) = mode_after InCode r.
Proof.
  intros Hq Hs Hh. apply Ascii.eqb_neq in Hq, Hs, Hh.
  cbn [mode_after]. now rewrite Hq, Hs, Hh.
Qed.

Lemma mode_code_run run rest :
  Forall (fun c => c <> DQUOTE /\ c <> "/"%char /\ c <> "#"%char) run ->
  mode_after InCode (run ++ rest) = mode_after InCode rest.
Proof.
  induction 1 as [|c run (Hq & Hs & Hh) _ IH]; [reflexivity|].
  cbn [app]. now rewrite mode_code_char.
Qed.

Lemma mode_comment body rest :
  Forall (fun c => c <> LF) body ->
  mode_after InComment (body ++ rest) = mode_after InComment rest.
Proof.
  induction 1 as [|c body Hc _ IH]; [reflexivity|].
  apply Ascii.eqb_neq in Hc. cbn [app mode_after]. now rewrite Hc.
Qed.

Lemma mode_string content rest :
  Forall (fun c => c <> DQUOTE) content ->
  mode_after InString (content ++ rest) = mode_after InString rest.
Proof.
  induction 1 as [|c content Hc _ IH]; [reflexivity|].
  apply Ascii.eqb_neq in Hc. cbn [app mode_after]. now rewrite Hc.
Qed.

Lemma mode_jump l :
  forall k rest,
    length l = S k ->
    mode_after (InJump k) (l ++ rest) = mode_after InCode rest.
Proof.
  induction l as [|c l IH]; intros k rest Hl; [discriminate|].
  destruct k as [|k]; cbn [app mode_after].
  - destruct l; [reflexivity | discriminate].
  - apply IH. simpl in Hl. lia.
Qed.

Lemma mode_jump_short l :
  forall k, length l <= k -> exists j, mode_after (InJump k) l = InJump j.
Proof.
  induction l as [|c l IH]; intros k Hl; [now exists k|].
  destruct k as [|k]; [simpl in Hl; lia|].
  cbn [mode_after]. apply IH. simpl in Hl. lia.
Qed.

Lemma ident_char_plain c :
  ident_char c = true -> c <> DQUOTE /\ c <> "/"%char /\ c <> "#"%char.
Proof. intros H. repeat split; intros ->; discriminate H. Qed.

Lemma isdigit_plain c :
  isdigit c = true -> c <> DQUOTE /\ c <> "/"%char /\ c <> "#"%char.
Proof. intros H. repeat split; intros ->; discriminate H. Qed.

Lemma ends_piece x rest :
  piece_ok x rest ->
  ends_in_string (piece_text x ++ rest) = ends_in_string rest.
Proof.
  intros Hok. unfold ends_in_string.
  destruct x as [c|body|c|c run|c run|c ty|content|five];
    cbn [piece_text piece_ok] in *.
  - cbn [app]. rewrite mode_code_char; [reflexivity | | |];
      intros ->; discriminate Hok.
  - destruct Hok as [Hbody Hrest]. cbn [app mode_after first_char hd].
    cbn. rewrite (mode_comment body rest Hbody).
    destruct Hrest as [-> | Hr]; [reflexivity|].
    apply first_char_is in Hr; [|discriminate]. destruct Hr as (r' & ->).
    reflexivity.
  - destruct Hok as [Hb [[Hu Hs] | [-> Hi]]]; cbn [app mode_after].
    + assert (Hq : Ascii.eqb c DQUOTE = false)
        by (apply Ascii.eqb_neq; intros ->; discriminate Hu).
      assert (Hh : Ascii.eqb c "#" = false)
        by (apply Ascii.eqb_neq; intros ->; discriminate Hu).
      rewrite Hq, Hh. destruct (Ascii.eqb_spec c "/") as [->|Hn].
      * apply Ascii.eqb_neq in Hs; [|reflexivity]. now rewrite Hs.
      * reflexivity.
    + apply Ascii.eqb_neq in Hi. cbn. now rewrite Hi.
  - destruct Hok as (Hs & Hr & _).
    rewrite (mode_code_run (c :: run) rest); [reflexivity|].
    constructor.
    + apply ident_char_plain. now apply LexerFacts.ident_start_char.
    + eapply Forall_impl; [|exact Hr]. apply ident_char_plain.
  - destruct Hok as (Hd & _).
    rewrite (mode_code_run (c :: run) rest); [reflexivity|].
    eapply Forall_impl; [|exact Hd]. apply isdigit_plain.
  - unfold spec_punctuation in Hok. simpl in Hok.
    repeat (destruct Hok as [[= <- <-]|Hok]; [reflexivity|]). contradiction.
  - cbn [app]. rewrite <- app_assoc. cbn [app mode_after].
    rewrite Ascii.eqb_refl, (mode_string content _ Hok).
    cbn [mode_after]. now rewrite Ascii.eqb_refl.
  - cbn [app mode_after first_char hd]. cbn.
    rewrite (mode_jump five 4 rest Hok). reflexivity.
Qed.

Lemma ends_pieces tail pieces :
  pieces_before tail pieces ->
  ends_in_string (render pieces ++ tail) = ends_in_string tail.
Proof.
  induction pieces as [|x pieces IH]; intros Hok; [reflexivity|].
  destruct Hok as [Hx Hok]. cbn [render]. rewrite <- app_assoc.
  rewrite (ends_piece x _ Hx). now apply IH.
Qed.

Lemma ends_tail t :
  tail_ok t ->
  ends_in_string (tail_text t)
  = match t with
    | OpenLiteral _ => true
    | _ => false
    end.
Proof.
  intros Hok. unfold ends_in_string.
  destruct t as [|content|short]; cbn [tail_text tail_ok] in *.
  - reflexivity.
  - cbn [mode_after]. rewrite Ascii.eqb_refl.
    rewrite <- (app_nil_r content), (mode_string content [] Hok).
    reflexivity.
  - cbn. destruct (mode_jump_short short 4 ltac:(lia)) as (j & ->).
    reflexivity.
Qed.

(** ** The kinds of the tokens of a piece *)

Lemma spec_token_kind_word text :
  spec_token_kind text <> END_OF_FILE /\ spec_token_kind text <> INCLUDE.
Proof.
  unfold spec_token_kind.
  repeat match goal with
         | |- context [string_dec ?a ?b] => destruct (string_dec a b)
         end; split; discriminate.
Qed.

Lemma spec_punctuation_kind c ty :
  In (c, ty) spec_punctuation -> ty <> END_OF_FILE /\ ty <> INCLUDE.
Proof.
  unfold spec_punctuation. simpl. intros H.
  repeat (destruct H as [[= <- <-]|H]; [split; discriminate|]).
  contradiction.
Qed.

(** A piece gives no token or one, made on the line it is given; the token
    is an include token for a directive only, and never an end-of-stream
    token. *)
Lemma piece_tokens_shape x rest ln :
  piece_ok x rest ->
  (piece_tokens x ln = [] /\ jump_newlines x = 0)
  \/ exists tok,
       piece_tokens x ln = [tok] /\ line tok = ln
       /\ type tok <> END_OF_FILE
       /\ ((type tok <> INCLUDE /\ jump_newlines x = 0)
           \/ (type tok = INCLUDE /\ exists five, x = Directive five)).
Proof.
  intros Hok.
  destruct x as [c|body|c|c run|c run|c ty|content|five];
    cbn [piece_tokens jump_newlines piece_ok] in *;
    try (left; split; reflexivity); right; eexists;
    (split; [reflexivity|]); (split; [reflexivity|]); cbn [type].
  - destruct (spec_token_kind_word (string_of_list_ascii (c :: run))).
    split; [assumption|]. left. now split.
  - split; [discriminate|]. left. split; [discriminate | reflexivity].
  - destruct (spec_punctuation_kind c ty Hok).
    split; [assumption|]. left. now split.
  - split; [discriminate|]. left. split; [discriminate | reflexivity].
  - split; [discriminate|]. right. split; [reflexivity|]. now exists five.
Qed.

Lemma tokens_from_not_eof tail pieces :
  pieces_before tail pieces ->
  forall ln,
    Forall (fun tok => type tok <> END_OF_FILE) (tokens_from ln pieces).
Proof.
  induction pieces as [|x pieces IH]; intros Hok ln; [constructor|].
  destruct Hok as [Hx Hok]. cbn [tokens_from]. apply Forall_app. split.
  - destruct (piece_tokens_shape x _ (ln + piece_newlines x) Hx)
      as [[-> _] | (tok & -> & _ & Hne & _)]; repeat constructor.
    exact Hne.
  - now apply IH.
Qed.

(** ** The line counter and the newlines of the source *)

Lemma firstn_add {A : Type} (l : list A) :
  forall p n, firstn (p + n) l = firstn p l ++ firstn n (skipn p l).
Proof.
  induction l as [|a l IH]; intros [|p] n; simpl; try reflexivity.
  - now rewrite firstn_nil.
  - now rewrite IH.
Qed.

Lemma firstn_app_exact {A : Type} (a b : list A) :
  firstn (length a) (a ++ b) = a.
Proof. induction a as [|x a IH]; simpl; [now destruct b | now rewrite IH]. Qed.

Lemma newlines_moved (source : string) lx n :
  m_source lx = list_ascii_of_string source ->
  newlines_before source (m_current_pos lx + n)
  = newlines_before source (m_current_pos lx)
    + count_newlines (firstn n (unread lx)).
Proof.
  intros Hs. unfold newlines_before, unread. rewrite <- Hs, firstn_add.
  apply LexerFacts.count_newlines_app.
Qed.

Lemma count_newlines_none l :
  Forall (fun c => c <> LF) l -> count_newlines l = 0.
Proof.
  induction 1 as [|c l Hc _ IH]; [reflexivity|].
  rewrite count_newlines_cons, IH. apply Ascii.eqb_neq in Hc.
  now rewrite Hc.
Qed.

(** The newlines of a piece are those the line counter counts and those a
    jump passes. *)
Lemma count_piece x rest :
  piece_ok x rest ->
  count_newlines (piece_text x) = piece_newlines x + jump_newlines x.
Proof.
  intros Hok.
  destruct x as [c|body|c|c run|c run|c ty|content|five];
    cbn [piece_text piece_ok piece_newlines jump_newlines] in *.
  - lia.
  - destruct Hok as [Hbody _].
    rewrite !count_newlines_cons, (count_newlines_none body Hbody).
    reflexivity.
  - destruct Hok as [Hb _]. apply count_newlines_none.
    constructor; [|constructor]. intros ->. discriminate Hb.
  - destruct Hok as (Hs & Hr & _). apply count_newlines_none. constructor.
    + apply LexerFacts.ident_char_not_LF.
      now apply LexerFacts.ident_start_char.
    + eapply Forall_impl; [|exact Hr]. apply LexerFacts.ident_char_not_LF.
  - destruct Hok as (Hd & _). apply count_newlines_none.
    eapply Forall_impl; [|exact Hd]. apply LexerFacts.isdigit_not_LF.
  - unfold spec_punctuation in Hok. simpl in Hok.
    repeat (destruct Hok as [[= <- <-]|Hok]; [reflexivity|]). contradiction.
  - rewrite count_newlines_cons, LexerFacts.count_newlines_app.
    change (Ascii.eqb DQUOTE LF) with false.
    change (count_newlines [DQUOTE]) with 0. cbv iota. lia.
  - rewrite !count_newlines_cons. reflexivity.
Qed.

(** The newlines among the six characters before the cursor that a jump
    leaves are those among the characters after the [i]. *)
Lemma jumped_directive (source : string) lx five rest n :
  m_source lx = list_ascii_of_string source ->
  unread lx = "#"%char :: "i"%char :: five ++ rest ->
  firstn 5 (five ++ rest) = five ->
  n = 7 ->
  count_newlines
    (firstn 6 (skipn (m_current_pos lx + n - 6) (list_ascii_of_string source)))
  = count_newlines five.
Proof.
  intros Hs H H5 ->.
  replace (m_current_pos lx + 7 - 6) with (1 + m_current_pos lx) by lia.
  rewrite <- Hs, <- skipn_skipn. fold (unread lx). rewrite H.
  change (firstn 6 (skipn 1 ("#"%char :: "i"%char :: five ++ rest)))
    with ("i"%char :: firstn 5 (five ++ rest)).
  rewrite H5, count_newlines_cons. reflexivity.
Qed.

Lemma jumped_cons (source : string) x l :
  jumped_newlines source (x :: l)
  = jumped_newlines source [x] + jumped_newlines source l.
Proof. unfold jumped_newlines. simpl. lia. Qed.

Lemma lines_exact_plain (source : string) J tok pos l :
  type tok <> INCLUDE ->
  line tok + J = newlines_before source pos + 1 ->
  lines_exact source J l ->
  lines_exact source J ((tok, pos) :: l).
Proof.
  intros Hne Hl Hrest. cbn [lines_exact]. cbv zeta.
  assert (E : jumped_newlines source [(tok, pos)] = 0).
  { unfold jumped_newlines. cbn [map fst list_sum fold_right].
    apply ParserFacts.TokenType_eqb_neq in Hne. now rewrite Hne. }
  rewrite E, Nat.add_0_r. now split.
Qed.

Lemma lines_exact_include (source : string) J j tok pos l :
  type tok = INCLUDE ->
  count_newlines (firstn 6 (skipn (pos - 6) (list_ascii_of_string source)))
  = j ->
  line tok + (J + j) = newlines_before source pos + 1 ->
  lines_exact source (J + j) l ->
  lines_exact source J ((tok, pos) :: l).
Proof.
  intros Ht Hj Hl Hrest. cbn [lines_exact]. cbv zeta.
  assert (E : jumped_newlines source [(tok, pos)] = j).
  { unfold jumped_newlines. cbn [map fst snd list_sum fold_right].
    apply ParserFacts.TokenType_eqb_eq in Ht. rewrite Ht, Hj. lia. }
  rewrite E. now split.
Qed.

Lemma lines_exact_at (source : string) pre :
  forall J x post,
    lines_exact source J (pre ++ x :: post) ->
    line (fst x) + J + jumped_newlines source (pre ++ [x])
    = newlines_before source (snd x) + 1.
Proof.
  induction pre as [|y pre IH]; intros J x post H.
  - destruct H as [H _]. cbn [app]. lia.
  - destruct H as [_ H]. cbn [app]. rewrite jumped_cons.
    specialize (IH _ _ _ H). lia.
Qed.

(** The line counter after a move of the cursor over [n] characters. *)
Lemma line_moved (source : string) lx J n k j :
  m_source lx = list_ascii_of_string source ->
  m_line lx + J = newlines_before source (m_current_pos lx) + 1 ->
  count_newlines (firstn n (unread lx)) = k + j ->
  m_line (moved lx n k) + (J + j)
  = newlines_before source (m_current_pos (moved lx n k)) + 1.
Proof.
  intros Hs Hl Hc. cbn [moved m_line m_current_pos].
  rewrite (newlines_moved source lx n Hs), Hc. lia.
Qed.

Lemma tail_lines (source : string) t lx J :
  m_source lx = list_ascii_of_string source ->
  unread lx = tail_text t ->
  tail_ok t ->
  m_line lx + J = newlines_before source (m_current_pos lx) + 1 ->
  lines_exact source J
    (map (fun y => (snd y, m_current_pos (fst y)))
       (trace_from lx [] t
        ++ [(lexer_after lx [] t,
             make_token (lexer_after lx [] t) END_OF_FILE EmptyString)])).
Proof.
  intros Hs H Hok Hl. cbn [trace_from lexer_after]. cbv zeta.
  destruct t as [|content|short];
    cbn [tail_text tail_ok tail_moves tail_newlines tail_tokens map app
         fst snd] in *.
  - rewrite moved_0. apply lines_exact_plain; [discriminate | | exact I].
    exact Hl.
  - assert (Hl1 : m_line (moved lx (length content + 1)
                            (count_newlines content)) + (J + 0)
                  = newlines_before source
                      (m_current_pos (moved lx (length content + 1)
                                        (count_newlines content))) + 1).
    { apply line_moved; [assumption | assumption |].
      rewrite H, firstn_all2 by (simpl; lia).
      rewrite count_newlines_cons. simpl. lia. }
    rewrite Nat.add_0_r in Hl1.
    apply lines_exact_plain; [discriminate | exact Hl1 |].
    apply lines_exact_plain; [discriminate | exact Hl1 | exact I].
  - assert (Hl1 : m_line (moved lx 7 0) + (J + count_newlines short)
                  = newlines_before source (m_current_pos (moved lx 7 0)) + 1).
    { apply line_moved; [assumption | assumption |].
      rewrite H, firstn_all2 by (simpl; lia).
      rewrite !count_newlines_cons. reflexivity. }
    apply (lines_exact_include source J (count_newlines short)).
    + reflexivity.
    + cbn [moved m_current_pos].
      apply (jumped_directive source lx short [] 7 Hs).
      * now rewrite app_nil_r.
      * rewrite app_nil_r. apply firstn_all2. lia.
      * reflexivity.
    + exact Hl1.
    + apply lines_exact_plain; [discriminate | exact Hl1 | exact I].
Qed.

(** The lines of all the tokens of a source, piece by piece. *)
Lemma trace_lines (source : string) pieces :
  forall lx t J,
    m_source lx = list_ascii_of_string source ->
    unread lx = render pieces ++ tail_text t ->
    pieces_before (tail_text t) pieces ->
    tail_ok t ->
    m_line lx + J = newlines_before source (m_current_pos lx) + 1 ->
    lines_exact source J
      (map (fun y => (snd y, m_current_pos (fst y)))
         (trace_from lx pieces t
          ++ [(lexer_after lx pieces t,
               make_token (lexer_after lx pieces t)
                 END_OF_FILE EmptyString)])).
Proof.
  induction pieces as [|x pieces IH]; intros lx t J Hs H Hok Ht Hl.
  - now apply tail_lines.
  - destruct Hok as [Hx Hok]. cbn [render] in H. rewrite <- app_assoc in H.
    cbn [trace_from lexer_after]. cbv zeta.
    set (lx1 := moved lx (length (piece_text x)) (piece_newlines x)).
    assert (H1 : unread lx1 = render pieces ++ tail_text t).
    { unfold lx1. rewrite unread_moved, H, skipn_app, skipn_all, Nat.sub_diag.
      reflexivity. }
    assert (Hs1 : m_source lx1 = list_ascii_of_string source) by exact Hs.
    assert (Hl1 : m_line lx1 + (J + jump_newlines x)
                  = newlines_before source (m_current_pos lx1) + 1).
    { apply line_moved; [assumption | assumption |].
      rewrite H, firstn_app_exact. now apply (count_piece x _ Hx). }
    destruct (piece_tokens_shape x _ (m_line lx1) Hx)
      as [[-> Hj] | (tok & -> & Hline & _ & [[Hne Hj] | [Hi (five & ->)]])].
    + rewrite Hj, Nat.add_0_r in Hl1. cbn [map app].
      now apply IH.
    + rewrite Hj, Nat.add_0_r in Hl1. cbn [map app fst snd].
      apply lines_exact_plain; [assumption | now rewrite Hline |].
      now apply IH.
    + cbn [map app fst snd]. cbn [jump_newlines] in Hl1.
      apply (lines_exact_include source J (count_newlines five)).
      * assumption.
      * unfold lx1. cbn [moved m_current_pos].
        cbn [piece_text app] in H. cbn [piece_ok] in Hx.
        apply (jumped_directive source lx five _ _ Hs H).
        -- rewrite <- Hx. apply firstn_app_exact.
        -- cbn [piece_text length]. now rewrite Hx.
      * now rewrite Hline.
      * now apply IH.
Qed.

(** ** The cursor and the line counter stay in the range of [int] *)

Lemma count_newlines_le l : count_newlines l <= length l.
Proof. unfold count_newlines. apply filter_length_le. Qed.

Lemma piece_newlines_le x : piece_newlines x <= length (piece_text x).
Proof.
  destruct x; cbn [piece_newlines piece_text]; try (simpl; lia).
  - apply count_newlines_le.
  - pose proof (count_newlines_le content). simpl. rewrite length_app.
    simpl. lia.
Qed.

(** Every token of pieces and tail is made with the cursor at most five
    past the end of the text and on a line at most the number of characters
    after the line of the start. *)
Lemma trace_bounds pieces :
  forall lx t,
    pieces_before (tail_text t) pieces ->
    Forall (fun y =>
              m_current_pos (fst y)
              <= m_current_pos lx + length (render pieces ++ tail_text t) + 5
              /\ line (snd y)
                 <= m_line lx + length (render pieces ++ tail_text t))
           (trace_from lx pieces t
            ++ [(lexer_after lx pieces t,
                 make_token (lexer_after lx pieces t)
                   END_OF_FILE EmptyString)]).
Proof.
  induction pieces as [|x pieces IH]; intros lx t Hok.
  - cbn [trace_from lexer_after render app]. cbv zeta.
    destruct t as [|content|short];
      cbn [tail_text tail_moves tail_newlines tail_tokens map app];
      repeat constructor; cbn [fst snd line make_token moved m_current_pos
                                m_line length];
      try pose proof (count_newlines_le content); lia.
  - destruct Hok as [Hx Hok]. cbn [trace_from lexer_after render]. cbv zeta.
    set (lx1 := moved lx (length (piece_text x)) (piece_newlines x)).
    rewrite <- !app_assoc. apply Forall_app. split.
    + destruct (piece_tokens_shape x _ (m_line lx1) Hx)
        as [[-> _] | (tok & -> & Hline & _)]; [constructor|].
      constructor; [|constructor]. cbn [fst snd]. rewrite Hline.
      unfold lx1. cbn [moved m_current_pos m_line].
      pose proof (piece_newlines_le x). rewrite !length_app. lia.
    + eapply Forall_impl; [|apply (IH lx1 t Hok)].
      intros y [Hp Hl]. unfold lx1 in Hp, Hl.
      cbn [moved m_current_pos m_line] in Hp, Hl.
      pose proof (piece_newlines_le x).
      rewrite (length_app (piece_text x)). lia.
Qed.

End LexerWhole.

(** * The claims about whole sources *)

(** The natural numbers of the model are the [int]s of the code: for a
    source of [fits_int], every token is made with a cursor and on a line
    that an [int] holds. *)
Lemma lexer_counters_fit_int (source : string) :
  fits_int (list_ascii_of_string source) ->
  exists toks,
    Lexer.tokenize_at source = Some toks
    /\ Forall (fun x =>
                 (N.of_nat (snd x) <= INT_MAX)%N
                 /\ (N.of_nat (line (fst x)) <= INT_MAX)%N) toks.
Proof.
  intros Hfit.
  destruct (LexerWhole.source_pieces (list_ascii_of_string source))
    as (pieces & t & Hs & Hok & Ht).
  pose proof (LexerWhole.tokenize_with_pieces source pieces t Hs Hok Ht
                _ (fun lx tok => (tok, Lexer.m_current_pos lx))) as Hw.
  unfold Lexer.tokenize_at. rewrite Hw. eexists. split; [reflexivity|].
  apply Forall_map.
  eapply Forall_impl; [|apply (LexerWhole.trace_bounds pieces _ t Hok)].
  intros y [Hp Hl]. cbn [fst snd]. rewrite <- Hs in Hp, Hl.
  unfold fits_int, INT_MAX in *.
  cbn [Lexer.new Lexer.m_current_pos Lexer.m_line] in Hp, Hl. lia.
Qed.

Lemma count_eof_app (a b : list Token) :
  count_eof (a ++ b) = count_eof a + count_eof b.
Proof. unfold count_eof. now rewrite filter_app, length_app. Qed.

Lemma count_eof_none (pre : list Token) :
  Forall (fun tok => type tok <> END_OF_FILE) pre -> count_eof pre = 0.
Proof.
  unfold count_eof. induction 1 as [|tok pre Hne _ IH]; [reflexivity|].
  simpl. apply ParserFacts.TokenType_eqb_neq in Hne. now rewrite Hne.
Qed.

(** C3, as the code has it.  For every source text short enough for the
    [int] cursor, [tokenize] returns a sequence whose last token is an
    end-of-stream token with an empty text.  No earlier token is an
    end-of-stream token, with one exception: exactly when the source ends
    inside a string literal that is not closed, the sentinel end-of-stream
    token with text ERROR that stands for the literal comes right before
    the final one, on the same line, and the kind occurs twice.  Whether
    the source ends inside a string literal is read off the source alone,
    from left to right: a double quote in code opens a literal that runs
    to the next double quote; two slashes open a comment that runs to the
    end of the line; a hash sign followed by [i] hides the next six
    characters. *)
Theorem tokenize_end_of_file_tokens (source : string) :
  fits_int (list_ascii_of_string source) ->
  exists toks pre ln,
    Lexer.tokenize source = Some toks
    /\ toks
       = pre
         ++ (if ends_in_string (list_ascii_of_string source)
             then [mkToken END_OF_FILE "ERROR" ln]
             else [])
         ++ [mkToken END_OF_FILE EmptyString ln]
    /\ Forall (fun tok => type tok <> END_OF_FILE) pre
    /\ count_eof toks
       = (if ends_in_string (list_ascii_of_string source) then 2 else 1).
Proof.
  intros _.
  destruct (LexerWhole.source_pieces (list_ascii_of_string source))
    as (pieces & t & Hs & Hok & Ht).
  pose proof (LexerWhole.tokenize_with_pieces source pieces t Hs Hok Ht
                Token (fun _ tok => tok)) as Hw.
  unfold Lexer.tokenize. rewrite Hw. clear Hw.
  destruct (LexerWhole.trace_tokens pieces (Lexer.new source) t) as [E1 E2].
  assert (E : map (fun x : Lexer.t * Token => snd x)
                (trace_from (Lexer.new source) pieces t)
              = map snd (trace_from (Lexer.new source) pieces t))
    by reflexivity.
  rewrite map_app, E, E1. cbn [map fst snd]. unfold Lexer.make_token.
  rewrite E2. clear E E1 E2.
  pose proof (LexerWhole.tokens_from_not_eof _ _ Hok
                (Lexer.m_line (Lexer.new source))) as Hne.
  rewrite Hs, (LexerWhole.ends_pieces _ _ Hok), (LexerWhole.ends_tail t Ht).
  set (ln := Lexer.m_line (Lexer.new source) + newlines_of pieces
             + tail_newlines t).
  set (front := tokens_from (Lexer.m_line (Lexer.new source)) pieces) in *.
  destruct t as [|content|short]; cbn [tail_tokens].
  - exists ((front ++ []) ++ [mkToken END_OF_FILE EmptyString ln]), front, ln.
    split; [reflexivity|]. split; [now rewrite app_nil_r|].
    split; [exact Hne|].
    rewrite !count_eof_app, (count_eof_none _ Hne). reflexivity.
  - exists ((front ++ [mkToken END_OF_FILE "ERROR" ln])
            ++ [mkToken END_OF_FILE EmptyString ln]), front, ln.
    split; [reflexivity|]. split; [now rewrite <- app_assoc|].
    split; [exact Hne|].
    rewrite !count_eof_app, (count_eof_none _ Hne). reflexivity.
  - exists ((front ++ [mkToken INCLUDE "#include" ln])
            ++ [mkToken END_OF_FILE EmptyString ln]),
      (front ++ [mkToken INCLUDE "#include" ln]), ln.
    split; [reflexivity|]. split; [reflexivity|]. split.
    + apply Forall_app. split; [exact Hne|].
      constructor; [discriminate | constructor].
    + rewrite !count_eof_app, (count_eof_none _ Hne). reflexivity.
Qed.

(** A word, a closed literal, and a literal that is not closed. *)
Lemma tokenize_end_of_file_tokens_witness :
  exists toks pre ln,
    Lexer.tokenize
      (String "a" (String DQUOTE (String "b" (String DQUOTE
         (String DQUOTE "c")))))
    = Some toks
    /\ toks
       = pre ++ [mkToken END_OF_FILE "ERROR" ln]
         ++ [mkToken END_OF_FILE EmptyString ln]
    /\ Forall (fun tok => type tok <> END_OF_FILE) pre
    /\ count_eof toks = 2.
Proof.
  apply (tokenize_end_of_file_tokens
           (String "a" (String DQUOTE (String "b" (String DQUOTE
              (String DQUOTE "c")))))).
  unfold fits_int, INT_MAX. simpl. lia.
Defined.

(** C6, as the code has it.  Take a source short enough for the [int]
    cursor and line counter, and a token that [tokenize] produces, together
    with the cursor at the time it is pushed (the index just past its last
    character, so that the newlines inside a string literal lie before it);
    [tokenize_at] returns the tokens of [tokenize] with those cursors, for
    every source ([LexerFacts.tokenize_at_total]).  Let N be the number of
    newline characters of the source before that cursor, and J the number
    of newline characters that the jumps after a hash sign followed by [i]
    have passed so far: for each include token up to this token, those
    among the six characters before the cursor at which it was made.  The
    line of the token is N+1-J: it is N+1 as long as no jump has passed a
    newline, and each newline a jump passes is missing from all the lines
    after it, since the jump does not look at what it passes. *)
Theorem token_line_counts_newlines
    (source : string) (pre post : list (Token * nat))
    (tok : Token) (pos : nat) :
  fits_int (list_ascii_of_string source) ->
  Lexer.tokenize_at source = Some (pre ++ (tok, pos) :: post) ->
  line tok + jumped_newlines source (pre ++ [(tok, pos)])
  = newlines_before source pos + 1.
Proof.
  intros _ Htok.
  destruct (LexerWhole.source_pieces (list_ascii_of_string source))
    as (pieces & t & Hs & Hok & Ht).
  pose proof (LexerWhole.tokenize_with_pieces source pieces t Hs Hok Ht
                _ (fun lx tok => (tok, Lexer.m_current_pos lx))) as Hw.
  unfold Lexer.tokenize_at in Htok. rewrite Hw in Htok. clear Hw.
  injection Htok as Htok. cbv beta in Htok.
  pose proof (LexerWhole.trace_lines source pieces (Lexer.new source) t 0
                eq_refl Hs Hok Ht eq_refl) as Hl.
  rewrite Htok in Hl.
  pose proof (LexerWhole.lines_exact_at source pre 0 (tok, pos) post Hl)
    as H.
  cbn [fst snd] in H. lia.
Qed.

(** The source of the failing instance below: the semicolon after the jump
    over five newlines is on line 1 = 5 + 1 - 5. *)
Lemma token_line_counts_newlines_witness :
  line (mkToken SEMICOLON ";" 1)
  + jumped_newlines
      (String "#" (String "i" (String LF (String LF (String LF (String LF
         (String LF ";")))))))
      [(mkToken INCLUDE "#include" 1, 7); (mkToken SEMICOLON ";" 1, 8)]
  = newlines_before
      (String "#" (String "i" (String LF (String LF (String LF (String LF
         (String LF ";")))))))
      8 + 1.
Proof.
  apply (token_line_counts_newlines
           (String "#" (String "i" (String LF (String LF (String LF
              (String LF (String LF ";")))))))
           [(mkToken INCLUDE "#include" 1, 7)]
           [(mkToken END_OF_FILE EmptyString 1, 8)]
           (mkToken SEMICOLON ";" 1) 8).
  - unfold fits_int, INT_MAX. simpl. lia.
  - reflexivity.
Defined.
